(** * Design-system comparison engine: colour utilities, WCAG audit and
      token matching of [compare-design-systems.js]

    The development embeds the pure core of the comparison script:
    [hexToRgb], [rgbToLab], [deltaE2000], [normalizeColor], [getLuminance],
    [getContrastRatio], [checkWCAG], [auditAccessibility], [compareColors],
    [compareTypography], [compareSpacing] and [compareBorderRadius].

    Conventions of the embedding.
    - A JavaScript string is a [string] of code units below 256 (Latin-1);
      [null], [undefined] and the empty string, which the code only ever
      tests for truthiness, are all the empty string.
    - The numbers of the colour code (Lab values, distances, luminance,
      contrast) are exact reals: [Math.pow], [Math.sqrt] and trigonometry
      are the functions of analysis, and the rounding errors of binary64
      are not part of that model.  [Infinity] is a separate constructor.
    - The numbers of the spacing and radius scales are binary64 values
      with the IEEE 754 operations of [SpecFloat]: [parseFloat], [===],
      subtraction and [<=] round and compare as the code does.
    - The scores are computed on exact rationals from the lengths of the
      result lists, where the code divides and multiplies in binary64.
    - Division and square root are total on the reals of Rocq; the proofs
      below show that no divisor of the code is zero and no argument of
      [Math.sqrt] negative ([SLOf_ge_1], [TOf_lower],
      [deltaE2000_radicand_nonneg]), so the totalisation is never used. *)

From Stdlib Require Import Bool List String Ascii NArith ZArith QArith Qround Qabs.
From Stdlib Require Import Reals Lra Lia Psatz.
From Stdlib Require Import Permutation Sorted SpecFloat.
Import ListNotations.

(* ================================================================== *)
(** ** JavaScript string primitives *)

Module Js.

Local Open Scope N_scope.

Definition code (c : ascii) : N := N_of_ascii c.

(** [\s] of a regular expression and the characters removed by [trim()],
    restricted to code units below 256. *)
Definition isWhiteSpace (c : ascii) : bool :=
  let n := code c in
  ((9 <=? n) && (n <=? 13)) || (n =? 32) || (n =? 160).

(** [\d] *)
Definition isDigit (c : ascii) : bool :=
  let n := code c in (48 <=? n) && (n <=? 57).

(** [[a-f\d]] under the [i] flag *)
Definition isHexDigit (c : ascii) : bool :=
  let n := code c in
  isDigit c || ((97 <=? n) && (n <=? 102)) || ((65 <=? n) && (n <=? 70)).

(** value of one hexadecimal digit, as [parseInt(_, 16)] reads it *)
Definition hexValue (c : ascii) : Z :=
  let n := code c in
  if isDigit c then Z.of_N (n - 48)
  else if (97 <=? n) && (n <=? 102) then Z.of_N (n - 87)
  else if (65 <=? n) && (n <=? 70) then Z.of_N (n - 55)
  else 0%Z.

Definition toLowerChar (c : ascii) : ascii :=
  let n := code c in
  if ((65 <=? n) && (n <=? 90))
     || ((192 <=? n) && (n <=? 222) && negb (n =? 215))
  then ascii_of_N (n + 32) else c.

Fixpoint toLowerCase (s : string) : string :=
  match s with
  | EmptyString => EmptyString
  | String c t => String (toLowerChar c) (toLowerCase t)
  end.

Fixpoint dropWhile (p : ascii -> bool) (l : list ascii) : list ascii :=
  match l with
  | [] => []
  | c :: t => if p c then dropWhile p t else l
  end.

Fixpoint takeWhile (p : ascii -> bool) (l : list ascii) : list ascii :=
  match l with
  | [] => []
  | c :: t => if p c then c :: takeWhile p t else []
  end.

Definition trim (s : string) : string :=
  let l := dropWhile isWhiteSpace (list_ascii_of_string s) in
  string_of_list_ascii (rev (dropWhile isWhiteSpace (rev l))).

(** [s.replace(c, '')] with a string pattern: only the first occurrence goes *)
Fixpoint removeFirst (c : ascii) (s : string) : string :=
  match s with
  | EmptyString => EmptyString
  | String x t => if Ascii.eqb x c then t else String x (removeFirst c t)
  end.

Definition startsWithChar (c : ascii) (s : string) : bool :=
  match s with
  | String x _ => Ascii.eqb x c
  | EmptyString => false
  end.

(** [s.slice(0, n)] *)
Definition slice0 (n : nat) (s : string) : string := substring 0 n s.

(** [a.includes(b)] *)
Fixpoint includes (a b : string) : bool :=
  prefix b a ||
  match a with
  | EmptyString => false
  | String _ t => includes t b
  end.

(** [s.split(' ')[0]] *)
Fixpoint firstWord (s : string) : string :=
  match s with
  | EmptyString => EmptyString
  | String c t => if Ascii.eqb c " " then EmptyString else String c (firstWord t)
  end.

(** [parseInt] of a run of decimal digits *)
Definition parseDec (l : list ascii) : N :=
  fold_left (fun acc c => 10 * acc + (code c - 48)) l 0.

Definition hexDigitOf (n : N) : ascii :=
  if n <? 10 then ascii_of_N (48 + n) else ascii_of_N (87 + n).

(** [n.toString(16)], most significant digit first *)
Fixpoint toHexFuel (fuel : nat) (n : N) (acc : string) : string :=
  match fuel with
  | O => acc
  | S f =>
      let acc' := String (hexDigitOf (n mod 16)) acc in
      if n / 16 =? 0 then acc' else toHexFuel f (n / 16) acc'
  end.

Definition toHex (n : N) : string :=
  toHexFuel (S (N.to_nat (N.log2 n))) n EmptyString.

(** [n.toString()] of a non-negative integer, most significant digit first *)
Fixpoint toDecFuel (fuel : nat) (n : N) (acc : string) : string :=
  match fuel with
  | O => acc
  | S f =>
      let acc' := String (ascii_of_N (48 + n mod 10)) acc in
      if n / 10 =? 0 then acc' else toDecFuel f (n / 10) acc'
  end.

Definition toDec (n : N) : string :=
  toDecFuel (S (N.to_nat (N.log2 n))) n EmptyString.

(** [s.padStart(2, '0')] *)
Definition padStart2 (s : string) : string :=
  match s with
  | EmptyString => "00"
  | String c EmptyString => String "0" s
  | _ => s
  end.

End Js.

(* ================================================================== *)
(** ** Colour utilities *)

(** the object [{r, g, b}] *)
Record Rgb := mkRgb { rgb_r : Z; rgb_g : Z; rgb_b : Z }.

(** [hexToRgb]: [null] is [None]. *)
Definition hexToRgb (hex : string) : option Rgb :=
  match hex with
  | EmptyString => None
  | _ =>
    let hex := Js.removeFirst "#" hex in
    let hex :=
      match hex with
      | String h0 (String h1 (String h2 EmptyString)) =>
          String h0 (String h0 (String h1 (String h1 (String h2 (String h2 EmptyString)))))
      | _ => hex
      end in
    match hex with
    | String c1 (String c2 (String c3 (String c4 (String c5 (String c6 EmptyString))))) =>
        if forallb Js.isHexDigit [c1; c2; c3; c4; c5; c6]
        then Some {| rgb_r := 16 * Js.hexValue c1 + Js.hexValue c2;
                     rgb_g := 16 * Js.hexValue c3 + Js.hexValue c4;
                     rgb_b := 16 * Js.hexValue c5 + Js.hexValue c6 |}
        else None
    | _ => None
    end
  end.

(** Result of [normalizeColor]: [null], a string, or one of the two members
    that the object literal [named] inherits and whose names are lower case
    ([named['constructor']], [named['__proto__']]). *)
Inductive Normalized :=
| NNull
| NString (s : string)
| NInherited (name : string).

(** one attempt of [/rgba?\((\d+),\s*(\d+),\s*(\d+)/] at the head of [l] *)
Definition rgbMatchAt (l : list ascii) : option (list ascii * list ascii * list ascii) :=
  match l with
  | "r"%char :: "g"%char :: "b"%char :: t =>
      let t := match t with "a"%char :: t' => t' | _ => t end in
      match t with
      | "("%char :: t =>
          let d1 := Js.takeWhile Js.isDigit t in
          match d1, Js.dropWhile Js.isDigit t with
          | _ :: _, ","%char :: t =>
              let t := Js.dropWhile Js.isWhiteSpace t in
              let d2 := Js.takeWhile Js.isDigit t in
              match d2, Js.dropWhile Js.isDigit t with
              | _ :: _, ","%char :: t =>
                  let t := Js.dropWhile Js.isWhiteSpace t in
                  let d3 := Js.takeWhile Js.isDigit t in
                  match d3 with
                  | _ :: _ => Some (d1, d2, d3)
                  | [] => None
                  end
              | _, _ => None
              end
          | _, _ => None
          end
      | _ => None
      end
  | _ => None
  end.

(** [color.match(...)]: leftmost position where the pattern matches *)
Fixpoint rgbMatch (l : list ascii) : option (list ascii * list ascii * list ascii) :=
  match rgbMatchAt l with
  | Some m => Some m
  | None =>
      match l with
      | [] => None
      | _ :: t => rgbMatch t
      end
  end.

(** own properties of the table [named]; [transparent] maps to [null] *)
Definition named : list (string * option string) :=
  [ ("white", Some "#ffffff"); ("black", Some "#000000"); ("red", Some "#ff0000");
    ("green", Some "#008000"); ("blue", Some "#0000ff"); ("transparent", None);
    ("gray", Some "#808080"); ("grey", Some "#808080"); ("silver", Some "#c0c0c0");
    ("navy", Some "#000080"); ("teal", Some "#008080"); ("purple", Some "#800080");
    ("orange", Some "#ffa500"); ("yellow", Some "#ffff00"); ("lime", Some "#00ff00");
    ("aqua", Some "#00ffff"); ("cyan", Some "#00ffff"); ("magenta", Some "#ff00ff");
    ("fuchsia", Some "#ff00ff"); ("maroon", Some "#800000"); ("olive", Some "#808000") ]%string.

Fixpoint namedOwn (tbl : list (string * option string)) (k : string) : option (option string) :=
  match tbl with
  | [] => None
  | (k', v) :: t => if String.eqb k k' then Some v else namedOwn t k
  end.

(** [named[color] || null] *)
Definition namedLookup (color : string) : Normalized :=
  match namedOwn named color with
  | Some (Some v) => NString v
  | Some None => NNull
  | None =>
      if String.eqb color "constructor" || String.eqb color "__proto__"
      then NInherited color else NNull
  end.

(** [parseInt(d).toString(16).padStart(2, '0')] for a run of digits [d];
    [parseInt] is exact below [2^53], where the code rounds to binary64 *)
Definition hexComponent (d : list ascii) : string :=
  Js.padStart2 (Js.toHex (Js.parseDec d)).

Definition normalizeColor (color : string) : Normalized :=
  match color with
  | EmptyString => NNull
  | _ =>
    let color := Js.toLowerCase (Js.trim color) in
    match rgbMatch (list_ascii_of_string color) with
    | Some (d1, d2, d3) =>
        NString (String "#" (hexComponent d1 ++ hexComponent d2 ++ hexComponent d3))
    | None =>
        if Js.startsWithChar "#" color then
          match color with
          | String _ (String c1 (String c2 (String c3 EmptyString))) =>
              NString (String "#" (String c1 (String c1 (String c2 (String c2
                        (String c3 (String c3 EmptyString)))))))
          | _ => NString (Js.slice0 7 color)
          end
        else namedLookup color
    end
  end.

(* ================================================================== *)
(** ** Lab conversion and CIE Delta E 2000 *)

Local Open Scope R_scope.

(** a JavaScript number that may be [Infinity] *)
Inductive Num :=
| Fin (x : R)
| Infinity.

(** the object [{L, a, b}] *)
Record Lab := mkLab { lab_L : R; lab_a : R; lab_b : R }.

(** [c > 0.04045 ? Math.pow((c + 0.055) / 1.055, 2.4) : c / 12.92] *)
Definition labGamma (c : R) : R :=
  if Rgt_dec c 0.04045 then Rpower ((c + 0.055) / 1.055) 2.4 else c / 12.92.

(** [t > epsilon ? Math.pow(t, 1/3) : (kappa * t + 16) / 116] *)
Definition labF (t : R) : R :=
  let epsilon := 0.008856 in
  let kappa := 903.3 in
  if Rgt_dec t epsilon then Rpower t (1 / 3) else (kappa * t + 16) / 116.

(** body of [rgbToLab] for a non-null argument *)
Definition labOfRgb (rgb : Rgb) : Lab :=
  let r := IZR (rgb_r rgb) / 255 in
  let g := IZR (rgb_g rgb) / 255 in
  let b := IZR (rgb_b rgb) / 255 in
  let r := labGamma r in
  let g := labGamma g in
  let b := labGamma b in
  let r := r * 100 in
  let g := g * 100 in
  let b := b * 100 in
  let refX := 95.047 in
  let refY := 100.000 in
  let refZ := 108.883 in
  let x := (r * 0.4124564 + g * 0.3575761 + b * 0.1804375) / refX in
  let y := (r * 0.2126729 + g * 0.7151522 + b * 0.0721750) / refY in
  let z := (r * 0.0193339 + g * 0.1191920 + b * 0.9503041) / refZ in
  let x := labF x in
  let y := labF y in
  let z := labF z in
  {| lab_L := 116 * y - 16;
     lab_a := 500 * (x - y);
     lab_b := 200 * (y - z) |}.

Definition rgbToLab (rgb : option Rgb) : option Lab :=
  match rgb with
  | None => None
  | Some c => Some (labOfRgb c)
  end.

(** [Math.atan2(y, x)], in radians; the sign of a zero is not modelled *)
Definition atan2 (y x : R) : R :=
  if Rlt_dec 0 x then atan (y / x)
  else if Rlt_dec x 0 then
    (if Rle_dec 0 y then atan (y / x) + PI else atan (y / x) - PI)
  else if Rlt_dec 0 y then PI / 2
  else if Rlt_dec y 0 then - (PI / 2)
  else 0.

(** [h < 0 ? h + 360 : h] applied to [Math.atan2(b, ap) * 180 / Math.PI] *)
Definition hueAdj (b ap : R) : R :=
  let h := atan2 b ap * 180 / PI in
  if Rlt_dec h 0 then h + 360 else h.

(** the four-branch [dhp] *)
Definition dhpOf (C1p C2p h1pAdj h2pAdj : R) : R :=
  if Req_EM_T (C1p * C2p) 0 then 0
  else if Rle_dec (Rabs (h2pAdj - h1pAdj)) 180 then h2pAdj - h1pAdj
  else if Rgt_dec (h2pAdj - h1pAdj) 180 then h2pAdj - h1pAdj - 360
  else h2pAdj - h1pAdj + 360.

(** the four-branch [Hp] *)
Definition HpOf (C1p C2p h1pAdj h2pAdj : R) : R :=
  if Req_EM_T (C1p * C2p) 0 then h1pAdj + h2pAdj
  else if Rle_dec (Rabs (h1pAdj - h2pAdj)) 180 then (h1pAdj + h2pAdj) / 2
  else if Rlt_dec (h1pAdj + h2pAdj) 360 then (h1pAdj + h2pAdj + 360) / 2
  else (h1pAdj + h2pAdj - 360) / 2.

Definition TOf (Hp : R) : R :=
  1 - 0.17 * cos ((Hp - 30) * PI / 180)
    + 0.24 * cos (2 * Hp * PI / 180)
    + 0.32 * cos ((3 * Hp + 6) * PI / 180)
    - 0.20 * cos ((4 * Hp - 63) * PI / 180).

Definition dThetaOf (Hp : R) : R := 30 * exp (- ((Hp - 275) / 25) ^ 2).

Definition RCOf (Cp : R) : R := 2 * sqrt (Cp ^ 7 / (Cp ^ 7 + 25 ^ 7)).

Definition SLOf (Lp : R) : R :=
  1 + (0.015 * (Lp - 50) ^ 2) / sqrt (20 + (Lp - 50) ^ 2).

(** the expression under the final [Math.sqrt] of [deltaE2000] *)
Definition deltaE2000_radicand (lab1 lab2 : Lab) : R :=
  let L1 := lab_L lab1 in let a1 := lab_a lab1 in let b1 := lab_b lab1 in
  let L2 := lab_L lab2 in let a2 := lab_a lab2 in let b2 := lab_b lab2 in
  let kL := 1 in let kC := 1 in let kH := 1 in
  let C1 := sqrt (a1 * a1 + b1 * b1) in
  let C2 := sqrt (a2 * a2 + b2 * b2) in
  let Cab := (C1 + C2) / 2 in
  let G := 0.5 * (1 - sqrt (Cab ^ 7 / (Cab ^ 7 + 25 ^ 7))) in
  let a1p := a1 * (1 + G) in
  let a2p := a2 * (1 + G) in
  let C1p := sqrt (a1p * a1p + b1 * b1) in
  let C2p := sqrt (a2p * a2p + b2 * b2) in
  let h1pAdj := hueAdj b1 a1p in
  let h2pAdj := hueAdj b2 a2p in
  let dLp := L2 - L1 in
  let dCp := C2p - C1p in
  let dhp := dhpOf C1p C2p h1pAdj h2pAdj in
  let dHp := 2 * sqrt (C1p * C2p) * sin (dhp * PI / 360) in
  let Lp := (L1 + L2) / 2 in
  let Cp := (C1p + C2p) / 2 in
  let Hp := HpOf C1p C2p h1pAdj h2pAdj in
  let T := TOf Hp in
  let dTheta := dThetaOf Hp in
  let RC := RCOf Cp in
  let SL := SLOf Lp in
  let SC := 1 + 0.045 * Cp in
  let SH := 1 + 0.015 * Cp * T in
  let RT := - sin (2 * dTheta * PI / 180) * RC in
  (dLp / (kL * SL)) ^ 2 +
  (dCp / (kC * SC)) ^ 2 +
  (dHp / (kH * SH)) ^ 2 +
  RT * (dCp / (kC * SC)) * (dHp / (kH * SH)).

Definition deltaE2000_lab (lab1 lab2 : Lab) : R :=
  sqrt (deltaE2000_radicand lab1 lab2).

Definition deltaE2000 (hex1 hex2 : string) : Num :=
  let rgb1 := hexToRgb hex1 in
  let rgb2 := hexToRgb hex2 in
  match rgb1, rgb2 with
  | Some _, Some _ =>
      match rgbToLab rgb1, rgbToLab rgb2 with
      | Some lab1, Some lab2 => Fin (deltaE2000_lab lab1 lab2)
      | _, _ => Infinity
      end
  | _, _ => Infinity
  end.

(** [const deltaE = deltaE2000] *)
Definition deltaE := deltaE2000.

(** [x < y] on numbers that may be [Infinity] *)
Definition numLtb (x : Num) (y : R) : bool :=
  match x with
  | Fin v => if Rlt_dec v y then true else false
  | Infinity => false
  end.

(** [x.toFixed(2)] of a number below [10^21]: with [n] the integer for
    which [n / 100 - x] is closest to zero (the larger one when there are
    two), the digits of [n] with a dot before the last two, after a minus
    sign when [x < 0].  From [10^21] on the code prints an exponent; the
    numbers formatted below are contrast ratios, at most 21, and distances
    below 5. *)
Definition toFixed2 (x : R) : string :=
  let s := if Rlt_dec x 0 then "-"%string else EmptyString in
  let x := if Rlt_dec x 0 then - x else x in
  let n := Z.to_N (Int_part (x * 100 + / 2)) in
  let a := Js.toDec (n / 100) in
  let b := String (ascii_of_N (48 + (n / 10) mod 10))
                  (String (ascii_of_N (48 + n mod 10)) EmptyString) in
  (s ++ a ++ "." ++ b)%string.

(** [de.toFixed(2)] on a number that may be [Infinity] *)
Definition numToFixed2 (x : Num) : string :=
  match x with
  | Fin v => toFixed2 v
  | Infinity => "Infinity"%string
  end.

(* ================================================================== *)
(** ** WCAG accessibility *)

(** [c <= 0.03928 ? c / 12.92 : Math.pow((c + 0.055) / 1.055, 2.4)] *)
Definition wcagGamma (c : R) : R :=
  if Rle_dec c 0.03928 then c / 12.92 else Rpower ((c + 0.055) / 1.055) 2.4.

Definition getLuminance (hex : string) : R :=
  match hexToRgb hex with
  | None => 0
  | Some rgb =>
      let r := wcagGamma (IZR (rgb_r rgb) / 255) in
      let g := wcagGamma (IZR (rgb_g rgb) / 255) in
      let b := wcagGamma (IZR (rgb_b rgb) / 255) in
      0.2126 * r + 0.7152 * g + 0.0722 * b
  end.

Definition getContrastRatio (hex1 hex2 : string) : R :=
  let l1 := getLuminance hex1 in
  let l2 := getLuminance hex2 in
  let lighter := Rmax l1 l2 in
  let darker := Rmin l1 l2 in
  (lighter + 0.05) / (darker + 0.05).

Definition Rgeb (x y : R) : bool := if Rge_dec x y then true else false.

(** result of [checkWCAG]; the field [ratio] holds the string
    [ratio.toFixed(2)], the five verdicts are computed from the number *)
Record Wcag := mkWcag {
  ratio : string;
  AA_normalText : bool;
  AA_largeText : bool;
  AA_uiComponents : bool;
  AAA_normalText : bool;
  AAA_largeText : bool
}.

Definition checkWCAG (foreground background : string) : Wcag :=
  let ratio := getContrastRatio foreground background in
  {| ratio := toFixed2 ratio;
     AA_normalText := Rgeb ratio 4.5;
     AA_largeText := Rgeb ratio 3;
     AA_uiComponents := Rgeb ratio 3;
     AAA_normalText := Rgeb ratio 7;
     AAA_largeText := Rgeb ratio 4.5 |}.

Inductive Severity := SevError | SevWarning.

(** which of the three message templates an issue carries *)
Inductive IssueKind := FailsAA | PassesAAFailsAAA | AccentHardToSee.

Record Combo := mkCombo {
  foreground : string;
  background : string;
  wcag : Wcag
}.

Record Issue := mkIssue {
  severity : Severity;
  kind : IssueKind;
  combo : Combo
}.

Record Audit := mkAudit { issues : list Issue; passing : list Combo }.

(** the [colors] object of a reference: the values of [palette] and of the
    four lists under [semantic] *)
Record Colors := mkColors {
  palette : list string;
  backgrounds : list string;
  text : list string;
  borders : list string;
  accents : list string
}.

Definition truthy (s : string) : bool :=
  match s with EmptyString => false | _ => true end.

(** body of the inner loop over text colours *)
Definition auditText (bg : string) (acc : Audit) (text : string) : Audit :=
  if negb (truthy bg) || negb (truthy text) then acc
  else
    let result := checkWCAG text bg in
    let combo := {| foreground := text; background := bg; wcag := result |} in
    if negb (AA_normalText result) then
      {| issues := issues acc ++ [mkIssue SevError FailsAA combo];
         passing := passing acc |}
    else if negb (AAA_normalText result) then
      {| issues := issues acc ++ [mkIssue SevWarning PassesAAFailsAAA combo];
         passing := passing acc |}
    else
      {| issues := issues acc; passing := passing acc ++ [combo] |}.

(** body of the inner loop over accent colours *)
Definition auditAccent (bg : string) (acc : Audit) (accent : string) : Audit :=
  if negb (truthy bg) || negb (truthy accent) then acc
  else
    let result := checkWCAG accent bg in
    if negb (AA_uiComponents result) then
      {| issues := issues acc ++
           [mkIssue SevWarning AccentHardToSee
              {| foreground := accent; background := bg; wcag := result |}];
         passing := passing acc |}
    else acc.

Definition auditAccessibility (colors : Colors) : Audit :=
  let acc := {| issues := []; passing := [] |} in
  let backgrounds := backgrounds colors in
  let textColors := text colors in
  let acc :=
    fold_left (fun acc bg => fold_left (auditText bg) (firstn 3 textColors) acc)
              (firstn 3 backgrounds) acc in
  let accents := accents colors in
  fold_left (fun acc bg => fold_left (auditAccent bg) (firstn 2 accents) acc)
            (firstn 2 backgrounds) acc.

Local Close Scope R_scope.

(* ================================================================== *)
(** ** Comparison algorithms *)

(** [Math.round] on an exact rational: nearest integer, halves upwards *)
Definition mathRound (q : Q) : Z := Qfloor (q + (1 # 2)).

(** [list.length || 1] *)
Definition lengthOr1 {A : Type} (l : list A) : Z :=
  match l with
  | [] => 1
  | _ => Z.of_nat (List.length l)
  end.

Definition lengthQ {A : Type} (l : list A) : Q := inject_Z (Z.of_nat (List.length l)).

(** [Math.round(((exact + similar * weight) / total) * 100)] *)
Definition scoreOf (nExact nSimilar : Q) (weight : Q) (total : Z) : Z :=
  mathRound (((nExact + nSimilar * weight) / inject_Z total) * 100).

(** The loop shared by [compareColors] and [compareSpacing]: the two
    functions differ only in the test of the first inner loop ([strictEq]),
    the test of the second ([near]), the distance they record ([dist]) and
    the equality of the elements of the [Set] ([sameValue]). *)
Section Matcher.

Variables V D : Type.
Variable strictEq : V -> V -> bool.
Variable near : V -> V -> bool.
Variable dist : V -> V -> D.
Variable sameValue : V -> V -> bool.

(** [results.exact], [results.similar], [results.extra] and the local
    [matchedRef] while the loop over the project values runs *)
Record MatchState := mkMatchState {
  st_exact : list (V * V);
  st_similar : list (V * V * D);
  st_extra : list V;
  st_matchedRef : list V
}.

(** [set.has(v)] *)
Definition setHas (s : list V) (v : V) : bool := existsb (sameValue v) s.

(** [set.add(v)] *)
Definition setAdd (s : list V) (v : V) : list V :=
  if setHas s v then s else s ++ [v].

Definition matchInit : MatchState :=
  {| st_exact := []; st_similar := []; st_extra := []; st_matchedRef := [] |}.

(** one iteration of [for (const proj of projectValues)] *)
Definition matchOne (refs : list V) (st : MatchState) (proj : V) : MatchState :=
  match find (fun ref => strictEq proj ref) refs with
  | Some ref =>
      {| st_exact := st_exact st ++ [(proj, ref)];
         st_similar := st_similar st;
         st_extra := st_extra st;
         st_matchedRef := setAdd (st_matchedRef st) ref |}
  | None =>
      match find (fun ref => negb (setHas (st_matchedRef st) ref) && near proj ref) refs with
      | Some ref =>
          {| st_exact := st_exact st;
             st_similar := st_similar st ++ [(proj, ref, dist proj ref)];
             st_extra := st_extra st;
             st_matchedRef := setAdd (st_matchedRef st) ref |}
      | None =>
          {| st_exact := st_exact st;
             st_similar := st_similar st;
             st_extra := st_extra st ++ [proj];
             st_matchedRef := st_matchedRef st |}
      end
  end.

Definition matchAll (refs projs : list V) : MatchState :=
  fold_left (matchOne refs) projs matchInit.

(** the loop that fills [results.missing] *)
Definition missingOf (refs : list V) (st : MatchState) : list V :=
  filter (fun ref => negb (setHas (st_matchedRef st) ref)) refs.

(** the reference values of all matches recorded so far *)
Definition claimedRefs (st : MatchState) : list V :=
  map snd (st_exact st) ++ map (fun m => snd (fst m)) (st_similar st).

(** The matching as the specification words it: an exact pass over the
    whole project list, then a closeness pass over the project values left
    unmatched, a reference value being claimed at most once overall. *)
Definition specExactPass (refs projs : list V) : MatchState :=
  fold_left
    (fun st proj =>
       match find (fun ref => negb (setHas (st_matchedRef st) ref) && strictEq proj ref) refs with
       | Some ref =>
           {| st_exact := st_exact st ++ [(proj, ref)];
              st_similar := st_similar st;
              st_extra := st_extra st;
              st_matchedRef := setAdd (st_matchedRef st) ref |}
       | None =>
           {| st_exact := st_exact st;
              st_similar := st_similar st;
              st_extra := st_extra st ++ [proj];
              st_matchedRef := st_matchedRef st |}
       end)
    projs matchInit.

Definition specMatchSets (refs projs : list V) : MatchState :=
  let st1 := specExactPass refs projs in
  fold_left
    (fun st proj =>
       match find (fun ref => negb (setHas (st_matchedRef st) ref) && near proj ref) refs with
       | Some ref =>
           {| st_exact := st_exact st;
              st_similar := st_similar st ++ [(proj, ref, dist proj ref)];
              st_extra := st_extra st;
              st_matchedRef := setAdd (st_matchedRef st) ref |}
       | None =>
           {| st_exact := st_exact st;
              st_similar := st_similar st;
              st_extra := st_extra st ++ [proj];
              st_matchedRef := st_matchedRef st |}
       end)
    (st_extra st1)
    {| st_exact := st_exact st1; st_similar := []; st_extra := [];
       st_matchedRef := st_matchedRef st1 |}.

(** the reference value of an entry of [results.similar] *)
Definition refOfSimilar (m : V * V * D) : V := snd (fst m).

(** the set of claimed references is the set of references of the matches *)
Definition Consistent (st : MatchState) : Prop :=
  forall ref, setHas (st_matchedRef st) ref = existsb (sameValue ref) (claimedRefs st).

End Matcher.

Arguments mkMatchState {V D}.
Arguments st_exact {V D}.
Arguments st_similar {V D}.
Arguments st_extra {V D}.
Arguments st_matchedRef {V D}.
Arguments setHas {V}.
Arguments setAdd {V}.
Arguments matchInit {V D}.
Arguments matchOne {V D}.
Arguments matchAll {V D}.
Arguments missingOf {V D}.
Arguments claimedRefs {V D}.
Arguments specMatchSets {V D}.
Arguments specExactPass {V D}.
Arguments refOfSimilar {V D}.
Arguments Consistent {V D}.

(** [{exact, similar, missing, extra, score}]; [compareSpacing] calls the
    first two lists [matched] and [close]. *)
Record CategoryResult (V D : Type) := mkCategoryResult {
  exact : list (V * V);
  similar : list (V * V * D);
  missing : list V;
  extra : list V;
  score : Z
}.

Arguments mkCategoryResult {V D}.
Arguments exact {V D}.
Arguments similar {V D}.
Arguments missing {V D}.
Arguments extra {V D}.
Arguments score {V D}.

(** [[...new Set(l)]]: first occurrences, in order *)
Definition dedupe (l : list string) : list string :=
  fold_left (setAdd String.eqb) l [].

(** [allRefColors] *)
Definition allRefColors (referenceColors : Colors) : list string :=
  let refPalette := palette referenceColors in
  let refSemantic :=
    backgrounds referenceColors ++ text referenceColors ++
    borders referenceColors ++ accents referenceColors in
  filter truthy (dedupe (refPalette ++ refSemantic)).

Definition colorExact (projColor refColor : string) : bool :=
  String.eqb (Js.toLowerCase projColor) (Js.toLowerCase refColor).

Definition colorNear (projColor refColor : string) : bool :=
  numLtb (deltaE projColor refColor) 5.

(** what a similar match records: [deltaE(projColor, refColor).toFixed(2)] *)
Definition colorDist (projColor refColor : string) : string :=
  numToFixed2 (deltaE projColor refColor).

(** the main loop of [compareColors] *)
Definition colorLoop (refs projs : list string) : MatchState string string :=
  matchAll colorExact colorNear colorDist String.eqb refs projs.

(** [compareColors]; [projectColors] is the list of the entries of the
    object in the order of [Object.values]. *)
Definition compareColors (projectColors : list (string * string))
                         (referenceColors : Colors) : CategoryResult string string :=
  let allRef := allRefColors referenceColors in
  let projectColorValues := filter truthy (map snd projectColors) in
  let st := colorLoop allRef projectColorValues in
  let total := lengthOr1 allRef in
  {| exact := st_exact st;
     similar := st_similar st;
     missing := missingOf String.eqb allRef st;
     extra := st_extra st;
     score := scoreOf (lengthQ (st_exact st)) (lengthQ (st_similar st)) (8 # 10) total |}.

(** A number of the spacing scale: a binary64 value, with the two zeros,
    the two infinities and [NaN]. *)
Definition SNum : Type := spec_float.

Fixpoint pow10 (n : nat) : positive :=
  match n with
  | O => 1%positive
  | S k => (10 * pow10 k)%positive
  end.

(** the number for the decimal numeral with the digits of [n] and [k] of
    them behind the dot: the binary64 value nearest to [n / 10^k], ties to
    the even mantissa, as number literals and [parseFloat] produce it *)
Definition numOfDecimal (n : N) (k : nat) : SNum :=
  match n with
  | N0 => S754_zero false
  | Npos p => SFdiv 53 1024 (S754_finite false p 0) (S754_finite false (pow10 k) 0)
  end.

(** the number of an integer literal *)
Definition numOfZ (z : Z) : SNum := binary_normalize 53 1024 z 0 false.

(** the rational value of a finite number *)
Definition snumValue (x : SNum) : Q :=
  match x with
  | S754_finite s m e => inject_Z (cond_Zopp s (Zpos m)) * (2 # 1) ^ e
  | _ => 0
  end.

(** [x] is a well-formed binary64 number at most half a unit in the last
    place away from [q]; zero stands for [q = 0] only *)
Definition nearestBinary64 (x : SNum) (q : Q) : bool :=
  match x with
  | S754_zero _ => Qeq_bool q 0
  | S754_finite s m e =>
      bounded 53 1024 m e && Qle_bool (Qabs (snumValue x - q) * 2) ((2 # 1) ^ e)
  | _ => false
  end.

(** [Number.isFinite] *)
Definition snumIsFinite (x : SNum) : bool :=
  match x with
  | S754_zero _ | S754_finite _ _ _ => true
  | S754_infinity _ | S754_nan => false
  end.

(** [proj === ref] *)
Definition snumStrictEq (x y : SNum) : bool := SFeqb x y.

(** equality of [Set] elements and of [includes] (SameValueZero) *)
Definition snumSameValue (x y : SNum) : bool :=
  match x, y with
  | S754_nan, S754_nan => true
  | _, _ => SFeqb x y
  end.

(** [Math.abs(proj - ref)] *)
Definition snumDiff (x y : SNum) : SNum := SFabs (SFsub 53 1024 x y).

(** [Math.abs(proj - ref) <= 2] *)
Definition snumNear (x y : SNum) : bool := SFleb (snumDiff x y) (numOfZ 2).

(** the main loop of [compareSpacing] *)
Definition spacingLoop (refs projs : list SNum) : MatchState SNum SNum :=
  matchAll snumStrictEq snumNear snumDiff snumSameValue refs projs.

(** [compareSpacing] on the scales after [parseValue] and the removal of
    [null]; the lists hold the numbers, which the code prints with [px]. *)
Definition compareSpacing (projScale refScale : list SNum) : CategoryResult SNum SNum :=
  let st := spacingLoop refScale projScale in
  let total := lengthOr1 refScale in
  {| exact := st_exact st;
     similar := st_similar st;
     missing := missingOf snumSameValue refScale st;
     extra := st_extra st;
     score := scoreOf (lengthQ (st_exact st)) (lengthQ (st_similar st)) (7 # 10) total |}.

(** [{matched, missing, extra, score}] of [compareTypography] (pairs) and
    [compareBorderRadius] (single values) *)
Record MatchedResult (M V : Type) := mkMatchedResult {
  matched : list M;
  m_missing : list V;
  m_extra : list V;
  m_score : Z
}.

Arguments mkMatchedResult {M V}.
Arguments matched {M V}.
Arguments m_missing {M V}.
Arguments m_extra {M V}.
Arguments m_score {M V}.

(** the predicate given to [refFonts.find] *)
Definition fontMatches (proj ref : string) : bool :=
  Js.includes ref proj || Js.includes proj ref ||
  String.eqb (Js.firstWord ref) (Js.firstWord proj).

(** [compareTypography]; [fontFamilies] holds the family names *)
Definition compareTypography (projectFonts fontFamilies : list string)
  : MatchedResult (string * string) string :=
  let refFonts := map Js.toLowerCase fontFamilies in
  let projFonts := map Js.toLowerCase projectFonts in
  let step (acc : list (string * string) * list string) (proj : string) :=
    match find (fontMatches proj) refFonts with
    | Some m => if truthy m then (fst acc ++ [(proj, m)], snd acc)
                else (fst acc, snd acc ++ [proj])
    | None => (fst acc, snd acc ++ [proj])
    end in
  let res := fold_left step projFonts ([], []) in
  let total := lengthOr1 refFonts in
  {| matched := fst res;
     m_missing :=
       filter (fun ref => negb (existsb (fun m => String.eqb (snd m) ref) (fst res))) refFonts;
     m_extra := snd res;
     m_score := mathRound ((lengthQ (fst res) / inject_Z total) * 100) |}.

(** [compareBorderRadius] on the values after [parseValue] and the removal
    of [null] *)
Definition compareBorderRadius (projValues refValues : list SNum)
  : MatchedResult SNum SNum :=
  let isIn (l : list SNum) (v : SNum) := existsb (snumSameValue v) l in
  let total := lengthOr1 refValues in
  {| matched := filter (isIn refValues) projValues;
     m_missing := filter (fun ref => negb (isIn projValues ref)) refValues;
     m_extra := filter (fun proj => negb (isIn refValues proj)) projValues;
     m_score :=
       mathRound ((lengthQ (filter (isIn refValues) projValues) / inject_Z total) * 100) |}.

(* ================================================================== *)
(** ** Properties stated about the definitions above *)

(** all elements pairwise different for the equality [same] *)
Fixpoint distinctb {V : Type} (same : V -> V -> bool) (l : list V) : bool :=
  match l with
  | [] => true
  | x :: t => negb (existsb (same x) t) && distinctb same t
  end.

(** What one more project value does to the state of the loop, in terms of
    the matches recorded so far: a value that equals some reference value
    is recorded as an exact match with such a value; otherwise the
    closeness test is tried, on the reference values that no earlier match
    refers to only. *)
Definition SinglePassFirstFit {V D : Type}
    (loop : list V -> list V -> MatchState V D)
    (strictEq near : V -> V -> bool) (dist : V -> V -> D)
    (sameValue : V -> V -> bool) : Prop :=
  forall (refs done : list V) (proj : V),
    let st := loop refs done in
    let st' := loop refs (done ++ [proj]) in
    let claimed := fun ref => existsb (sameValue ref) (claimedRefs st) in
    (forall ref, setHas sameValue (st_matchedRef st) ref = claimed ref) /\
    missingOf sameValue refs st = filter (fun ref => negb (claimed ref)) refs /\
    distinctb sameValue (map (fun m => snd (fst m)) (st_similar st')) = true /\
    match find (fun ref => strictEq proj ref) refs with
    | Some _ =>
        (exists ref, In ref refs /\ strictEq proj ref = true /\
                     st_exact st' = st_exact st ++ [(proj, ref)]) /\
        st_similar st' = st_similar st /\ st_extra st' = st_extra st
    | None =>
        match find (fun ref => negb (claimed ref) && near proj ref) refs with
        | Some ref =>
            st_similar st' = st_similar st ++ [(proj, ref, dist proj ref)] /\
            claimed ref = false /\
            st_exact st' = st_exact st /\ st_extra st' = st_extra st
        | None =>
            st_extra st' = st_extra st ++ [proj] /\
            st_exact st' = st_exact st /\ st_similar st' = st_similar st
        end
    end.

(** The three kinds of input the description of [normalizeColor] lists,
    on the trimmed, lower-cased string: a hash followed by 3 or 6
    hexadecimal digits, possibly with an alpha channel of 1 or 2 more ... *)
Definition specHexColor (color : string) : bool :=
  match list_ascii_of_string (Js.toLowerCase (Js.trim color)) with
  | "#"%char :: digits =>
      forallb Js.isHexDigit digits &&
      existsb (Nat.eqb (List.length digits)) [3; 4; 6; 8]%nat
  | _ => false
  end.

(** ... an [rgb(]/[rgba(] expression with three numeric components ... *)
Definition specRgbExpression (color : string) : bool :=
  match rgbMatch (list_ascii_of_string (Js.toLowerCase (Js.trim color))) with
  | Some _ => true
  | None => false
  end.

(** ... or a key of the table of named colours. *)
Definition specNamedColor (color : string) : bool :=
  match namedOwn named (Js.toLowerCase (Js.trim color)) with
  | Some _ => true
  | None => false
  end.

(** WCAG-linearised channel value of the grey level 118 ([0x76]) *)
Definition gray118 : R := Rpower ((118 / 255 + 0.055) / 1.055) 2.4.

(* ================================================================== *)
(** ** Further functions of the comparison script *)

(** [deltaE76]: the Euclidean distance of the two Lab values *)
Definition deltaE76 (hex1 hex2 : string) : Num :=
  let rgb1 := hexToRgb hex1 in
  let rgb2 := hexToRgb hex2 in
  match rgb1, rgb2 with
  | Some _, Some _ =>
      match rgbToLab rgb1, rgbToLab rgb2 with
      | Some lab1, Some lab2 =>
          Fin (sqrt ((lab_L lab2 - lab_L lab1) ^ 2 +
                     (lab_a lab2 - lab_a lab1) ^ 2 +
                     (lab_b lab2 - lab_b lab1) ^ 2)%R)
      | _, _ => Infinity
      end
  | _, _ => Infinity
  end.

(** an entry of a spacing scale before [parseValue]: a number, or anything
    else through [String(v)] *)
Inductive SpacingToken :=
| TokNumber (x : SNum)
| TokString (s : string).

Definition isDigitOrDot (c : ascii) : bool :=
  Js.isDigit c || Ascii.eqb c ".".

(** the capture of [/([\d.]+)/]: the leftmost longest run of digits and dots *)
Definition digitDotRun (l : list ascii) : list ascii :=
  Js.takeWhile isDigitOrDot (Js.dropWhile (fun c => negb (isDigitOrDot c)) l).

(** [parseFloat] of a run of digits and dots: the number of the longest
    prefix of the form digits, digits-dot-digits or dot-digits; [NaN] when
    the run starts with a dot that no digit follows *)
Definition parseFloatRun (run : list ascii) : SNum :=
  let int := Js.takeWhile Js.isDigit run in
  let frac :=
    match Js.dropWhile Js.isDigit run with
    | "."%char :: t => Js.takeWhile Js.isDigit t
    | _ => []
    end in
  match int, frac with
  | [], [] => S754_nan
  | _, _ =>
      numOfDecimal (Js.parseDec int * Npos (pow10 (List.length frac)) + Js.parseDec frac)
                   (List.length frac)
  end.

(** [parseValue] of [compareSpacing]; [None] is [null] *)
Definition parseValue (v : SpacingToken) : option SNum :=
  match v with
  | TokNumber x => Some x
  | TokString s =>
      match digitDotRun (list_ascii_of_string s) with
      | [] => None
      | run => Some (parseFloatRun run)
      end
  end.

(** [list.map(parseValue).filter(v => v !== null)] *)
Fixpoint parseScale (l : list SpacingToken) : list SNum :=
  match l with
  | [] => []
  | v :: t =>
      match parseValue v with
      | Some x => x :: parseScale t
      | None => parseScale t
      end
  end.

(** [compareSpacing] from the scales as they are given *)
Definition compareSpacingTokens (projectSpacing scale : list SpacingToken)
  : CategoryResult SNum SNum :=
  compareSpacing (parseScale projectSpacing) (parseScale scale).

(** the three status marks of the score table of [generateReport] *)
Inductive Status := StatusPass | StatusPartial | StatusFail.

(** [score >= 80 ? pass : score >= 50 ? partial : fail] *)
Definition statusOf (score : Z) : Status :=
  if (80 <=? score)%Z then StatusPass
  else if (50 <=? score)%Z then StatusPartial
  else StatusFail.

(** [overallScore] of [generateReport] *)
Definition overallScore (colors typography spacing borderRadius : Z) : Z :=
  mathRound (inject_Z (colors + typography + spacing + borderRadius) / 4).

(** the five recommendation templates, with the values they interpolate *)
Inductive RecKind :=
| RecColors (missingCount : nat)
| RecFonts (missingFonts : list string)
| RecSpacing (firstMissing : list SNum)
| RecRadius (missingRadii : list SNum)
| RecAccessibility (errorCount : nat).

(** one line of the list: the number printed in front and the template *)
Record Recommendation := mkRecommendation {
  rec_number : nat;
  rec_kind : RecKind
}.

Definition isError (i : Issue) : bool :=
  match severity i with SevError => true | SevWarning => false end.

(** [accessibilityAudit?.issues.filter(i => i.severity === 'error').length] *)
Definition errorCount (audit : option Audit) : nat :=
  match audit with
  | Some a => List.length (filter isError (issues a))
  | None => 0
  end.

(** [recommendations.push(...)] with the number [recommendations.length + 1];
    the first template prints the literal 1 *)
Definition pushRec (recs : list Recommendation) (k : RecKind) : list Recommendation :=
  recs ++ [mkRecommendation (List.length recs + 1) k].

(** the list [recommendations] of [generateReport] *)
Definition recommendations
    (colors : CategoryResult string string)
    (typography : MatchedResult (string * string) string)
    (spacing : CategoryResult SNum SNum)
    (borderRadius : MatchedResult SNum SNum)
    (audit : option Audit) : list Recommendation :=
  let recs := [] in
  let recs :=
    if (score colors <? 80)%Z
    then recs ++ [mkRecommendation 1 (RecColors (List.length (missing colors)))]
    else recs in
  let recs :=
    if (m_score typography <? 80)%Z
    then pushRec recs (RecFonts (m_missing typography)) else recs in
  let recs :=
    if (score spacing <? 80)%Z
    then pushRec recs (RecSpacing (firstn 5 (missing spacing))) else recs in
  let recs :=
    if (m_score borderRadius <? 80)%Z
    then pushRec recs (RecRadius (m_missing borderRadius)) else recs in
  if (0 <? errorCount audit)%nat
  then pushRec recs (RecAccessibility (errorCount audit)) else recs.

(** position of a template in the order of the report *)
Definition recPriority (k : RecKind) : nat :=
  match k with
  | RecColors _ => 0
  | RecFonts _ => 1
  | RecSpacing _ => 2
  | RecRadius _ => 3
  | RecAccessibility _ => 4
  end.

(** the project values of a state of the matching loop, list by list *)
Definition placedProjects {V D : Type} (st : MatchState V D) : list V :=
  map fst (st_exact st) ++ map (fun m => fst (fst m)) (st_similar st) ++ st_extra st.

(** the project values of a result, list by list *)
Definition resultProjects {V D : Type} (res : CategoryResult V D) : list V :=
  map fst (exact res) ++ map (fun m => fst (fst m)) (similar res) ++ extra res.

(** every recorded match is justified by the test that recorded it, and no
    reference value equals a project value that was not matched exactly *)
Definition Justified {V D : Type} (strictEq near : V -> V -> bool)
    (dist : V -> V -> D) (refs : list V) (st : MatchState V D) : Prop :=
  (forall p r, In (p, r) (st_exact st) -> In r refs /\ strictEq p r = true) /\
  (forall p r d, In (p, r, d) (st_similar st) ->
     In r refs /\ near p r = true /\ d = dist p r /\
     forall r', In r' refs -> strictEq p r' = false) /\
  (forall p, In p (st_extra st) -> forall r', In r' refs -> strictEq p r' = false).




Definition startsWithDigit (l : list ascii) : bool :=
  match l with c :: _ => Js.isDigit c | [] => false end.

(* ================================================================== *)
(** * Proofs *)

(** ** The string functions on a few inputs *)

Example hexToRgb_short : hexToRgb "#fA0" = Some (mkRgb 255 170 0).
Proof. reflexivity. Qed.

Example hexToRgb_no_hash : hexToRgb "1e293b" = Some (mkRgb 30 41 59).
Proof. reflexivity. Qed.

Example hexToRgb_alpha : hexToRgb "#11223344" = None.
Proof. reflexivity. Qed.

Example normalizeColor_rgba : normalizeColor " RGBA(255, 0,10, 0.5)" = NString "#ff000a".
Proof. reflexivity. Qed.

Example normalizeColor_rgb_overflow : normalizeColor "rgb(300,0,0)" = NString "#12c0000".
Proof. reflexivity. Qed.

Example normalizeColor_alpha : normalizeColor "#11223344" = NString "#112233".
Proof. reflexivity. Qed.

Example normalizeColor_named : normalizeColor "Navy" = NString "#000080".
Proof. reflexivity. Qed.

Example normalizeColor_transparent : normalizeColor "transparent" = NNull.
Proof. reflexivity. Qed.

Example normalizeColor_inherited : normalizeColor "constructor" = NInherited "constructor".
Proof. reflexivity. Qed.

Example compareTypography_inter :
  compareTypography ["Inter"; "Foo Bar"]%string ["inter var"; "Baz"]%string =
  mkMatchedResult [("inter", "inter var")]%string ["baz"%string] ["foo bar"%string] 50.
Proof. reflexivity. Qed.

Example normalizeColor_rgb_after_hash : normalizeColor "#rgb(1,2,3)" = NString "#010203".
Proof. reflexivity. Qed.

(** 4.4 as binary64: the mantissa [0x1199999999999a] at exponent [-50] *)
Example numOfDecimal_4_4 : numOfDecimal 44 1 = S754_finite false 4953959590107546 (-50).
Proof. reflexivity. Qed.

(** an integer literal that binary64 does not hold *)
Example parseValue_rounds :
  parseValue (TokString "9007199254740993px") = Some (numOfZ 9007199254740992).
Proof. vm_compute. reflexivity. Qed.

(** [4.4 - 2.4] is [2.0000000000000004] in binary64, so [4.4px] is not
    close to [2.4px]; [4.4 - 3.3] is recorded as [1.1000000000000005] *)
Example compareSpacing_rounding :
  snumDiff (numOfDecimal 44 1) (numOfDecimal 24 1) =
  S754_finite false 4503599627370497 (-51) /\
  compareSpacingTokens [TokString "4.4px"] [TokString "2.4px"] =
  mkCategoryResult [] [] [numOfDecimal 24 1] [numOfDecimal 44 1] 0 /\
  similar (compareSpacingTokens [TokString "4.4px"] [TokString "3.3px"]) =
  [(numOfDecimal 44 1, numOfDecimal 33 1, S754_finite false 4953959590107548 (-52))].
Proof. repeat split; vm_compute; reflexivity. Qed.

(** ** Parsing of hexadecimal colours *)

Section RealFacts.

Local Open Scope R_scope.

Lemma hexValue_range (c : ascii) : (0 <= Js.hexValue c <= 15)%Z.
Proof.
  unfold Js.hexValue, Js.isDigit.
  repeat match goal with |- context [if ?b then _ else _] => destruct b eqn:? end;
  repeat match goal with
         | H : (_ && _)%bool = true |- _ => apply andb_prop in H; destruct H
         | H : (_ <=? _)%N = true |- _ => apply N.leb_le in H
         end; lia.
Qed.

Lemma hexToRgb_range (hex : string) (rgb : Rgb) :
  hexToRgb hex = Some rgb ->
  (0 <= rgb_r rgb <= 255 /\ 0 <= rgb_g rgb <= 255 /\ 0 <= rgb_b rgb <= 255)%Z.
Proof.
  unfold hexToRgb. destruct hex as [| c0 t0]; [discriminate |].
  set (h := match Js.removeFirst "#" (String c0 t0) with
            | String h0 (String h1 (String h2 EmptyString)) => _
            | _ => _ end).
  clearbody h.
  destruct h as [| c1 [| c2 [| c3 [| c4 [| c5 [| c6 [| ? ?]]]]]]]; try discriminate.
  destruct (forallb _ _); [| discriminate].
  intros Heq.
  assert (Hrgb : rgb = mkRgb (16 * Js.hexValue c1 + Js.hexValue c2)
                         (16 * Js.hexValue c3 + Js.hexValue c4)
                         (16 * Js.hexValue c5 + Js.hexValue c6)) by congruence.
  rewrite Hrgb; cbn [rgb_r rgb_g rgb_b].
  pose proof (hexValue_range c1); pose proof (hexValue_range c2);
  pose proof (hexValue_range c3); pose proof (hexValue_range c4);
  pose proof (hexValue_range c5); pose proof (hexValue_range c6). lia.
Qed.

(** ** Delta E 2000: symmetry *)

Lemma dhpOf_swap (c1 c2 h1 h2 : R) :
  dhpOf c2 c1 h2 h1 = - dhpOf c1 c2 h1 h2.
Proof.
  unfold dhpOf.
  rewrite (Rmult_comm c2 c1), (Rabs_minus_sym h1 h2).
  destruct (Req_EM_T (c1 * c2) 0) as [_ | _]; [ring |].
  destruct (Rle_dec (Rabs (h2 - h1)) 180) as [_ | Hfar]; [ring |].
  assert (Hnot : 180 < Rabs (h2 - h1)) by lra.
  unfold Rabs in Hnot.
  destruct (Rcase_abs (h2 - h1));
    destruct (Rgt_dec (h1 - h2) 180); destruct (Rgt_dec (h2 - h1) 180);
    try lra.
Qed.

Lemma HpOf_swap (c1 c2 h1 h2 : R) :
  HpOf c2 c1 h2 h1 = HpOf c1 c2 h1 h2.
Proof.
  unfold HpOf.
  rewrite (Rmult_comm c2 c1), (Rabs_minus_sym h2 h1), (Rplus_comm h2 h1).
  reflexivity.
Qed.

Lemma deltaE2000_radicand_sym (lab1 lab2 : Lab) :
  deltaE2000_radicand lab1 lab2 = deltaE2000_radicand lab2 lab1.
Proof.
  unfold deltaE2000_radicand; cbv zeta.
  destruct lab1 as [L1 a1 b1], lab2 as [L2 a2 b2]; simpl.
  rewrite (Rplus_comm (sqrt (a2 * a2 + b2 * b2)) (sqrt (a1 * a1 + b1 * b1))).
  set (G := 0.5 * (1 - sqrt _)).
  set (C1p := sqrt (a1 * (1 + G) * (a1 * (1 + G)) + b1 * b1)).
  set (C2p := sqrt (a2 * (1 + G) * (a2 * (1 + G)) + b2 * b2)).
  set (h1 := hueAdj b1 (a1 * (1 + G))).
  set (h2 := hueAdj b2 (a2 * (1 + G))).
  rewrite (dhpOf_swap C1p C2p h1 h2), (HpOf_swap C1p C2p h1 h2).
  rewrite (Rplus_comm C2p C1p), (Rplus_comm L2 L1), (Rmult_comm C2p C1p).
  set (d := dhpOf C1p C2p h1 h2).
  replace (- d * PI / 360) with (- (d * PI / 360)) by (unfold Rdiv; ring).
  rewrite sin_neg.
  unfold Rdiv; ring.
Qed.

(** ** Delta E 2000: the radicand is never negative *)

Lemma RCOf_bounds (Cp : R) : 0 <= Cp -> 0 <= RCOf Cp <= 2.
Proof.
  intros HCp. unfold RCOf.
  assert (H7 : 0 <= Cp ^ 7) by (apply pow_le; exact HCp).
  assert (H25 : 0 < 25 ^ 7) by (apply pow_lt; lra).
  assert (Hq : 0 <= Cp ^ 7 / (Cp ^ 7 + 25 ^ 7) <= 1).
  { split.
    - apply Rmult_le_pos; [exact H7 | left; apply Rinv_0_lt_compat; lra].
    - apply (Rmult_le_reg_r (Cp ^ 7 + 25 ^ 7)); [lra |].
      unfold Rdiv. rewrite Rmult_assoc, Rinv_l by lra. lra. }
  assert (Hs : 0 <= sqrt (Cp ^ 7 / (Cp ^ 7 + 25 ^ 7)) <= 1).
  { split; [apply sqrt_pos |].
    apply Rle_trans with (sqrt 1); [apply sqrt_le_1_alt; tauto |].
    rewrite sqrt_1; lra. }
  lra.
Qed.

Lemma cross_term_nonneg (x y z t : R) :
  -2 <= t <= 2 -> 0 <= x ^ 2 + y ^ 2 + z ^ 2 + t * y * z.
Proof.
  intros Ht.
  assert (Hx : 0 <= x ^ 2) by apply pow2_ge_0.
  destruct (Rle_dec 0 (y * z)) as [Hyz | Hyz].
  - assert (0 <= (y - z) ^ 2) by apply pow2_ge_0. nra.
  - assert (0 <= (y + z) ^ 2) by apply pow2_ge_0. nra.
Qed.

Lemma RT_bounds (u Cp : R) : 0 <= Cp -> -2 <= - sin u * RCOf Cp <= 2.
Proof.
  intros HCp.
  pose proof (RCOf_bounds Cp HCp) as HRC.
  pose proof (SIN_bound u) as Hsin.
  set (s := sin u) in *. set (c := RCOf Cp) in *.
  assert (- c <= s * c <= c) by (split; nra).
  lra.
Qed.

Lemma mean_chroma_nonneg (u v : R) : 0 <= (sqrt u + sqrt v) / 2.
Proof.
  pose proof (sqrt_pos u); pose proof (sqrt_pos v); lra.
Qed.

Lemma deltaE2000_radicand_nonneg (lab1 lab2 : Lab) :
  0 <= deltaE2000_radicand lab1 lab2.
Proof.
  unfold deltaE2000_radicand; cbv zeta.
  apply cross_term_nonneg.
  apply RT_bounds, mean_chroma_nonneg.
Qed.

(** ** Delta E 2000: distance of a colour to itself *)

Lemma dhpOf_same (c h : R) : dhpOf c c h h = 0.
Proof.
  unfold dhpOf.
  destruct (Req_EM_T (c * c) 0); [reflexivity |].
  replace (h - h) with 0 by ring. rewrite Rabs_R0.
  destruct (Rle_dec 0 180); [reflexivity | lra].
Qed.

Lemma deltaE2000_radicand_same (lab : Lab) : deltaE2000_radicand lab lab = 0.
Proof.
  unfold deltaE2000_radicand; cbv zeta.
  rewrite dhpOf_same.
  replace (0 * PI / 360) with 0 by (unfold Rdiv; ring).
  rewrite sin_0. unfold Rdiv; ring.
Qed.

(** ** Delta E 2000 against a colour without chroma *)

Lemma SLOf_ge_1 (Lp : R) : 1 <= SLOf Lp.
Proof.
  unfold SLOf.
  assert (Hsq : 0 <= (Lp - 50) ^ 2) by apply pow2_ge_0.
  assert (Hs : 0 < sqrt (20 + (Lp - 50) ^ 2)) by (apply sqrt_lt_R0; lra).
  assert (0 <= 0.015 * (Lp - 50) ^ 2 / sqrt (20 + (Lp - 50) ^ 2)).
  { apply Rmult_le_pos; [lra | left; apply Rinv_0_lt_compat; exact Hs]. }
  lra.
Qed.

Lemma sq_div_le (x s : R) : 1 <= s -> (x / (1 * s)) ^ 2 <= x ^ 2.
Proof.
  intros Hs.
  replace (x / (1 * s)) with (x * / s) by (field; lra).
  assert (Hi : 0 < / s <= 1).
  { split; [apply Rinv_0_lt_compat; lra |].
    rewrite <- Rinv_1. apply Rinv_le_contravar; lra. }
  assert (Hx : 0 <= x ^ 2) by apply pow2_ge_0.
  replace ((x * / s) ^ 2) with (x ^ 2 * (/ s * / s)) by ring.
  assert (/ s * / s <= 1) by nra.
  nra.
Qed.

Lemma G_bounds (Cab : R) : 0 <= Cab ->
  0 <= 0.5 * (1 - sqrt (Cab ^ 7 / (Cab ^ 7 + 25 ^ 7))) <= 0.5.
Proof.
  intros H. pose proof (RCOf_bounds Cab H) as HRC. unfold RCOf in HRC. lra.
Qed.

Lemma labOfRgb_black : labOfRgb (mkRgb 0 0 0) = mkLab 0 0 0.
Proof.
  unfold labOfRgb; cbv zeta; cbn [rgb_r rgb_g rgb_b].
  unfold labGamma.
  destruct (Rgt_dec (0 / 255) 0.04045) as [H | _]; [lra |].
  unfold labF; cbv zeta.
  repeat match goal with
         | |- context [Rgt_dec ?x ?y] => destruct (Rgt_dec x y) as [H | _]; [lra |]
         end.
  f_equal; lra.
Qed.

(** [toFixed2] on a non-negative number, from the integer of hundredths it
    rounds to *)
Lemma toFixed2_cell (x : R) (n : Z) :
  0 <= x -> (0 <= n)%Z -> IZR n - / 2 <= x * 100 < IZR n + / 2 ->
  toFixed2 x =
  (Js.toDec (Z.to_N n / 100) ++ "." ++
   String (ascii_of_N (48 + (Z.to_N n / 10) mod 10))
          (String (ascii_of_N (48 + Z.to_N n mod 10)) EmptyString))%string.
Proof.
  intros Hx Hn Hcell. unfold toFixed2.
  destruct (Rlt_dec x 0) as [H | _]; [lra |].
  cbv zeta.
  assert (Hi : Int_part (x * 100 + / 2) = n).
  { symmetry. apply Int_part_spec. lra. }
  rewrite Hi. reflexivity.
Qed.

(** with a neutral second colour the hue term vanishes: the radicand is the
    lightness term plus a chroma term that the first colour bounds *)
Lemma deltaE2000_radicand_neutral_bounds (lab1 lab2 : Lab) :
  lab_a lab2 = 0 -> lab_b lab2 = 0 ->
  let lightness := ((lab_L lab2 - lab_L lab1) / SLOf ((lab_L lab1 + lab_L lab2) / 2)) ^ 2 in
  lightness <= deltaE2000_radicand lab1 lab2 <=
  lightness + (1.5 * lab_a lab1) ^ 2 + lab_b lab1 ^ 2.
Proof.
  intros Ha Hb.
  unfold deltaE2000_radicand; cbv zeta. rewrite Ha, Hb.
  replace (0 * 0 + 0 * 0) with 0 by ring. rewrite sqrt_0.
  set (C1 := sqrt (lab_a lab1 * lab_a lab1 + lab_b lab1 * lab_b lab1)).
  assert (HC1 : 0 <= (C1 + 0) / 2).
  { pose proof (sqrt_pos (lab_a lab1 * lab_a lab1 + lab_b lab1 * lab_b lab1)) as H.
    fold C1 in H. lra. }
  pose proof (G_bounds _ HC1) as HG.
  set (G := 0.5 * (1 - sqrt (((C1 + 0) / 2) ^ 7 / (((C1 + 0) / 2) ^ 7 + 25 ^ 7)))) in *.
  replace (0 * (1 + G) * (0 * (1 + G)) + 0 * 0) with 0 by ring. rewrite sqrt_0.
  set (C1p := sqrt (lab_a lab1 * (1 + G) * (lab_a lab1 * (1 + G)) + lab_b lab1 * lab_b lab1)).
  assert (HC1p : 0 <= C1p) by apply sqrt_pos.
  assert (HC1p2 : C1p ^ 2 =
                  lab_a lab1 * (1 + G) * (lab_a lab1 * (1 + G)) + lab_b lab1 * lab_b lab1).
  { unfold C1p. rewrite <- Rsqr_pow2. apply Rsqr_sqrt. nra. }
  unfold dhpOf. rewrite Rmult_0_r.
  destruct (Req_EM_T 0 0) as [_ | Hne]; [| contradiction].
  rewrite sqrt_0.
  replace (2 * 0 * sin (0 * PI / 360)) with 0 by ring.
  match goal with |- context [0 / ?d] =>
    replace (0 / d) with 0 by (unfold Rdiv; ring) end.
  assert (HSC : 1 <= 1 + 0.045 * ((C1p + 0) / 2)) by lra.
  pose proof (sq_div_le (0 - C1p) _ HSC) as H2.
  replace ((0 - C1p) ^ 2) with (C1p ^ 2) in H2 by ring.
  rewrite HC1p2 in H2.
  assert (Ha2 : 0 <= lab_a lab1 * lab_a lab1) by nra.
  assert (HG2 : (1 + G) * (1 + G) <= 2.25) by nra.
  assert (H3 : lab_a lab1 * (1 + G) * (lab_a lab1 * (1 + G)) <= (1.5 * lab_a lab1) ^ 2).
  { replace (lab_a lab1 * (1 + G) * (lab_a lab1 * (1 + G)))
      with (lab_a lab1 * lab_a lab1 * ((1 + G) * (1 + G))) by ring.
    replace ((1.5 * lab_a lab1) ^ 2) with (lab_a lab1 * lab_a lab1 * 2.25) by (simpl; lra).
    apply Rmult_le_compat_l; assumption. }
  assert (H4 : lab_b lab1 * lab_b lab1 = lab_b lab1 ^ 2) by ring.
  replace (1 * SLOf ((lab_L lab1 + lab_L lab2) / 2))
    with (SLOf ((lab_L lab1 + lab_L lab2) / 2)) by ring.
  set (lightness := ((lab_L lab2 - lab_L lab1) / SLOf ((lab_L lab1 + lab_L lab2) / 2)) ^ 2).
  set (chroma := ((0 - C1p) / (1 * (1 + 0.045 * ((C1p + 0) / 2)))) ^ 2) in *.
  assert (Hchroma : 0 <= chroma) by (unfold chroma; apply pow2_ge_0).
  match goal with |- _ <= ?A + ?B + 0 ^ 2 + ?C * 0 <= _ =>
    replace (A + B + 0 ^ 2 + C * 0) with (A + B) by ring end.
  lra.
Qed.

(** the distance that [compareColors] prints as [0.16] *)
Lemma deltaE_010101_black_value :
  exists d, deltaE2000 "#010101" "#000000" = Fin d /\ 0.1569 < d < 0.1573.
Proof.
  unfold deltaE2000.
  change (hexToRgb "#010101") with (Some (mkRgb 1 1 1)).
  change (hexToRgb "#000000") with (Some (mkRgb 0 0 0)).
  cbv zeta. cbn [rgbToLab].
  eexists; split; [reflexivity |].
  unfold deltaE2000_lab. rewrite labOfRgb_black.
  assert (Hlab : let lab := labOfRgb (mkRgb 1 1 1) in
                 0.27417 < lab_L lab < 0.27418 /\
                 -0.00001 < lab_a lab < 0.00001 /\ -0.00001 < lab_b lab < 0.00001).
  { unfold labOfRgb; cbv zeta; cbn [rgb_r rgb_g rgb_b lab_L lab_a lab_b].
    unfold labGamma.
    destruct (Rgt_dec (1 / 255) 0.04045) as [H | _]; [lra |].
    unfold labF; cbv zeta.
    repeat match goal with
           | |- context [Rgt_dec ?x ?y] => destruct (Rgt_dec x y) as [H | _]; [lra |]
           end.
    lra. }
  cbv zeta in Hlab.
  set (lab := labOfRgb (mkRgb 1 1 1)) in *.
  destruct Hlab as (HL & Hla & Hlb).
  pose proof (deltaE2000_radicand_neutral_bounds lab (mkLab 0 0 0) eq_refl eq_refl) as Hb.
  cbv zeta in Hb. cbn [lab_L lab_a lab_b] in Hb.
  (* the lightness weight *)
  set (Lp := (lab_L lab + 0) / 2) in *.
  assert (HLp : 0.137 < Lp < 0.1371) by (unfold Lp; lra).
  assert (HSL : 1.7449 < SLOf Lp < 1.745).
  { unfold SLOf.
    set (u := (Lp - 50) ^ 2).
    assert (Hu : 2486.308 < u < 2486.32) by (unfold u; nra).
    assert (Hs : 50.063 < sqrt (20 + u) < 50.0632).
    { split.
      - replace 50.063 with (sqrt (50.063 * 50.063)) by (apply sqrt_square; lra).
        apply sqrt_lt_1_alt. nra.
      - replace 50.0632 with (sqrt (50.0632 * 50.0632)) by (apply sqrt_square; lra).
        apply sqrt_lt_1_alt. nra. }
    set (r := sqrt (20 + u)) in *.
    assert (Hq : 0.7449 < 0.015 * u / r < 0.745).
    { split.
      - apply (Rmult_lt_reg_r r); [lra |].
        unfold Rdiv. rewrite Rmult_assoc, Rinv_l by lra. nra.
      - apply (Rmult_lt_reg_r r); [lra |].
        unfold Rdiv. rewrite Rmult_assoc, Rinv_l by lra. nra. }
    lra. }
  set (SL := SLOf Lp) in *.
  assert (Hq : 0.15711 < - ((0 - lab_L lab) / SL) < 0.15714).
  { replace (- ((0 - lab_L lab) / SL)) with (lab_L lab / SL) by (field; lra).
    split.
    - apply (Rmult_lt_reg_r SL); [lra |].
      unfold Rdiv. rewrite Rmult_assoc, Rinv_l by lra. nra.
    - apply (Rmult_lt_reg_r SL); [lra |].
      unfold Rdiv. rewrite Rmult_assoc, Rinv_l by lra. nra. }
  set (q := (0 - lab_L lab) / SL) in *.
  split.
  - replace 0.1569 with (sqrt (0.1569 * 0.1569)) by (apply sqrt_square; lra).
    apply sqrt_lt_1_alt. nra.
  - replace 0.1573 with (sqrt (0.1573 * 0.1573)) by (apply sqrt_square; lra).
    apply sqrt_lt_1_alt. split; [apply deltaE2000_radicand_nonneg |]. nra.
Qed.

(** ** WCAG luminance and contrast *)

Lemma wcagGamma_nonneg (c : R) : 0 <= c -> 0 <= wcagGamma c.
Proof.
  intros Hc. unfold wcagGamma.
  destruct (Rle_dec c 0.03928).
  - lra.
  - left. unfold Rpower. apply exp_pos.
Qed.

Lemma getLuminance_nonneg (hex : string) : 0 <= getLuminance hex.
Proof.
  unfold getLuminance.
  destruct (hexToRgb hex) as [rgb |] eqn:Hrgb; [| lra].
  destruct (hexToRgb_range _ _ Hrgb) as (Hr & Hg & Hb).
  assert (Hch : forall z, (0 <= z)%Z -> 0 <= wcagGamma (IZR z / 255)).
  { intros z Hz. apply wcagGamma_nonneg. apply IZR_le in Hz. lra. }
  pose proof (Hch _ (proj1 Hr)); pose proof (Hch _ (proj1 Hg)); pose proof (Hch _ (proj1 Hb)).
  cbv zeta. lra.
Qed.

Lemma Rpower_2_4_pow5 (x : R) : 0 < x -> (Rpower x 2.4) ^ 5 = x ^ 12.
Proof.
  intros Hx.
  rewrite <- (Rpower_pow 5) by (unfold Rpower; apply exp_pos).
  rewrite Rpower_mult.
  replace (2.4 * INR 5) with (INR 12) by (simpl; lra).
  apply Rpower_pow; exact Hx.
Qed.

Lemma pow5_lt_inv (p q : R) : 0 <= p -> 0 <= q -> p ^ 5 < q ^ 5 -> p < q.
Proof.
  intros Hp Hq H.
  destruct (Rlt_dec p q) as [|Hn]; [assumption |].
  exfalso. assert (q ^ 5 <= p ^ 5) by (apply pow_incr; lra). lra.
Qed.

Lemma Rpower_1_l (y : R) : Rpower 1 y = 1.
Proof. unfold Rpower. rewrite ln_1, Rmult_0_r. apply exp_0. Qed.

Lemma gray118_bounds : 0.18103 < gray118 < 0.18153.
Proof.
  assert (Hx : 0 < (118 / 255 + 0.055) / 1.055) by lra.
  pose proof (Rpower_2_4_pow5 _ Hx) as H5. fold gray118 in H5.
  assert (Hpos : 0 < gray118) by (unfold gray118, Rpower; apply exp_pos).
  split; apply pow5_lt_inv; try lra; rewrite ?H5; lra.
Qed.

Lemma getLuminance_white : getLuminance "#ffffff" = 1.
Proof.
  unfold getLuminance. simpl hexToRgb. cbv zeta. cbn [rgb_r rgb_g rgb_b].
  unfold wcagGamma.
  destruct (Rle_dec (255 / 255) 0.03928) as [H | _]; [lra |].
  replace ((255 / 255 + 0.055) / 1.055) with 1 by lra.
  rewrite Rpower_1_l. lra.
Qed.

Lemma getLuminance_767676 : getLuminance "#767676" = gray118.
Proof.
  unfold getLuminance. simpl hexToRgb. cbv zeta. cbn [rgb_r rgb_g rgb_b].
  unfold wcagGamma.
  destruct (Rle_dec (118 / 255) 0.03928) as [H | _]; [lra |].
  fold gray118. lra.
Qed.

Lemma ratio_767676_white :
  4.535 < getContrastRatio "#767676" "#ffffff" < 4.545.
Proof.
  unfold getContrastRatio; cbv zeta.
  rewrite getLuminance_white, getLuminance_767676.
  pose proof gray118_bounds as Hb.
  rewrite Rmax_right, Rmin_left by lra.
  split.
  - apply (Rmult_lt_reg_r (gray118 + 0.05)); [lra |].
    unfold Rdiv. rewrite Rmult_assoc, Rinv_l by lra. lra.
  - apply (Rmult_lt_reg_r (gray118 + 0.05)); [lra |].
    unfold Rdiv. rewrite Rmult_assoc, Rinv_l by lra. lra.
Qed.

(** ** Lab conversion is injective on valid triplets *)

Lemma Rpower_pos (x y : R) : 0 < Rpower x y.
Proof. unfold Rpower. apply exp_pos. Qed.

Lemma Rpower_third_cube (x : R) : 0 < x -> (Rpower x (1 / 3)) ^ 3 = x.
Proof.
  intros Hx.
  rewrite <- (Rpower_pow 3) by apply Rpower_pos.
  rewrite Rpower_mult.
  replace (1 / 3 * INR 3) with 1 by (simpl; lra).
  now apply Rpower_1.
Qed.

Lemma Rpower_2_4_split (x : R) : 0 < x -> Rpower x 2.4 = x ^ 2 * Rpower x 0.4.
Proof.
  intros Hx.
  replace 2.4 with (INR 2 + 0.4) by (simpl; lra).
  rewrite Rpower_plus, Rpower_pow by exact Hx. reflexivity.
Qed.

Lemma Rpower_0_4_pow5 (x : R) : 0 < x -> (Rpower x 0.4) ^ 5 = x ^ 2.
Proof.
  intros Hx.
  rewrite <- (Rpower_pow 5) by apply Rpower_pos.
  rewrite Rpower_mult.
  replace (0.4 * INR 5) with (INR 2) by (simpl; lra).
  now apply Rpower_pow.
Qed.

(** [labF] is injective up to one part in a million: the two branches meet
    with a small jump at [epsilon] *)
Lemma labF_near_injective (u v : R) :
  labF u = labF v -> Rabs (u - v) <= 0.000001.
Proof.
  assert (Hmixed : forall s t, s <= 0.008856 -> 0.008856 < t ->
            (903.3 * s + 16) / 116 = Rpower t (1 / 3) -> Rabs (s - t) <= 0.000001).
  { intros s t Hs Ht Heq.
    assert (Ht0 : 0 < t) by lra.
    pose proof (Rpower_third_cube t Ht0) as Hcube. rewrite <- Heq in Hcube.
    pose proof (Rpower_pos t (1 / 3)) as Hw0. rewrite <- Heq in Hw0.
    remember ((903.3 * s + 16) / 116) as w eqn:Hw.
    assert (Hwmax : w <= 0.2068934) by lra.
    assert (Hwmin : 0.20689 < w).
    { destruct (Rlt_dec 0.20689 w) as [| Hn]; [assumption |].
      exfalso. assert (w ^ 3 <= 0.20689 ^ 3) by (apply pow_incr; lra). lra. }
    assert (Hup : w ^ 3 <= 0.2068934 ^ 3) by (apply pow_incr; lra).
    assert (Hs' : s = (116 * w - 16) / 903.3) by lra.
    unfold Rabs. destruct (Rcase_abs (s - t)); lra. }
  unfold labF; cbv zeta.
  destruct (Rgt_dec u 0.008856) as [Hu | Hu], (Rgt_dec v 0.008856) as [Hv | Hv]; intros Heq.
  - assert (u = v).
    { rewrite <- (Rpower_third_cube u), <- (Rpower_third_cube v) by lra. now rewrite Heq. }
    subst. replace (v - v) with 0 by ring. rewrite Rabs_R0. lra.
  - rewrite Rabs_minus_sym. apply Hmixed; [lra | lra | now symmetry].
  - apply Hmixed; [lra | lra | exact Heq].
  - assert (u = v) by lra.
    subst. replace (v - v) with 0 by ring. rewrite Rabs_R0. lra.
Qed.

(** neighbouring levels of a channel are at least 0.0002 apart after the
    gamma expansion *)
Lemma labGamma_gap (k1 k2 : Z) :
  (0 <= k1)%Z -> (k1 < k2)%Z -> (k2 <= 255)%Z ->
  0.0002 <= labGamma (IZR k2 / 255) - labGamma (IZR k1 / 255).
Proof.
  intros H0 Hlt H255.
  assert (Hstep : IZR k1 + 1 <= IZR k2).
  { rewrite <- plus_IZR. apply IZR_le. lia. }
  assert (Hk1 : 0 <= IZR k1) by (apply IZR_le; lia).
  unfold labGamma.
  destruct (Rgt_dec (IZR k2 / 255) 0.04045) as [Hb2 | Hb2];
    destruct (Rgt_dec (IZR k1 / 255) 0.04045) as [Hb1 | Hb1].
  - (* both on the power branch *)
    set (u := (IZR k1 / 255 + 0.055) / 1.055).
    set (v := (IZR k2 / 255 + 0.055) / 1.055).
    assert (Hk1' : 11 <= IZR k1).
    { apply IZR_le. destruct (Z_lt_le_dec k1 11) as [Hs | Hs]; [| exact Hs].
      exfalso. assert (IZR k1 <= 10) by (apply IZR_le; lia). lra. }
    assert (Hu : 0.093 <= u) by (unfold u; lra).
    assert (Huv : u + 0.0037 <= v) by (unfold u, v; lra).
    rewrite (Rpower_2_4_split u), (Rpower_2_4_split v) by lra.
    assert (Hmono : Rpower u 0.4 <= Rpower v 0.4) by (apply Rle_Rpower_l; lra).
    assert (Hlow : 0.38 <= Rpower u 0.4).
    { destruct (Rle_dec 0.38 (Rpower u 0.4)) as [| Hn]; [assumption |].
      exfalso. pose proof (Rpower_pos u 0.4).
      assert (Hp5 : Rpower u 0.4 ^ 5 <= 0.38 ^ 5) by (apply pow_incr; lra).
      rewrite Rpower_0_4_pow5 in Hp5 by lra.
      assert (0.093 ^ 2 <= u ^ 2) by (apply pow_incr; lra). lra. }
    set (p := Rpower u 0.4) in *. set (q := Rpower v 0.4) in *.
    assert (Hsq : 0.0006 <= v ^ 2 - u ^ 2) by nra.
    assert (u ^ 2 * q >= u ^ 2 * p) by nra.
    assert (0 <= u ^ 2) by nra.
    assert (v ^ 2 * q >= v ^ 2 * p) by nra.
    nra.
  - (* [k1] on the linear branch, [k2] on the power branch *)
    assert (Hk1' : IZR k1 <= 10).
    { apply IZR_le. destruct (Z_lt_le_dec k1 11) as [Hs | Hs]; [lia |].
      exfalso. assert (11 <= IZR k1) by (apply IZR_le; lia). lra. }
    assert (Hk2' : 11 <= IZR k2).
    { apply IZR_le. destruct (Z_lt_le_dec k2 11) as [Hs | Hs]; [| exact Hs].
      exfalso. assert (IZR k2 <= 10) by (apply IZR_le; lia). lra. }
    set (v := (IZR k2 / 255 + 0.055) / 1.055).
    assert (Hv : 0.093 <= v) by (unfold v; lra).
    assert (Hmono : Rpower 0.093 2.4 <= Rpower v 2.4) by (apply Rle_Rpower_l; lra).
    assert (Hlow : 0.0033 <= Rpower 0.093 2.4).
    { destruct (Rle_dec 0.0033 (Rpower 0.093 2.4)) as [| Hn]; [assumption |].
      exfalso. pose proof (Rpower_pos 0.093 2.4).
      assert (Hp5 : Rpower 0.093 2.4 ^ 5 <= 0.0033 ^ 5) by (apply pow_incr; lra).
      rewrite Rpower_2_4_pow5 in Hp5 by lra. lra. }
    lra.
  - lra.
  - lra.
Qed.

Lemma labGamma_level_inj (k1 k2 : Z) :
  (0 <= k1 <= 255)%Z -> (0 <= k2 <= 255)%Z ->
  Rabs (labGamma (IZR k1 / 255) - labGamma (IZR k2 / 255)) < 0.0002 -> k1 = k2.
Proof.
  intros H1 H2 Habs.
  destruct (Z.lt_trichotomy k1 k2) as [Hlt | [Heq | Hgt]]; [| exact Heq |]; exfalso.
  - pose proof (labGamma_gap k1 k2 (proj1 H1) Hlt (proj2 H2)) as Hgap.
    unfold Rabs in Habs. destruct (Rcase_abs _) in Habs; lra.
  - pose proof (labGamma_gap k2 k1 (proj1 H2) Hgt (proj2 H1)) as Hgap.
    unfold Rabs in Habs. destruct (Rcase_abs _) in Habs; lra.
Qed.

Lemma Rabs_le_both (x e : R) : Rabs x <= e -> - e <= x <= e.
Proof. intros H. unfold Rabs in H. destruct (Rcase_abs x); lra. Qed.

Lemma labOfRgb_injective (c1 c2 : Rgb) :
  (0 <= rgb_r c1 <= 255 /\ 0 <= rgb_g c1 <= 255 /\ 0 <= rgb_b c1 <= 255)%Z ->
  (0 <= rgb_r c2 <= 255 /\ 0 <= rgb_g c2 <= 255 /\ 0 <= rgb_b c2 <= 255)%Z ->
  labOfRgb c1 = labOfRgb c2 -> c1 = c2.
Proof.
  intros (Hr1 & Hg1 & Hb1) (Hr2 & Hg2 & Hb2) Heq.
  destruct c1 as [r1 g1 b1], c2 as [r2 g2 b2]. cbn [rgb_r rgb_g rgb_b] in *.
  unfold labOfRgb in Heq; cbv zeta in Heq; cbn [rgb_r rgb_g rgb_b] in Heq.
  set (R1 := labGamma (IZR r1 / 255)) in *. set (G1 := labGamma (IZR g1 / 255)) in *.
  set (B1 := labGamma (IZR b1 / 255)) in *. set (R2 := labGamma (IZR r2 / 255)) in *.
  set (G2 := labGamma (IZR g2 / 255)) in *. set (B2 := labGamma (IZR b2 / 255)) in *.
  injection Heq as HL Ha Hb.
  match type of HL with 116 * labF ?y1 - 16 = 116 * labF ?y2 - 16 =>
    assert (Hy : labF y1 = labF y2) by lra;
    pose proof (Rabs_le_both _ _ (labF_near_injective _ _ Hy)) as Hdy end.
  match type of Ha with 500 * (labF ?x1 - _) = 500 * (labF ?x2 - _) =>
    assert (Hx : labF x1 = labF x2) by lra;
    pose proof (Rabs_le_both _ _ (labF_near_injective _ _ Hx)) as Hdx end.
  match type of Hb with 200 * (_ - labF ?z1) = 200 * (_ - labF ?z2) =>
    assert (Hz : labF z1 = labF z2) by lra;
    pose proof (Rabs_le_both _ _ (labF_near_injective _ _ Hz)) as Hdz end.
  clear HL Ha Hb Hx Hy Hz.
  assert (HdR : Rabs (R1 - R2) < 0.0002).
  { unfold Rabs. destruct (Rcase_abs (R1 - R2)); lra. }
  assert (HdG : Rabs (G1 - G2) < 0.0002).
  { unfold Rabs. destruct (Rcase_abs (G1 - G2)); lra. }
  assert (HdB : Rabs (B1 - B2) < 0.0002).
  { unfold Rabs. destruct (Rcase_abs (B1 - B2)); lra. }
  rewrite (labGamma_level_inj r1 r2 Hr1 Hr2 HdR),
          (labGamma_level_inj g1 g2 Hg1 Hg2 HdG),
          (labGamma_level_inj b1 b2 Hb1 Hb2 HdB).
  reflexivity.
Qed.

(** ** Hue angles *)

Lemma sqrt_1_plus_sq_ratio (a b : R) :
  a <> 0 -> sqrt (1 + (b / a)²) = sqrt (a * a + b * b) / Rabs a.
Proof.
  intros Ha.
  assert (Habs : 0 < Rabs a) by (apply Rabs_pos_lt; exact Ha).
  assert (Hsq : Rabs a * Rabs a = a * a).
  { unfold Rabs. destruct (Rcase_abs a); ring. }
  replace (1 + (b / a)²) with ((a * a + b * b) / (Rabs a * Rabs a)).
  - rewrite sqrt_div_alt by nra. rewrite sqrt_square by lra. reflexivity.
  - rewrite Hsq. unfold Rsqr. field. exact Ha.
Qed.

Lemma atan_polar (a b : R) :
  a <> 0 ->
  sqrt (a * a + b * b) * cos (atan (b / a)) = Rabs a /\
  sqrt (a * a + b * b) * sin (atan (b / a)) = b * (Rabs a / a).
Proof.
  intros Ha.
  assert (Habs : 0 < Rabs a) by (apply Rabs_pos_lt; exact Ha).
  assert (Hn : 0 < sqrt (a * a + b * b)) by (apply sqrt_lt_R0; nra).
  rewrite cos_atan, sin_atan, sqrt_1_plus_sq_ratio by exact Ha.
  split; field; lra.
Qed.

(** polar form of a point through [Math.atan2] *)
Lemma atan2_polar (b a : R) :
  sqrt (a * a + b * b) * cos (atan2 b a) = a /\
  sqrt (a * a + b * b) * sin (atan2 b a) = b.
Proof.
  unfold atan2.
  destruct (Rlt_dec 0 a) as [Hpos | Hnpos].
  - destruct (atan_polar a b) as [Hc Hs]; [lra |].
    rewrite Hc, Hs, Rabs_right by lra. split; [reflexivity | field; lra].
  - destruct (Rlt_dec a 0) as [Hneg | Hnneg].
    + destruct (atan_polar a b) as [Hc Hs]; [lra |].
      rewrite Rabs_left in Hc, Hs by lra.
      destruct (Rle_dec 0 b).
      * rewrite neg_cos, neg_sin. split; [lra |].
        replace (b * (- a / a)) with (- b) in Hs by (field; lra). lra.
      * replace (atan (b / a) - PI) with (- (PI - atan (b / a))) by ring.
        rewrite cos_neg, sin_neg.
        replace (PI - atan (b / a)) with (- atan (b / a) + PI) by ring.
        rewrite neg_cos, neg_sin, cos_neg, sin_neg. split; [lra |].
        replace (b * (- a / a)) with (- b) in Hs by (field; lra). lra.
    + assert (a = 0) by lra. subst a.
      replace (0 * 0 + b * b) with (b * b) by ring.
      destruct (Rlt_dec 0 b); [| destruct (Rlt_dec b 0)].
      * rewrite cos_PI2, sin_PI2, sqrt_square by lra. lra.
      * rewrite cos_neg, sin_neg, cos_PI2, sin_PI2.
        replace (b * b) with (- b * - b) by ring. rewrite sqrt_square by lra. lra.
      * assert (b = 0) by lra. subst b.
        rewrite cos_0, sin_0, Rmult_0_r, sqrt_0. lra.
Qed.

Lemma atan_nonpos (x : R) : x <= 0 -> atan x <= 0.
Proof.
  intros Hx. destruct (Req_dec x 0) as [-> | Hne]; [rewrite atan_0; lra |].
  rewrite <- atan_0. left. apply atan_increasing. lra.
Qed.

Lemma atan_pos (x : R) : 0 < x -> 0 < atan x.
Proof. intros Hx. rewrite <- atan_0. now apply atan_increasing. Qed.

Lemma atan2_range (b a : R) : - PI < atan2 b a <= PI.
Proof.
  pose proof PI_RGT_0 as Hpi.
  unfold atan2.
  destruct (Rlt_dec 0 a) as [Hpos | Hnpos].
  - pose proof (atan_bound (b / a)). lra.
  - destruct (Rlt_dec a 0) as [Hneg | Hnneg].
    + pose proof (atan_bound (b / a)) as Hb.
      assert (Hinv : / a < 0) by (apply Rinv_lt_0_compat; exact Hneg).
      destruct (Rle_dec 0 b) as [Hb0 | Hb0].
      * assert (atan (b / a) <= 0) by (apply atan_nonpos; unfold Rdiv; nra). lra.
      * assert (0 < atan (b / a)) by (apply atan_pos; unfold Rdiv; nra). lra.
    + destruct (Rlt_dec 0 b); [lra |]. destruct (Rlt_dec b 0); lra.
Qed.

Lemma hueAdj_range (b a : R) : 0 <= hueAdj b a < 360.
Proof.
  pose proof PI_RGT_0 as Hpi.
  pose proof (atan2_range b a) as Hr.
  unfold hueAdj; cbv zeta.
  set (t := atan2 b a) in *.
  assert (Hdeg : -180 < t * 180 / PI <= 180).
  { split.
    - apply (Rmult_lt_reg_r PI); [lra |]. unfold Rdiv.
      rewrite Rmult_assoc, Rinv_l by lra. lra.
    - apply (Rmult_le_reg_r PI); [lra |]. unfold Rdiv.
      rewrite Rmult_assoc, Rinv_l by lra. lra. }
  destruct (Rlt_dec (t * 180 / PI) 0); lra.
Qed.

Lemma hueAdj_polar (b a : R) :
  sqrt (a * a + b * b) * cos (hueAdj b a * PI / 180) = a /\
  sqrt (a * a + b * b) * sin (hueAdj b a * PI / 180) = b.
Proof.
  pose proof PI_RGT_0 as Hpi.
  destruct (atan2_polar b a) as [Hc Hs].
  unfold hueAdj; cbv zeta.
  destruct (Rlt_dec (atan2 b a * 180 / PI) 0).
  - replace ((atan2 b a * 180 / PI + 360) * PI / 180) with (atan2 b a + 2 * PI)
      by (field; lra).
    rewrite cos_plus, sin_plus, cos_2PI, sin_2PI. split; lra.
  - replace (atan2 b a * 180 / PI * PI / 180) with (atan2 b a) by (field; lra).
    split; assumption.
Qed.

(** ** Delta E 2000 vanishes only between equal Lab values *)

Lemma cross_term_zero (x y z t : R) :
  -2 < t < 2 -> x ^ 2 + y ^ 2 + z ^ 2 + t * y * z = 0 -> x = 0 /\ y = 0 /\ z = 0.
Proof.
  intros Ht H.
  assert (Hid : y ^ 2 + z ^ 2 + t * y * z =
                (2 + t) / 4 * (y + z) ^ 2 + (2 - t) / 4 * (y - z) ^ 2) by field.
  assert (Hx : 0 <= x ^ 2) by apply pow2_ge_0.
  assert (Hp : 0 <= (y + z) ^ 2) by apply pow2_ge_0.
  assert (Hm : 0 <= (y - z) ^ 2) by apply pow2_ge_0.
  assert (H1 : 0 <= (2 + t) / 4 * (y + z) ^ 2) by (apply Rmult_le_pos; lra).
  assert (H2 : 0 <= (2 - t) / 4 * (y - z) ^ 2) by (apply Rmult_le_pos; lra).
  assert (Hx0 : x ^ 2 = 0) by lra.
  assert (Hp0 : (y + z) ^ 2 = 0) by nra.
  assert (Hm0 : (y - z) ^ 2 = 0) by nra.
  assert (x = 0) by nra. assert (y + z = 0) by nra. assert (y - z = 0) by nra.
  repeat split; lra.
Qed.

Lemma RCOf_lt_2 (Cp : R) : 0 <= Cp -> 0 <= RCOf Cp < 2.
Proof.
  intros HCp. unfold RCOf.
  assert (H7 : 0 <= Cp ^ 7) by (apply pow_le; exact HCp).
  assert (H25 : 0 < 25 ^ 7) by (apply pow_lt; lra).
  assert (Hq : 0 <= Cp ^ 7 / (Cp ^ 7 + 25 ^ 7) < 1).
  { split.
    - apply Rmult_le_pos; [exact H7 | left; apply Rinv_0_lt_compat; lra].
    - apply (Rmult_lt_reg_r (Cp ^ 7 + 25 ^ 7)); [lra |].
      unfold Rdiv. rewrite Rmult_assoc, Rinv_l by lra. lra. }
  assert (Hs : 0 <= sqrt (Cp ^ 7 / (Cp ^ 7 + 25 ^ 7)) < 1).
  { split; [apply sqrt_pos |].
    rewrite <- sqrt_1. apply sqrt_lt_1_alt. exact Hq. }
  lra.
Qed.

Lemma RT_strict_bounds (u Cp : R) : 0 <= Cp -> -2 < - sin u * RCOf Cp < 2.
Proof.
  intros HCp.
  pose proof (RCOf_lt_2 Cp HCp) as HRC.
  pose proof (SIN_bound u) as Hsin.
  set (s := sin u) in *. set (c := RCOf Cp) in *.
  assert (- c <= s * c <= c) by (split; nra).
  lra.
Qed.

Lemma TOf_lower (Hp : R) : 0.07 <= TOf Hp.
Proof.
  unfold TOf.
  pose proof (COS_bound ((Hp - 30) * PI / 180)).
  pose proof (COS_bound (2 * Hp * PI / 180)).
  pose proof (COS_bound ((3 * Hp + 6) * PI / 180)).
  pose proof (COS_bound ((4 * Hp - 63) * PI / 180)).
  lra.
Qed.

Lemma div_by_ge_1_zero (x s : R) : 1 <= s -> x / (1 * s) = 0 -> x = 0.
Proof.
  intros Hs H.
  replace x with (x / (1 * s) * s) by (field; lra). rewrite H. ring.
Qed.

Lemma sin_half_turn_zero (d : R) : -180 <= d <= 180 -> sin (d * PI / 360) = 0 -> d = 0.
Proof.
  intros Hd Hsin. pose proof PI_RGT_0 as Hpi.
  destruct (Rtotal_order d 0) as [Hneg | [Hz | Hpos]]; [| exact Hz |]; exfalso.
  - assert (sin (d * PI / 360) < 0).
    { apply sin_lt_0_var; unfold Rdiv; nra. }
    lra.
  - assert (0 < sin (d * PI / 360)).
    { apply sin_gt_0; unfold Rdiv; nra. }
    lra.
Qed.

(** a vanishing hue term forces equal hues when both chromas are positive *)
Lemma dhp_zero_hues (C1p C2p h1 h2 : R) :
  0 <= h1 < 360 -> 0 <= h2 < 360 -> C1p * C2p <> 0 ->
  sin (dhpOf C1p C2p h1 h2 * PI / 360) = 0 -> h1 = h2.
Proof.
  intros H1 H2 Hne. unfold dhpOf.
  destruct (Req_EM_T (C1p * C2p) 0) as [He | _]; [contradiction |].
  destruct (Rle_dec (Rabs (h2 - h1)) 180) as [Hab | Hab].
  - intros Hs. apply sin_half_turn_zero in Hs; [lra |].
    unfold Rabs in Hab. destruct (Rcase_abs (h2 - h1)); lra.
  - destruct (Rgt_dec (h2 - h1) 180) as [Hgt | Hngt]; intros Hs;
      apply sin_half_turn_zero in Hs; try lra.
    unfold Rabs in Hab. destruct (Rcase_abs (h2 - h1)); lra.
Qed.

Lemma sqrt_sum_sq_zero (a b : R) : sqrt (a * a + b * b) = 0 -> a = 0 /\ b = 0.
Proof.
  intros H. apply sqrt_eq_0 in H; [| nra]. split; nra.
Qed.

Lemma deltaE2000_radicand_zero (lab1 lab2 : Lab) :
  deltaE2000_radicand lab1 lab2 = 0 -> lab1 = lab2.
Proof.
  destruct lab1 as [L1 a1 b1], lab2 as [L2 a2 b2].
  unfold deltaE2000_radicand; cbv zeta; cbn [lab_L lab_a lab_b].
  set (C1 := sqrt (a1 * a1 + b1 * b1)). set (C2 := sqrt (a2 * a2 + b2 * b2)).
  assert (HCab : 0 <= (C1 + C2) / 2) by apply mean_chroma_nonneg.
  pose proof (G_bounds _ HCab) as HG.
  set (G := 0.5 * (1 - sqrt (((C1 + C2) / 2) ^ 7 / (((C1 + C2) / 2) ^ 7 + 25 ^ 7)))) in *.
  set (a1p := a1 * (1 + G)). set (a2p := a2 * (1 + G)).
  set (C1p := sqrt (a1p * a1p + b1 * b1)). set (C2p := sqrt (a2p * a2p + b2 * b2)).
  set (h1 := hueAdj b1 a1p). set (h2 := hueAdj b2 a2p).
  assert (HC1p : 0 <= C1p) by apply sqrt_pos.
  assert (HC2p : 0 <= C2p) by apply sqrt_pos.
  assert (HCp : 0 <= (C1p + C2p) / 2) by lra.
  set (Hp := HpOf C1p C2p h1 h2).
  intros Hzero.
  apply cross_term_zero in Hzero; [| apply RT_strict_bounds; exact HCp].
  destruct Hzero as (HX & HY & HZ).
  apply div_by_ge_1_zero in HX; [| apply SLOf_ge_1].
  apply div_by_ge_1_zero in HY; [| lra].
  apply div_by_ge_1_zero in HZ; [| pose proof (TOf_lower Hp); nra].
  assert (HCeq : C1p = C2p) by lra.
  assert (Hab : a1p = a2p /\ b1 = b2).
  { destruct (Req_dec (C1p * C2p) 0) as [Hprod | Hprod].
    - assert (C1p = 0) by nra. assert (C2p = 0) by lra.
      destruct (sqrt_sum_sq_zero a1p b1) as [? ?]; [assumption |].
      destruct (sqrt_sum_sq_zero a2p b2) as [? ?]; [assumption |].
      split; lra.
    - assert (Hroot : 0 < sqrt (C1p * C2p)) by (apply sqrt_lt_R0; nra).
      assert (Hsin : sin (dhpOf C1p C2p h1 h2 * PI / 360) = 0) by nra.
      apply dhp_zero_hues in Hsin;
        [| apply hueAdj_range | apply hueAdj_range | exact Hprod].
      destruct (hueAdj_polar b1 a1p) as [Hc1 Hs1].
      destruct (hueAdj_polar b2 a2p) as [Hc2 Hs2].
      fold C1p h1 in Hc1, Hs1. fold C2p h2 in Hc2, Hs2.
      rewrite <- Hsin, <- HCeq in Hc2, Hs2. split; lra. }
  destruct Hab as [Hap Hb]. unfold a1p, a2p in Hap.
  assert (a1 = a2) by nra.
  f_equal; lra.
Qed.

End RealFacts.

(* ================================================================== *)
(** ** The matching loop *)

Section MatcherFacts.

Variables V D : Type.
Variable strictEq : V -> V -> bool.
Variable near : V -> V -> bool.
Variable dist : V -> V -> D.
Variable sameValue : V -> V -> bool.

Hypothesis sameValue_sym : forall x y, sameValue x y = sameValue y x.
Hypothesis sameValue_trans :
  forall x y z, sameValue x y = true -> sameValue y z = true -> sameValue x z = true.

Local Abbreviation State := (MatchState V D).
Local Abbreviation step := (matchOne strictEq near dist sameValue).
Local Abbreviation has := (setHas sameValue).
Local Abbreviation add := (setAdd sameValue).

Lemma has_add (s : list V) (v ref : V) :
  has (add s v) ref = has s ref || sameValue ref v.
Proof.
  unfold setAdd. destruct (has s v) eqn:Hv.
  - destruct (sameValue ref v) eqn:Hrv; [| now rewrite orb_false_r].
    rewrite orb_true_r. unfold setHas in *.
    apply existsb_exists in Hv. destruct Hv as (y & Hy & Hvy).
    apply existsb_exists. exists y. split; [exact Hy |].
    now apply sameValue_trans with v.
  - unfold setHas. rewrite existsb_app. simpl. now rewrite orb_false_r.
Qed.

Lemma existsb_snoc (f : V -> bool) (l : list V) (x : V) :
  existsb f (l ++ [x]) = existsb f l || f x.
Proof. rewrite existsb_app. simpl. now rewrite orb_false_r. Qed.

Lemma distinctb_snoc (l : list V) (x : V) :
  distinctb sameValue l = true ->
  existsb (sameValue x) l = false ->
  distinctb sameValue (l ++ [x]) = true.
Proof.
  induction l as [| y t IH]; simpl; intros Hd Hx; [reflexivity |].
  apply andb_true_iff in Hd. destruct Hd as [Hy Ht].
  apply orb_false_iff in Hx. destruct Hx as [Hxy Hxt].
  rewrite existsb_snoc, (sameValue_sym y x), Hxy, orb_false_r, Hy.
  simpl. now apply IH.
Qed.

Lemma existsb_claimed_split (st : State) (ref : V) :
  existsb (sameValue ref) (claimedRefs st) =
  existsb (sameValue ref) (map snd (st_exact st)) ||
  existsb (sameValue ref) (map refOfSimilar (st_similar st)).
Proof. unfold claimedRefs. now rewrite existsb_app. Qed.

(** what one iteration records, with the claimed set read off the matches *)
Lemma matchOne_cases (refs : list V) (st : State) (proj : V) :
  Consistent sameValue st ->
  let st' := step refs st proj in
  let claimed := fun ref => existsb (sameValue ref) (claimedRefs st) in
  match find (fun ref => strictEq proj ref) refs with
  | Some _ =>
      (exists ref, In ref refs /\ strictEq proj ref = true /\
                   st_exact st' = st_exact st ++ [(proj, ref)]) /\
      st_similar st' = st_similar st /\ st_extra st' = st_extra st
  | None =>
      match find (fun ref => negb (claimed ref) && near proj ref) refs with
      | Some ref =>
          st_similar st' = st_similar st ++ [(proj, ref, dist proj ref)] /\
          claimed ref = false /\
          st_exact st' = st_exact st /\ st_extra st' = st_extra st
      | None =>
          st_extra st' = st_extra st ++ [proj] /\
          st_exact st' = st_exact st /\ st_similar st' = st_similar st
      end
  end.
Proof.
  intros Hc st' claimed. subst st'. unfold matchOne.
  destruct (find (fun ref => strictEq proj ref) refs) as [ref |] eqn:Hex.
  { cbn. apply find_some in Hex. split; [exists ref |]; tauto. }
  assert (Hfun : find (fun ref => negb (has (st_matchedRef st) ref) && near proj ref) refs =
                 find (fun ref => negb (claimed ref) && near proj ref) refs).
  { clear -Hc. induction refs as [| r t IH]; [reflexivity |]. simpl.
    unfold claimed. rewrite <- (Hc r). now rewrite IH. }
  rewrite Hfun.
  destruct (find (fun ref => negb (claimed ref) && near proj ref) refs) as [ref |] eqn:Hf;
    cbn; [| tauto].
  apply find_some in Hf. destruct Hf as [_ Hf].
  apply andb_true_iff in Hf. destruct Hf as [Hf _].
  apply negb_true_iff in Hf. tauto.
Qed.

Lemma matchInit_consistent : Consistent sameValue (@matchInit V D).
Proof. intros ref. reflexivity. Qed.

Lemma matchOne_consistent (refs : list V) (st : State) (proj : V) :
  Consistent sameValue st -> Consistent sameValue (step refs st proj).
Proof.
  intros Hc ref. unfold matchOne.
  destruct (find (fun r => strictEq proj r) refs) as [r |].
  - cbn [st_matchedRef]. rewrite has_add, (Hc ref), !existsb_claimed_split.
    cbn [st_exact st_similar]. rewrite map_app. cbn [map snd].
    rewrite existsb_snoc.
    destruct (existsb (sameValue ref) (map snd (st_exact st)));
      destruct (existsb (sameValue ref) (map refOfSimilar (st_similar st)));
      destruct (sameValue ref r); reflexivity.
  - destruct (find _ refs) as [r |].
    + cbn [st_matchedRef]. rewrite has_add, (Hc ref), !existsb_claimed_split.
      cbn [st_exact st_similar]. rewrite map_app.
      cbn [map refOfSimilar fst snd]. rewrite existsb_snoc.
      now rewrite orb_assoc.
    + exact (Hc ref).
Qed.

Lemma matchOne_similar_distinct (refs : list V) (st : State) (proj : V) :
  Consistent sameValue st ->
  distinctb sameValue (map refOfSimilar (st_similar st)) = true ->
  distinctb sameValue (map refOfSimilar (st_similar (step refs st proj))) = true.
Proof.
  intros Hc Hd. unfold matchOne.
  destruct (find (fun r => strictEq proj r) refs) as [r |]; [exact Hd |].
  destruct (find _ refs) as [r |] eqn:Hf; [| exact Hd].
  cbn [st_similar]. rewrite map_app. cbn [map refOfSimilar fst snd].
  apply distinctb_snoc; [exact Hd |].
  apply find_some in Hf. destruct Hf as [_ Hf].
  apply andb_true_iff in Hf. destruct Hf as [Hf _].
  apply negb_true_iff in Hf. rewrite (Hc r), existsb_claimed_split in Hf.
  apply orb_false_iff in Hf. tauto.
Qed.

Lemma matchOne_lengths (refs : list V) (st : State) (proj : V) :
  (List.length (st_exact (step refs st proj)) +
   List.length (st_similar (step refs st proj)) +
   List.length (st_extra (step refs st proj)) =
   S (List.length (st_exact st) + List.length (st_similar st) + List.length (st_extra st)))%nat.
Proof.
  unfold matchOne.
  destruct (find (fun r => strictEq proj r) refs) as [r |];
    [| destruct (find _ refs) as [r |]];
    cbn [st_exact st_similar st_extra]; rewrite length_app; simpl; lia.
Qed.

(** invariants of the loop, from any start state *)
Lemma fold_matchOne_invariants (refs projs : list V) (st : State) :
  Consistent sameValue st ->
  distinctb sameValue (map refOfSimilar (st_similar st)) = true ->
  let st' := fold_left (step refs) projs st in
  Consistent sameValue st' /\
  distinctb sameValue (map refOfSimilar (st_similar st')) = true /\
  (List.length (st_exact st') + List.length (st_similar st') + List.length (st_extra st') =
   List.length projs +
   (List.length (st_exact st) + List.length (st_similar st) + List.length (st_extra st)))%nat.
Proof.
  revert st. induction projs as [| p t IH]; intros st Hc Hd; cbn [fold_left].
  - repeat split; assumption || reflexivity.
  - destruct (IH (step refs st p)) as (Hc' & Hd' & Hl').
    + now apply matchOne_consistent.
    + now apply matchOne_similar_distinct.
    + repeat split; try assumption.
      rewrite Hl', matchOne_lengths. simpl. lia.
Qed.

Lemma matchAll_invariants (refs projs : list V) :
  let st := matchAll strictEq near dist sameValue refs projs in
  Consistent sameValue st /\
  distinctb sameValue (map refOfSimilar (st_similar st)) = true /\
  (List.length (st_exact st) + List.length (st_similar st) + List.length (st_extra st) =
   List.length projs)%nat.
Proof.
  destruct (fold_matchOne_invariants refs projs matchInit matchInit_consistent eq_refl)
    as (Hc & Hd & Hl).
  repeat split; try assumption.
  unfold matchAll. rewrite Hl. simpl. lia.
Qed.

Lemma matchAll_single_pass :
  SinglePassFirstFit (matchAll strictEq near dist sameValue) strictEq near dist sameValue.
Proof.
  intros refs done proj st st' claimed.
  destruct (matchAll_invariants refs done) as (Hc & _ & _). fold st in Hc.
  destruct (matchAll_invariants refs (done ++ [proj])) as (_ & Hd & _). fold st' in Hd.
  split; [exact Hc |]. split.
  { unfold missingOf. apply filter_ext. intros ref. now rewrite (Hc ref). }
  split; [exact Hd |].
  assert (Hstep : st' = step refs st proj).
  { unfold st', st, matchAll. now rewrite fold_left_app. }
  rewrite Hstep. exact (matchOne_cases refs st proj Hc).
Qed.

End MatcherFacts.

(* ================================================================== *)
(** ** Scores *)

Lemma mathRound_bounds (q : Q) :
  (0 <= q)%Q -> (0 <= mathRound q)%Z /\ ((q <= 100)%Q -> (mathRound q <= 100)%Z).
Proof.
  intros Hq. unfold mathRound. split.
  - change 0%Z with (Qfloor 0). apply Qfloor_resp_le. lra.
  - intros Hle. change 100%Z with (Qfloor (201 # 2)). apply Qfloor_resp_le. lra.
Qed.

Lemma lengthOr1_pos {A : Type} (l : list A) :
  (1 <= lengthOr1 l)%Z /\ (Z.of_nat (List.length l) <= lengthOr1 l)%Z.
Proof. destruct l; simpl; lia. Qed.

Lemma ratio_bounds (a : Q) (total : Z) :
  (0 <= a)%Q -> (1 <= total)%Z ->
  (0 <= a / inject_Z total * 100)%Q /\
  ((a <= inject_Z total)%Q -> (a / inject_Z total * 100 <= 100)%Q).
Proof.
  intros Ha Ht.
  assert (Hpos : (0 < inject_Z total)%Q).
  { change 0%Q with (inject_Z 0). rewrite <- Zlt_Qlt. lia. }
  split.
  - apply Qmult_le_0_compat; [| lra].
    apply Qle_shift_div_l; [exact Hpos | lra].
  - intros Hle.
    assert (a / inject_Z total <= 1)%Q by (apply Qle_shift_div_r; [exact Hpos | lra]).
    lra.
Qed.

Lemma scoreOf_bounds (e s : nat) (w : Q) (total : Z) :
  (0 <= w <= 1)%Q -> (1 <= total)%Z ->
  (0 <= scoreOf (inject_Z (Z.of_nat e)) (inject_Z (Z.of_nat s)) w total)%Z /\
  ((Z.of_nat (e + s) <= total)%Z ->
   (scoreOf (inject_Z (Z.of_nat e)) (inject_Z (Z.of_nat s)) w total <= 100)%Z).
Proof.
  intros Hw Ht. unfold scoreOf.
  assert (He : (0 <= inject_Z (Z.of_nat e))%Q).
  { change 0%Q with (inject_Z 0). rewrite <- Zle_Qle. lia. }
  assert (Hs : (0 <= inject_Z (Z.of_nat s))%Q).
  { change 0%Q with (inject_Z 0). rewrite <- Zle_Qle. lia. }
  assert (Hsw : (0 <= inject_Z (Z.of_nat s) * w <= inject_Z (Z.of_nat s))%Q).
  { split; [apply Qmult_le_0_compat; tauto |].
    destruct Hw as [Hw0 Hw1]. nra. }
  set (a := (inject_Z (Z.of_nat e) + inject_Z (Z.of_nat s) * w)%Q).
  assert (Ha : (0 <= a)%Q) by (unfold a; lra).
  destruct (ratio_bounds a total Ha Ht) as [H0 H100].
  destruct (mathRound_bounds _ H0) as [R0 R100].
  split; [exact R0 |].
  intros Hsum. apply R100, H100.
  assert (inject_Z (Z.of_nat (e + s)) <= inject_Z total)%Q by (rewrite <- Zle_Qle; exact Hsum).
  rewrite Nat2Z.inj_add, inject_Z_plus in H. unfold a. lra.
Qed.

Lemma matched_score_bounds (m : nat) (total : Z) :
  (1 <= total)%Z ->
  (0 <= mathRound (inject_Z (Z.of_nat m) / inject_Z total * 100))%Z /\
  ((Z.of_nat m <= total)%Z ->
   (mathRound (inject_Z (Z.of_nat m) / inject_Z total * 100) <= 100)%Z).
Proof.
  intros Ht.
  assert (Hm : (0 <= inject_Z (Z.of_nat m))%Q).
  { change 0%Q with (inject_Z 0). rewrite <- Zle_Qle. lia. }
  destruct (ratio_bounds _ total Hm Ht) as [H0 H100].
  destruct (mathRound_bounds _ H0) as [R0 R100].
  split; [exact R0 |].
  intros Hle. apply R100, H100. now rewrite <- Zle_Qle.
Qed.

Lemma typography_fold_length (refFonts projFonts : list string)
      (acc : list (string * string) * list string) :
  (List.length (fst (fold_left
     (fun (acc : list (string * string) * list string) (proj : string) =>
        match find (fontMatches proj) refFonts with
        | Some m => if truthy m then (fst acc ++ [(proj, m)], snd acc)
                    else (fst acc, snd acc ++ [proj])
        | None => (fst acc, snd acc ++ [proj])
        end) projFonts acc))
   <= List.length projFonts + List.length (fst acc))%nat.
Proof.
  revert acc. induction projFonts as [| p t IH]; intros acc; cbn [fold_left]; [simpl; lia |].
  etransitivity; [apply IH |].
  destruct (find (fontMatches p) refFonts) as [m |]; [destruct (truthy m) |];
    cbn [fst]; rewrite ?length_app; simpl; lia.
Qed.

Lemma string_eqb_trans (x y z : string) :
  String.eqb x y = true -> String.eqb y z = true -> String.eqb x z = true.
Proof. rewrite !String.eqb_eq. congruence. Qed.

(** ** Equality of binary64 numbers *)

(** two numbers are [===] exactly when both are zeros, or they are the same
    number and not [NaN] *)
Lemma SFeqb_true_iff (x y : spec_float) :
  SFeqb x y = true <->
  match x, y with
  | S754_zero _, S754_zero _ => True
  | S754_nan, _ | _, S754_nan => False
  | _, _ => x = y
  end.
Proof.
  unfold SFeqb.
  destruct x as [sx | sx | | sx mx ex], y as [sy | sy | | sy my ey]; cbn [SFcompare];
    try destruct sx; try destruct sy;
    try (split; intros H; first [exact I | reflexivity | discriminate H | contradiction]).
  - change (Pos.compare_cont Eq mx my) with (Pos.compare mx my).
    destruct (Z.compare ex ey) eqn:He.
    + apply Z.compare_eq in He. subst ey.
      destruct (Pos.compare mx my) eqn:Hm.
      * apply Pos.compare_eq in Hm. subst my. tauto.
      * split; [discriminate |]. intros [= ->]. rewrite Pos.compare_refl in Hm. discriminate.
      * split; [discriminate |]. intros [= ->]. rewrite Pos.compare_refl in Hm. discriminate.
    + split; [discriminate |]. intros [= _ ->]. rewrite Z.compare_refl in He. discriminate.
    + split; [discriminate |]. intros [= _ ->]. rewrite Z.compare_refl in He. discriminate.
  - change (Pos.compare_cont Eq mx my) with (Pos.compare mx my).
    destruct (Z.compare ex ey) eqn:He.
    + apply Z.compare_eq in He. subst ey.
      destruct (Pos.compare mx my) eqn:Hm.
      * apply Pos.compare_eq in Hm. subst my. tauto.
      * split; [discriminate |]. intros [= ->]. rewrite Pos.compare_refl in Hm. discriminate.
      * split; [discriminate |]. intros [= ->]. rewrite Pos.compare_refl in Hm. discriminate.
    + split; [discriminate |]. intros [= _ ->]. rewrite Z.compare_refl in He. discriminate.
    + split; [discriminate |]. intros [= _ ->]. rewrite Z.compare_refl in He. discriminate.
Qed.

Lemma SFeqb_refl (x : spec_float) : x <> S754_nan -> SFeqb x x = true.
Proof.
  intros Hx. apply SFeqb_true_iff. destruct x; try exact I; try reflexivity.
  now contradiction Hx.
Qed.

Lemma SFeqb_sym (x y : spec_float) : SFeqb x y = SFeqb y x.
Proof.
  destruct (SFeqb x y) eqn:H1, (SFeqb y x) eqn:H2; try reflexivity.
  - apply SFeqb_true_iff in H1.
    assert (H : SFeqb y x = true).
    { apply SFeqb_true_iff. destruct x, y; try exact I; try contradiction; now symmetry. }
    congruence.
  - apply SFeqb_true_iff in H2.
    assert (H : SFeqb x y = true).
    { apply SFeqb_true_iff. destruct x, y; try exact I; try contradiction; now symmetry. }
    congruence.
Qed.

Lemma SFeqb_trans (x y z : spec_float) :
  SFeqb x y = true -> SFeqb y z = true -> SFeqb x z = true.
Proof.
  rewrite !SFeqb_true_iff.
  destruct x, y, z; try tauto; try discriminate; try congruence.
Qed.

Lemma snumSameValue_sym (x y : SNum) : snumSameValue x y = snumSameValue y x.
Proof.
  unfold snumSameValue.
  destruct x, y; try reflexivity; apply SFeqb_sym.
Qed.

Lemma snumSameValue_trans (x y z : SNum) :
  snumSameValue x y = true -> snumSameValue y z = true -> snumSameValue x z = true.
Proof.
  unfold snumSameValue.
  destruct x, y, z; try (intros; reflexivity); try (intros H; discriminate H);
    try (intros _ H; discriminate H); try apply SFeqb_trans.
Qed.

(** The conversion of decimal numerals, checked against its description
    on the numerals of up to three digits with up to two of them behind
    the dot. *)
Lemma numOfDecimal_nearest_checked :
  forall (n : N) (k : nat), (n < 1000)%N -> (k <= 2)%nat ->
    nearestBinary64 (numOfDecimal n k) (Z.of_N n # pow10 k) = true.
Proof.
  assert (H : forallb (fun k => forallb (fun n =>
                nearestBinary64 (numOfDecimal (N.of_nat n) k)
                                (Z.of_N (N.of_nat n) # pow10 k))
                (seq 0 (N.to_nat 1000))) (seq 0 3) = true) by (vm_compute; reflexivity).
  intros n k Hn Hk. rewrite forallb_forall in H.
  specialize (H k). rewrite forallb_forall in H.
  rewrite <- (N2Nat.id n). apply H; apply in_seq; lia.
Qed.

(** the closeness test holds between finite numbers only *)
Lemma snumNear_finite (x y : SNum) :
  snumNear x y = true -> snumIsFinite x = true /\ snumIsFinite y = true.
Proof.
  unfold snumNear, snumDiff.
  destruct x as [sx | sx | | sx mx ex], y as [sy | sy | | sy my ey];
    try (intros _; split; reflexivity);
    cbn [SFsub SFabs]; try (intros H; discriminate H).
  - destruct sx, sy; intros H; discriminate H.
Qed.

(** every value of the table of names is a colour that [hexToRgb] accepts *)
Lemma named_values_parse (k v : string) :
  namedOwn named k = Some (Some v) -> String.length v = 7%nat /\ hexToRgb v <> None.
Proof.
  unfold named. cbn [namedOwn].
  repeat (match goal with
          | |- (if String.eqb k ?s then _ else _) = _ -> _ => destruct (String.eqb k s)
          end;
          [intros H;
           first [discriminate H
                 | injection H as <-;
                   split; [reflexivity | vm_compute; intros H'; discriminate H']] |]).
  intros H; discriminate H.
Qed.

(* ================================================================== *)
(** * The claims *)

(** C1, as amended.  In both domains the matching is one pass over the
    project values in order.  A project value that equals some reference
    value is recorded as an exact match; only when there is none is the
    closeness test tried, against the reference values that no earlier
    match, exact or close, refers to, and its first hit is recorded;
    otherwise the value is extra.  The claimed set is at every moment the
    set of references of the recorded matches, so a reference value once
    claimed is never taken by a later closeness match: the references of
    the closeness matches are pairwise different.  The missing list is the
    list of reference values no match refers to. *)
Theorem matching_single_pass_first_fit :
  SinglePassFirstFit colorLoop colorExact colorNear colorDist String.eqb /\
  SinglePassFirstFit spacingLoop snumStrictEq snumNear snumDiff snumSameValue /\
  (forall projectColors referenceColors,
     let st := colorLoop (allRefColors referenceColors)
                         (filter truthy (map snd projectColors)) in
     let res := compareColors projectColors referenceColors in
     exact res = st_exact st /\ similar res = st_similar st /\
     extra res = st_extra st /\
     missing res = missingOf String.eqb (allRefColors referenceColors) st) /\
  (forall projScale refScale,
     let st := spacingLoop refScale projScale in
     let res := compareSpacing projScale refScale in
     exact res = st_exact st /\ similar res = st_similar st /\
     extra res = st_extra st /\
     missing res = missingOf snumSameValue refScale st).
Proof.
  split; [| split; [| split]].
  - apply matchAll_single_pass; [exact String.eqb_sym | exact string_eqb_trans].
  - apply matchAll_single_pass; [exact snumSameValue_sym | exact snumSameValue_trans].
  - intros; repeat split.
  - intros; repeat split.
Qed.

(** C1 fails as stated: with the spacing scale [3, 4] against [4] the value
    3 claims the reference 4 as a close match and the later value 4 claims
    it again as an exact match; the two-pass matching of the description
    yields no close match and reports 3 as extra. *)
Lemma matching_reclaims_reference :
  let projScale := [numOfZ 3; numOfZ 4] in
  let refScale := [numOfZ 4] in
  let res := compareSpacing projScale refScale in
  let spec := specMatchSets snumStrictEq snumNear snumDiff snumSameValue refScale projScale in
  similar res = [(numOfZ 3, numOfZ 4, numOfZ 1)] /\
  exact res = [(numOfZ 4, numOfZ 4)] /\
  distinctb snumSameValue (map snd (exact res) ++ map refOfSimilar (similar res)) = false /\
  similar res <> st_similar spec /\
  extra res <> st_extra spec.
Proof.
  cbv zeta. repeat split; try reflexivity; vm_compute; discriminate.
Qed.

(** In each of the four categories the score is a non-negative integer,
    and it is at most 100 whenever the project list that is compared has no
    more entries than the reference list. *)
Theorem scores_nonnegative_bounded_by_sizes :
  (forall projectColors referenceColors,
     let res := compareColors projectColors referenceColors in
     (0 <= score res)%Z /\
     ((List.length (filter truthy (map snd projectColors))
       <= List.length (allRefColors referenceColors))%nat -> (score res <= 100)%Z)) /\
  (forall projectFonts fontFamilies,
     let res := compareTypography projectFonts fontFamilies in
     (0 <= m_score res)%Z /\
     ((List.length projectFonts <= List.length fontFamilies)%nat -> (m_score res <= 100)%Z)) /\
  (forall projScale refScale,
     let res := compareSpacing projScale refScale in
     (0 <= score res)%Z /\
     ((List.length projScale <= List.length refScale)%nat -> (score res <= 100)%Z)) /\
  (forall projValues refValues,
     let res := compareBorderRadius projValues refValues in
     (0 <= m_score res)%Z /\
     ((List.length projValues <= List.length refValues)%nat -> (m_score res <= 100)%Z)).
Proof.
  split; [| split; [| split]].
  - intros pc rc res. subst res. unfold compareColors; cbv zeta; cbn [score].
    set (refs := allRefColors rc). set (projs := filter truthy (map snd pc)).
    destruct (matchAll_invariants _ _ colorExact colorNear colorDist String.eqb
                String.eqb_sym string_eqb_trans refs projs) as (_ & _ & Hlen).
    fold (colorLoop refs projs) in Hlen.
    destruct (lengthOr1_pos refs) as [H1 Hge].
    assert (Hw : (0 <= 8 # 10 <= 1)%Q) by (split; discriminate).
    destruct (scoreOf_bounds (List.length (st_exact (colorLoop refs projs)))
                (List.length (st_similar (colorLoop refs projs))) _ _ Hw H1) as [S0 S100].
    split; [exact S0 |]. intros Hle. apply S100. lia.
  - intros pf ff res. subst res. unfold compareTypography; cbv zeta; cbn [m_score].
    destruct (lengthOr1_pos (map Js.toLowerCase ff)) as [H1 Hge].
    match goal with |- context [fold_left ?f ?l ?a] =>
      pose proof (typography_fold_length (map Js.toLowerCase ff) l a) as Hlen;
      set (res := fold_left f l a) in * end.
    destruct (matched_score_bounds (List.length (fst res)) _ H1) as [S0 S100].
    split; [exact S0 |]. intros Hle. apply S100.
    rewrite !length_map in *. simpl in Hlen. lia.
  - intros ps rs res. subst res. unfold compareSpacing; cbv zeta; cbn [score].
    destruct (matchAll_invariants _ _ snumStrictEq snumNear snumDiff snumSameValue
                snumSameValue_sym snumSameValue_trans rs ps) as (_ & _ & Hlen).
    fold (spacingLoop rs ps) in Hlen.
    destruct (lengthOr1_pos rs) as [H1 Hge].
    assert (Hw : (0 <= 7 # 10 <= 1)%Q) by (split; discriminate).
    destruct (scoreOf_bounds (List.length (st_exact (spacingLoop rs ps)))
                (List.length (st_similar (spacingLoop rs ps))) _ _ Hw H1) as [S0 S100].
    split; [exact S0 |]. intros Hle. apply S100. lia.
  - intros pv rv res. subst res. unfold compareBorderRadius; cbv zeta; cbn [m_score].
    destruct (lengthOr1_pos rv) as [H1 Hge].
    match goal with |- context [filter ?f pv] =>
      pose proof (filter_length_le f pv) as Hlen;
      destruct (matched_score_bounds (List.length (filter f pv)) _ H1) as [S0 S100] end.
    split; [exact S0 |]. intros Hle. apply S100. lia.
Qed.

(** C2.  The score is documented as a percentage between 0 and 100, but
    nothing caps it: two project colours equal to the only reference colour
    are two exact matches out of one, a score of 200, and the other three
    categories overshoot in the same way. *)
Theorem score_exceeds_100 :
  ~ (0 <= score (compareColors [("primary", "#000000"); ("ink", "#000000")]%string
                               (mkColors ["#000000"%string] [] [] [] [])) <= 100)%Z /\
  score (compareColors [("primary", "#000000"); ("ink", "#000000")]%string
                       (mkColors ["#000000"%string] [] [] [] [])) = 200%Z /\
  score (compareSpacing [numOfZ 3; numOfZ 4] [numOfZ 4]) = 170%Z /\
  m_score (compareTypography ["Inter"; "Inter"]%string ["Inter"%string]) = 200%Z /\
  m_score (compareBorderRadius [numOfZ 4; numOfZ 4] [numOfZ 4]) = 200%Z.
Proof.
  split; [intros [_ H]; vm_compute in H; apply H; reflexivity |].
  repeat split; reflexivity.
Qed.

(** a project list as long as the reference list: the bound applies *)
Lemma scores_nonnegative_bounded_by_sizes_witness :
  (List.length [numOfZ 3] <= List.length [numOfZ 4])%nat /\
  (score (compareSpacing [numOfZ 3] [numOfZ 4]) <= 100)%Z.
Proof.
  split; [simpl; lia |].
  apply (proj2 (proj1 (proj2 (proj2 scores_nonnegative_bounded_by_sizes)) [numOfZ 3] [numOfZ 4])).
  simpl; lia.
Defined.

(** C3 fails as stated: the two equal reference entries are one entry of
    [allRefColors], so nothing is missing. *)
Lemma duplicate_reference_no_missing :
  let res := compareColors [("ink", "#000000")]%string
                           (mkColors ["#000000"; "#000000"]%string [] [] [] []) in
  ~ (List.length (exact res) = 1%nat /\ List.length (missing res) = 1%nat).
Proof. cbv zeta. intros [_ H]. discriminate H. Qed.

(** C3, as amended.  A reference palette holding [#000000] twice is
    collapsed to the single colour [#000000] before matching; against the
    project colour [#000000] the result has exactly one exact match, no
    missing entry, and the score 100. *)
Theorem duplicate_reference_collapsed :
  let referenceColors := mkColors ["#000000"; "#000000"]%string [] [] [] [] in
  let res := compareColors [("ink", "#000000")]%string referenceColors in
  allRefColors referenceColors = ["#000000"%string] /\
  exact res = [("#000000", "#000000")]%string /\
  similar res = [] /\ missing res = [] /\ extra res = [] /\ score res = 100%Z.
Proof. cbv zeta. repeat split; reflexivity. Qed.

(** C4.  Reference palette [#000000, #ffffff] against the project colour
    [#010101]: no exact match, one similar match pairing [#010101] with
    [#000000], whose distance is below 5 and is recorded with two decimals,
    as [0.16]; [#ffffff] missing, score 40, which is
    [round(100 * (0 + 0.8) / 2)]. *)
Local Open Scope R_scope.

Theorem near_black_is_similar_scores_40 :
  let res := compareColors [("ink", "#010101")]%string
                           (mkColors ["#000000"; "#ffffff"]%string [] [] [] []) in
  exact res = [] /\
  (exists d, deltaE2000 "#010101" "#000000" = Fin d /\ 0 <= d < 5 /\
             similar res = [("#010101"%string, "#000000"%string, toFixed2 d)]) /\
  similar res = [("#010101"%string, "#000000"%string, "0.16"%string)] /\
  missing res = ["#ffffff"%string] /\
  extra res = [] /\
  score res = 40%Z /\
  mathRound (100 * ((0 + (8 # 10)) / 2)) = 40%Z.
Proof.
  cbv zeta.
  destruct deltaE_010101_black_value as (d & Hd & Hrange).
  assert (Hnear : colorNear "#010101" "#000000" = true).
  { unfold colorNear, deltaE. rewrite Hd. unfold numLtb.
    destruct (Rlt_dec d 5); [reflexivity | lra]. }
  assert (Hst : colorLoop ["#000000"; "#ffffff"]%string ["#010101"%string] =
                mkMatchState [] [("#010101"%string, "#000000"%string, toFixed2 d)] []
                             ["#000000"%string]).
  { unfold colorLoop, matchAll. cbn [fold_left]. unfold matchOne.
    change (find (fun ref => colorExact "#010101" ref) ["#000000"; "#ffffff"]%string)
      with (@None string).
    cbn [find matchInit st_matchedRef setHas existsb negb andb].
    rewrite Hnear. cbn [st_exact st_similar st_extra app].
    unfold colorDist, deltaE. rewrite Hd. reflexivity. }
  assert (Hprint : toFixed2 d = "0.16"%string).
  { rewrite (toFixed2_cell d 16); [reflexivity | lra | lia | lra]. }
  unfold compareColors; cbv zeta.
  change (allRefColors (mkColors ["#000000"; "#ffffff"]%string [] [] [] []))
    with ["#000000"; "#ffffff"]%string.
  change (filter truthy (map snd [("ink", "#010101")]%string)) with ["#010101"%string].
  rewrite Hst. cbn [exact similar missing extra score st_exact st_similar st_extra].
  split; [reflexivity |].
  split; [exists d; split; [exact Hd | split; [lra | reflexivity]] |].
  split; [now rewrite Hprint |].
  repeat split; reflexivity.
Qed.

Local Close Scope R_scope.

(** C5 fails as stated: [#xyz] is neither a hexadecimal colour, nor an
    rgb expression, nor a named colour, and [normalizeColor] returns
    [#xxyyzz] for it. *)
Lemma normalizeColor_hash_not_null :
  specHexColor "#xyz" = false /\
  specRgbExpression "#xyz" = false /\
  specNamedColor "#xyz" = false /\
  normalizeColor "#xyz" = NString "#xxyyzz" /\
  normalizeColor "#xyz" <> NNull.
Proof. repeat split; try reflexivity. discriminate. Qed.

(** C5, as amended.  [normalizeColor] returns for every string.  With [c]
    the input trimmed and lower-cased, and for the inputs other than the
    two for which [c] is [constructor] or [__proto__]: the result is [null]
    or a string.  It is [null] exactly when the input is empty, or [c]
    holds no match of the rgb pattern, does not start with a hash sign,
    and is [transparent] or no key of the table of names.  When [c] holds
    a match of the rgb pattern, anywhere, the result is a string, and when
    the three components are below [2^53] it is the hash sign followed by
    the components in hexadecimal.  Otherwise, when [c] starts with a hash
    sign, it is returned unvalidated: with each of its three other
    characters doubled when [c] has four characters, and cut to its first
    seven characters in every other case.  Otherwise, when [c] is a key of
    the table with a value, the result is that value, a colour that
    [hexToRgb] accepts. *)
Theorem normalizeColor_cases (color : string) :
  let c := Js.toLowerCase (Js.trim color) in
  c <> "constructor"%string -> c <> "__proto__"%string ->
  (normalizeColor color = NNull \/ exists s, normalizeColor color = NString s) /\
  (normalizeColor color = NNull <->
   color = EmptyString \/
   (rgbMatch (list_ascii_of_string c) = None /\
    Js.startsWithChar "#" c = false /\
    (namedOwn named c = Some None \/ namedOwn named c = None))) /\
  (color <> EmptyString ->
   forall d1 d2 d3, rgbMatch (list_ascii_of_string c) = Some (d1, d2, d3) ->
     exists s, normalizeColor color = NString s /\
       ((Js.parseDec d1 < 2 ^ 53 /\ Js.parseDec d2 < 2 ^ 53 /\ Js.parseDec d3 < 2 ^ 53)%N ->
        s = String "#" (hexComponent d1 ++ hexComponent d2 ++ hexComponent d3))) /\
  (color <> EmptyString -> rgbMatch (list_ascii_of_string c) = None ->
   Js.startsWithChar "#" c = true ->
   (forall c1 c2 c3, c = String "#" (String c1 (String c2 (String c3 EmptyString))) ->
      normalizeColor color =
      NString (String "#" (String c1 (String c1 (String c2 (String c2
                 (String c3 (String c3 EmptyString)))))))) /\
   (String.length c <> 4%nat -> normalizeColor color = NString (substring 0 7 c))) /\
  (color <> EmptyString -> rgbMatch (list_ascii_of_string c) = None ->
   Js.startsWithChar "#" c = false ->
   forall v, namedOwn named c = Some (Some v) ->
     normalizeColor color = NString v /\ hexToRgb v <> None).
Proof.
  intros c Hc1 Hc2. unfold normalizeColor.
  destruct color as [| a0 t0].
  { split; [now left |]. split; [tauto |].
    split; [intros Hne; exfalso; now apply Hne |].
    split; intros Hne; exfalso; now apply Hne. }
  fold c.
  destruct (rgbMatch (list_ascii_of_string c)) as [[[d1 d2] d3] |] eqn:Hrgb.
  { split; [right; eauto |].
    split; [split; [discriminate | intros [H | (H & _)]; discriminate] |].
    split; [intros _ e1 e2 e3 [= <- <- <-]; eexists; split; [reflexivity | reflexivity] |].
    split; intros _ H; discriminate. }
  destruct (Js.startsWithChar "#" c) eqn:Hhash.
  { assert (Hstr : exists s,
        match c with
        | String _ (String c1 (String c2 (String c3 EmptyString))) =>
            NString (String "#" (String c1 (String c1 (String c2 (String c2
                      (String c3 (String c3 EmptyString)))))))
        | _ => NString (Js.slice0 7 c)
        end = NString s).
    { destruct c as [| x [| c1 [| c2 [| c3 [| ? ?]]]]]; eauto. }
    destruct Hstr as [s Hs].
    split; [right; exists s; exact Hs |].
    split; [split; [rewrite Hs; discriminate | intros [H | (_ & H & _)]; discriminate] |].
    split; [intros _ e1 e2 e3 H; discriminate |].
    split; [| intros _ _ H; discriminate].
    intros _ _ _. split.
    - intros c1 c2 c3 ->. reflexivity.
    - intros Hlen.
      destruct c as [| x [| c1 [| c2 [| c3 [| ? ?]]]]]; try reflexivity.
      exfalso. apply Hlen. reflexivity. }
  unfold namedLookup.
  destruct (namedOwn named c) as [[v |] |] eqn:Hown.
  - split; [right; eauto |].
    split; [split; [discriminate | intros [H | (_ & _ & [H | H])]; discriminate] |].
    split; [intros _ e1 e2 e3 H; discriminate |].
    split; [intros _ _ H; discriminate |].
    intros _ _ _ v' [= <-]. split; [reflexivity |]. exact (proj2 (named_values_parse c v Hown)).
  - split; [now left |].
    split; [split; [intros _; right; tauto | reflexivity] |].
    split; [intros _ e1 e2 e3 H; discriminate |].
    split; [intros _ _ H; discriminate |].
    intros _ _ _ v' H; discriminate.
  - apply String.eqb_neq in Hc1, Hc2. rewrite Hc1, Hc2. cbn [orb].
    split; [now left |].
    split; [split; [intros _; right; tauto | reflexivity] |].
    split; [intros _ e1 e2 e3 H; discriminate |].
    split; [intros _ _ H; discriminate |].
    intros _ _ _ v' H; discriminate.
Qed.

(** an rgb expression behind a hash sign, an alpha channel cut away, a
    short hash string returned as it is, and an unknown name *)
Lemma normalizeColor_cases_witness :
  normalizeColor "#rgb(1,2,3)" = NString "#010203" /\
  normalizeColor " #ABCDEF80 " = NString "#abcdef" /\
  normalizeColor "#xy" = NString "#xy" /\
  (normalizeColor "teal-500" = NNull <->
   "teal-500"%string = EmptyString \/
   (rgbMatch (list_ascii_of_string "teal-500") = None /\
    Js.startsWithChar "#" "teal-500" = false /\
    (namedOwn named "teal-500" = Some None \/ namedOwn named "teal-500" = None))).
Proof.
  split; [reflexivity |]. split; [reflexivity |]. split; [reflexivity |].
  apply (proj1 (proj2 (normalizeColor_cases "teal-500" ltac:(discriminate) ltac:(discriminate)))).
Defined.

Local Open Scope R_scope.

(** C6.  [deltaE2000(a, b)] equals [deltaE2000(b, a)], for all inputs
    (for unparseable ones both sides are [Infinity]). *)
Theorem deltaE2000_sym (hex1 hex2 : string) :
  deltaE2000 hex1 hex2 = deltaE2000 hex2 hex1.
Proof.
  unfold deltaE2000; cbv zeta.
  destruct (hexToRgb hex1) as [c1 |], (hexToRgb hex2) as [c2 |];
    cbn [rgbToLab]; try reflexivity.
  unfold deltaE2000_lab. now rewrite deltaE2000_radicand_sym.
Qed.

(** C7.  For two inputs that parse to RGB triplets, [deltaE2000] is zero
    exactly when the two triplets are the same colour; in particular the
    distance of a valid colour to itself is zero. *)
Theorem deltaE2000_zero_iff_same_color (hex1 hex2 : string) (c1 c2 : Rgb) :
  hexToRgb hex1 = Some c1 -> hexToRgb hex2 = Some c2 ->
  (deltaE2000 hex1 hex2 = Fin 0 <-> c1 = c2) /\ deltaE2000 hex1 hex1 = Fin 0.
Proof.
  intros H1 H2.
  assert (Hself : forall c, deltaE2000_lab (labOfRgb c) (labOfRgb c) = 0).
  { intros c. unfold deltaE2000_lab. rewrite deltaE2000_radicand_same. apply sqrt_0. }
  unfold deltaE2000; cbv zeta. rewrite H1, H2. cbn [rgbToLab].
  split; [| now rewrite Hself].
  split.
  - intros Hd. injection Hd as Hd. unfold deltaE2000_lab in Hd.
    apply sqrt_eq_0 in Hd; [| apply deltaE2000_radicand_nonneg].
    apply deltaE2000_radicand_zero in Hd.
    apply labOfRgb_injective in Hd; [exact Hd | |].
    + exact (hexToRgb_range _ _ H1).
    + exact (hexToRgb_range _ _ H2).
  - intros <-. now rewrite Hself.
Qed.

(** the short and the long spelling of white are at distance zero *)
Lemma deltaE2000_zero_iff_same_color_witness :
  hexToRgb "#fff" = Some (mkRgb 255 255 255) /\
  hexToRgb "#FFFFFF" = Some (mkRgb 255 255 255) /\
  deltaE2000 "#fff" "#FFFFFF" = Fin 0.
Proof.
  split; [reflexivity |]. split; [reflexivity |].
  apply (proj2 (proj1 (deltaE2000_zero_iff_same_color "#fff" "#FFFFFF"
                         (mkRgb 255 255 255) (mkRgb 255 255 255) eq_refl eq_refl))).
  reflexivity.
Defined.

(** C8.  For colours that parse, the expression under the final square
    root is never negative and [deltaE2000] returns its non-negative root;
    when an input does not parse the result is [Infinity]. *)
Theorem deltaE2000_nonneg (hex1 hex2 : string) :
  match hexToRgb hex1, hexToRgb hex2 with
  | Some c1, Some c2 =>
      let radicand := deltaE2000_radicand (labOfRgb c1) (labOfRgb c2) in
      0 <= radicand /\
      exists d, deltaE2000 hex1 hex2 = Fin d /\ 0 <= d /\ d * d = radicand
  | _, _ => deltaE2000 hex1 hex2 = Infinity
  end.
Proof.
  unfold deltaE2000; cbv zeta.
  destruct (hexToRgb hex1) as [c1 |], (hexToRgb hex2) as [c2 |];
    cbn [rgbToLab]; try reflexivity.
  pose proof (deltaE2000_radicand_nonneg (labOfRgb c1) (labOfRgb c2)) as Hr.
  split; [exact Hr |].
  exists (deltaE2000_lab (labOfRgb c1) (labOfRgb c2)). unfold deltaE2000_lab.
  split; [reflexivity |]. split; [apply sqrt_pos | now apply sqrt_sqrt].
Qed.

(** C9.  Text [#767676] on background [#ffffff]: the contrast ratio lies
    between 4.535 and 4.545, so the result of [checkWCAG] carries the ratio
    [4.54]; it passes AA for normal text and fails AAA for normal text, and
    the audit reports exactly one issue, of severity warning, and no passing
    combination. *)
Theorem audit_767676_on_white_is_warning :
  let audit := auditAccessibility (mkColors [] ["#ffffff"%string] ["#767676"%string] [] []) in
  let w := checkWCAG "#767676" "#ffffff" in
  4.535 < getContrastRatio "#767676" "#ffffff" < 4.545 /\
  ratio w = "4.54"%string /\
  AA_normalText w = true /\ AAA_normalText w = false /\
  issues audit = [mkIssue SevWarning PassesAAFailsAAA (mkCombo "#767676" "#ffffff" w)] /\
  passing audit = [].
Proof.
  cbv zeta.
  pose proof ratio_767676_white as Hr.
  assert (HAA : AA_normalText (checkWCAG "#767676" "#ffffff") = true).
  { cbn [checkWCAG AA_normalText]. unfold Rgeb.
    destruct (Rge_dec (getContrastRatio "#767676" "#ffffff") 4.5); [reflexivity | lra]. }
  assert (HAAA : AAA_normalText (checkWCAG "#767676" "#ffffff") = false).
  { cbn [checkWCAG AAA_normalText]. unfold Rgeb.
    destruct (Rge_dec (getContrastRatio "#767676" "#ffffff") 7); [lra | reflexivity]. }
  split; [exact Hr |].
  split.
  { cbn [checkWCAG ratio].
    rewrite (toFixed2_cell _ 454); [reflexivity | lra | lia | lra]. }
  split; [exact HAA |]. split; [exact HAAA |].
  unfold auditAccessibility; cbv zeta.
  cbn [backgrounds text accents firstn fold_left].
  unfold auditText. cbn [truthy negb orb]. cbv zeta.
  rewrite HAA, HAAA. cbn [negb issues passing app]. split; reflexivity.
Qed.

(** C10.  [getContrastRatio] is symmetric in its two arguments and never
    below 1. *)
Theorem getContrastRatio_sym_ge_1 (hex1 hex2 : string) :
  getContrastRatio hex1 hex2 = getContrastRatio hex2 hex1 /\
  1 <= getContrastRatio hex1 hex2.
Proof.
  unfold getContrastRatio; cbv zeta.
  pose proof (getLuminance_nonneg hex1) as H1.
  pose proof (getLuminance_nonneg hex2) as H2.
  split.
  - rewrite (Rmax_comm (getLuminance hex2)), (Rmin_comm (getLuminance hex2)). reflexivity.
  - set (l1 := getLuminance hex1) in *. set (l2 := getLuminance hex2) in *.
    assert (Hmin : 0 <= Rmin l1 l2) by (apply Rmin_glb; assumption).
    pose proof (Rmin_l l1 l2). pose proof (Rmax_l l1 l2). pose proof (Rmin_r l1 l2).
    pose proof (Rmax_r l1 l2).
    apply (Rmult_le_reg_r (Rmin l1 l2 + 0.05)); [lra |].
    unfold Rdiv. rewrite Rmult_assoc, Rinv_l by lra.
    destruct (Rle_dec l1 l2); lra.
Qed.

Local Close Scope R_scope.

(* ================================================================== *)
(** * Further properties of the code *)

(** ** Hexadecimal colours *)

(** when [hexToRgb] returns a triplet *)
Lemma hexToRgb_some_iff (hex : string) :
  (exists c, hexToRgb hex = Some c) <->
  (let h := list_ascii_of_string (Js.removeFirst "#" hex) in
   (List.length h = 3%nat \/ List.length h = 6%nat) /\
   forallb Js.isHexDigit h = true).
Proof.
  unfold hexToRgb. destruct hex as [| c0 t0].
  { cbn. split; [intros [c H]; discriminate | intros [[H | H] _]; discriminate]. }
  set (h := Js.removeFirst "#" (String c0 t0)). clearbody h. cbv zeta.
  destruct h as [| c1 [| c2 [| c3 [| c4 [| c5 [| c6 [| c7 t]]]]]]];
    cbn [list_ascii_of_string List.length];
    try (split; [intros [c H]; discriminate | intros [[H | H] _]; discriminate]).
  - (* three characters *)
    cbn [forallb]. destruct (Js.isHexDigit c1), (Js.isHexDigit c2), (Js.isHexDigit c3);
      cbn; split; try (intros [c H]; discriminate); try (intros [_ H]; discriminate);
      intros _; try (eexists; reflexivity); split; auto.
  - (* six characters *)
    destruct (forallb Js.isHexDigit [c1; c2; c3; c4; c5; c6]) eqn:Hall.
    + split; [intros _; split; [right |]; auto | intros _; eexists; reflexivity].
    + split; [intros [c H]; discriminate | intros [_ H]; discriminate].
Qed.

(** X1.  [hexToRgb] accepts exactly the strings that, once their first hash sign
    is removed, consist of three or of six hexadecimal digits. *)
Theorem hexToRgb_accepts_iff (hex : string) :
  (exists c, hexToRgb hex = Some c) <->
  (let h := list_ascii_of_string (Js.removeFirst "#" hex) in
   (List.length h = 3%nat \/ List.length h = 6%nat) /\
   forallb Js.isHexDigit h = true).
Proof.
  exact (hexToRgb_some_iff hex).
Qed.

Lemma toLowerChar_hash (c : ascii) :
  Ascii.eqb (Js.toLowerChar c) "#" = Ascii.eqb c "#".
Proof.
  destruct c as [[] [] [] [] [] [] [] []]; reflexivity.
Qed.

Lemma toLowerChar_hex (c : ascii) :
  Js.isHexDigit (Js.toLowerChar c) = Js.isHexDigit c /\
  Js.hexValue (Js.toLowerChar c) = Js.hexValue c.
Proof.
  destruct c as [[] [] [] [] [] [] [] []]; split; reflexivity.
Qed.

Lemma removeFirst_toLowerCase (s : string) :
  Js.removeFirst "#" (Js.toLowerCase s) = Js.toLowerCase (Js.removeFirst "#" s).
Proof.
  induction s as [| c t IH]; [reflexivity |].
  cbn [Js.toLowerCase Js.removeFirst]. rewrite toLowerChar_hash.
  destruct (Ascii.eqb c "#"); [reflexivity |].
  cbn [Js.toLowerCase]. now rewrite IH.
Qed.

(** lower-casing does not change what [hexToRgb] reads *)
Lemma hexToRgb_toLowerCase (hex : string) :
  hexToRgb (Js.toLowerCase hex) = hexToRgb hex.
Proof.
  unfold hexToRgb. destruct hex as [| c0 t0]; [reflexivity |].
  change (Js.toLowerCase (String c0 t0))
    with (String (Js.toLowerChar c0) (Js.toLowerCase t0)) at 1.
  cbv zeta.
  change (String (Js.toLowerChar c0) (Js.toLowerCase t0))
    with (Js.toLowerCase (String c0 t0)).
  rewrite removeFirst_toLowerCase.
  set (h := Js.removeFirst "#" (String c0 t0)). clearbody h.
  destruct h as [| c1 [| c2 [| c3 [| c4 [| c5 [| c6 [| c7 t]]]]]]];
    cbn [Js.toLowerCase]; try reflexivity.
  - cbn [forallb].
    destruct (toLowerChar_hex c1) as [-> ->], (toLowerChar_hex c2) as [-> ->],
             (toLowerChar_hex c3) as [-> ->]. reflexivity.
  - cbn [forallb].
    destruct (toLowerChar_hex c1) as [-> ->], (toLowerChar_hex c2) as [-> ->],
             (toLowerChar_hex c3) as [-> ->], (toLowerChar_hex c4) as [-> ->],
             (toLowerChar_hex c5) as [-> ->], (toLowerChar_hex c6) as [-> ->].
    reflexivity.
Qed.

(** X2.  [hexToRgb] does not depend on the case of the letters. *)
Theorem hexToRgb_case_insensitive (hex : string) :
  hexToRgb (Js.toLowerCase hex) = hexToRgb hex.
Proof.
  exact (hexToRgb_toLowerCase hex).
Qed.


(** ** Normalisation followed by parsing *)

Lemma dropWhile_none (p : ascii -> bool) (l : list ascii) :
  forallb (fun c => negb (p c)) l = true -> Js.dropWhile p l = l.
Proof.
  destruct l as [| c t]; [reflexivity |]. cbn. 
  destruct (p c); [discriminate | reflexivity].
Qed.

Lemma forallb_rev {A : Type} (f : A -> bool) (l : list A) :
  forallb f (rev l) = forallb f l.
Proof.
  induction l as [| x t IH]; [reflexivity |].
  cbn. rewrite forallb_app, IH. cbn. rewrite andb_true_r. apply andb_comm.
Qed.

Lemma trim_no_whitespace (s : string) :
  forallb (fun c => negb (Js.isWhiteSpace c)) (list_ascii_of_string s) = true ->
  Js.trim s = s.
Proof.
  intros H. unfold Js.trim.
  rewrite (dropWhile_none _ _ H).
  rewrite dropWhile_none by (rewrite forallb_rev; exact H).
  rewrite rev_involutive. apply string_of_list_ascii_of_string.
Qed.

Lemma rgbMatch_needs_r (l : list ascii) :
  forallb (fun c => negb (Ascii.eqb c "r")) l = true -> rgbMatch l = None.
Proof.
  induction l as [| c t IH]; [reflexivity |].
  cbn [forallb]. intros H. apply andb_true_iff in H. destruct H as [Hc Ht].
  cbn [rgbMatch]. rewrite (IH Ht).
  unfold rgbMatchAt.
  destruct c as [[] [] [] [] [] [] [] []]; try reflexivity; discriminate.
Qed.

(** what a hexadecimal digit is not, before and after lower-casing *)
Lemma hexDigit_plain (c : ascii) :
  Js.isHexDigit c = true ->
  Js.isWhiteSpace c = false /\
  Ascii.eqb (Js.toLowerChar c) "r" = false /\
  Js.isHexDigit (Js.toLowerChar c) = true.
Proof.
  destruct c as [[] [] [] [] [] [] [] []]; cbn; intros H; try discriminate; auto.
Qed.

Lemma list_ascii_toLowerCase (s : string) :
  list_ascii_of_string (Js.toLowerCase s) = map Js.toLowerChar (list_ascii_of_string s).
Proof. induction s as [| c t IH]; [reflexivity |]. cbn. now rewrite IH. Qed.

Lemma hex_string_facts (ds : list ascii) :
  forallb Js.isHexDigit ds = true ->
  let s := String "#" (string_of_list_ascii ds) in
  Js.trim s = s /\
  rgbMatch (list_ascii_of_string (Js.toLowerCase s)) = None.
Proof.
  intros Hds s.
  assert (Hl : list_ascii_of_string s = "#"%char :: ds).
  { unfold s. cbn. now rewrite list_ascii_of_string_of_list_ascii. }
  split.
  - apply trim_no_whitespace. rewrite Hl. cbn [forallb]. cbn.
    rewrite forallb_forall in *. intros c Hc.
    destruct (hexDigit_plain c (Hds c Hc)) as (-> & _). reflexivity.
  - apply rgbMatch_needs_r. rewrite list_ascii_toLowerCase, Hl. cbn [map forallb]. cbn.
    rewrite forallb_forall in *. intros c Hc. apply in_map_iff in Hc.
    destruct Hc as (x & <- & Hx).
    destruct (hexDigit_plain x (Hds x Hx)) as (_ & -> & _). reflexivity.
Qed.

(** X3.  Normalising a three- or six-digit hexadecimal colour, in any case,
    gives a seven-character string that [hexToRgb] reads as the same
    triplet as the original. *)
Theorem normalizeColor_keeps_hex_triplet (ds : list ascii) :
  forallb Js.isHexDigit ds = true ->
  (List.length ds = 3%nat \/ List.length ds = 6%nat) ->
  let s := String "#" (string_of_list_ascii ds) in
  exists s', normalizeColor s = NString s' /\
             String.length s' = 7%nat /\
             hexToRgb s' = hexToRgb s /\
             hexToRgb s <> None.
Proof.
  intros Hds Hlen s.
  destruct (hex_string_facts ds Hds) as [Htrim Hrgb]. fold s in Htrim, Hrgb.
  assert (Hparse : hexToRgb s <> None).
  { destruct (proj2 (hexToRgb_some_iff s)) as [c Hc]; [| congruence].
    unfold s. cbn [Js.removeFirst Ascii.eqb Bool.eqb].
    rewrite list_ascii_of_string_of_list_ascii. tauto. }
  assert (Hnorm : normalizeColor s =
            if Js.startsWithChar "#" (Js.toLowerCase s) then
              match Js.toLowerCase s with
              | String _ (String c1 (String c2 (String c3 EmptyString))) =>
                  NString (String "#" (String c1 (String c1 (String c2 (String c2
                            (String c3 (String c3 EmptyString)))))))
              | _ => NString (Js.slice0 7 (Js.toLowerCase s))
              end
            else namedLookup (Js.toLowerCase s)).
  { unfold normalizeColor. fold s.
    change (match s with EmptyString => NNull | String _ _ => ?x end) with x.
    now rewrite Htrim, Hrgb. }
  rewrite Hnorm. clear Hnorm Htrim Hrgb.
  pose proof (hexToRgb_toLowerCase s) as Hci.
  unfold s in *. clear s.
  destruct Hlen as [H3 | H6].
  - destruct ds as [| c1 [| c2 [| c3 [| ? ?]]]]; try discriminate H3.
    eexists. split; [reflexivity |]. split; [reflexivity |].
    split; [rewrite <- Hci; reflexivity | exact Hparse].
  - destruct ds as [| c1 [| c2 [| c3 [| c4 [| c5 [| c6 [| ? ?]]]]]]]; try discriminate H6.
    eexists. split; [reflexivity |]. split; [reflexivity |].
    split; [rewrite <- Hci; reflexivity | exact Hparse].
Qed.

Lemma normalizeColor_keeps_hex_triplet_witness :
  forallb Js.isHexDigit (list_ascii_of_string "Fa0") = true /\
  exists s', normalizeColor "#Fa0" = NString s' /\
             String.length s' = 7%nat /\
             hexToRgb s' = hexToRgb "#Fa0" /\
             hexToRgb "#Fa0" <> None.
Proof.
  split; [reflexivity |].
  apply (normalizeColor_keeps_hex_triplet (list_ascii_of_string "Fa0"));
    [reflexivity | left; reflexivity].
Defined.

(** X4.  An eight-digit colour, which [hexToRgb] rejects, is cut by
    [normalizeColor] to its first six digits and parses afterwards; a
    four-digit colour is returned as it is (lower-cased) and still does not
    parse. *)
Theorem normalizeColor_alpha_channel (ds : list ascii) :
  forallb Js.isHexDigit ds = true ->
  let s := String "#" (string_of_list_ascii ds) in
  (List.length ds = 8%nat ->
   hexToRgb s = None /\
   exists s', normalizeColor s = NString s' /\
              hexToRgb s' = hexToRgb (String "#" (string_of_list_ascii (firstn 6 ds))) /\
              hexToRgb s' <> None) /\
  (List.length ds = 4%nat ->
   normalizeColor s = NString (Js.toLowerCase s) /\
   hexToRgb (Js.toLowerCase s) = None).
Proof.
  intros Hds s.
  destruct (hex_string_facts ds Hds) as [Htrim Hrgb]. fold s in Htrim, Hrgb.
  assert (Hnorm : normalizeColor s =
            if Js.startsWithChar "#" (Js.toLowerCase s) then
              match Js.toLowerCase s with
              | String _ (String c1 (String c2 (String c3 EmptyString))) =>
                  NString (String "#" (String c1 (String c1 (String c2 (String c2
                            (String c3 (String c3 EmptyString)))))))
              | _ => NString (Js.slice0 7 (Js.toLowerCase s))
              end
            else namedLookup (Js.toLowerCase s)).
  { unfold normalizeColor. fold s.
    change (match s with EmptyString => NNull | String _ _ => ?x end) with x.
    now rewrite Htrim, Hrgb. }
  rewrite Hnorm. clear Hnorm Htrim Hrgb. unfold s. clear s.
  split; intros Hlen.
  - destruct ds as [| c1 [| c2 [| c3 [| c4 [| c5 [| c6 [| c7 [| c8 [| ? ?]]]]]]]]];
      try discriminate Hlen.
    split; [reflexivity |].
    set (six := [c1; c2; c3; c4; c5; c6]).
    assert (H6 : forallb Js.isHexDigit six = true).
    { cbn [forallb] in *. unfold six. cbn [forallb].
      repeat (apply andb_true_iff in Hds; destruct Hds as [? Hds]).
      repeat (apply andb_true_iff; split); auto. }
    pose proof (hexToRgb_toLowerCase (String "#" (string_of_list_ascii six))) as Hci.
    eexists. split; [reflexivity |].
    change (firstn 6 [c1; c2; c3; c4; c5; c6; c7; c8]) with six.
    split; [rewrite <- Hci; reflexivity |].
    change (hexToRgb (Js.toLowerCase (String "#" (string_of_list_ascii six))) <> None).
    rewrite Hci.
    destruct (proj2 (hexToRgb_some_iff (String "#" (string_of_list_ascii six))))
      as [c Hc]; [| congruence].
    cbn [Js.removeFirst Ascii.eqb Bool.eqb].
    rewrite list_ascii_of_string_of_list_ascii. split; [right; reflexivity | exact H6].
  - destruct ds as [| c1 [| c2 [| c3 [| c4 [| ? ?]]]]]; try discriminate Hlen.
    split; reflexivity.
Qed.

Lemma normalizeColor_alpha_channel_witness :
  forallb Js.isHexDigit (list_ascii_of_string "11223344") = true /\
  hexToRgb "#11223344" = None /\
  exists s', normalizeColor "#11223344" = NString s' /\
             hexToRgb s' = hexToRgb "#112233" /\ hexToRgb s' <> None.
Proof.
  split; [reflexivity |].
  apply (proj1 (normalizeColor_alpha_channel (list_ascii_of_string "11223344") eq_refl)).
  reflexivity.
Defined.

Lemma string_length_append (a b : string) :
  String.length (a ++ b) = (String.length a + String.length b)%nat.
Proof. induction a as [| c t IH]; cbn; [reflexivity | now rewrite IH]. Qed.

Lemma string_length_list (s : string) :
  List.length (list_ascii_of_string s) = String.length s.
Proof. induction s as [| c t IH]; cbn; [reflexivity | now rewrite IH]. Qed.

Lemma toHexFuel_length (fuel : nat) (n : N) (acc : string) :
  (String.length acc <= String.length (Js.toHexFuel fuel n acc))%nat.
Proof.
  revert n acc. induction fuel as [| f IH]; intros n acc; cbn [Js.toHexFuel]; [lia |].
  destruct (n / 16 =? 0)%N; [cbn; lia |].
  etransitivity; [| apply IH]. cbn. lia.
Qed.

Lemma hexComponent_length (d : list ascii) :
  (2 <= String.length (hexComponent d))%nat /\
  ((256 <= Js.parseDec d)%N -> (3 <= String.length (hexComponent d))%nat).
Proof.
  unfold hexComponent. set (n := Js.parseDec d). clearbody n.
  assert (Hpad : forall s, (2 <= String.length (Js.padStart2 s))%nat /\
                           (String.length s <= String.length (Js.padStart2 s))%nat).
  { intros [| c [| c' t]]; cbn; lia. }
  split; [apply Hpad |]. intros Hn.
  etransitivity; [| apply Hpad].
  unfold Js.toHex.
  assert (Hlog : (8 <= N.log2 n)%N).
  { apply N.log2_le_pow2; [lia |]. exact Hn. }
  destruct (N.to_nat (N.log2 n)) as [| [| f]] eqn:Hf; try lia.
  assert (H16 : (16 <= n / 16)%N).
  { change 16%N with (256 / 16)%N at 1. apply N.Div0.div_le_mono. exact Hn. }
  assert (H1 : (1 <= n / 16 / 16)%N).
  { change 1%N with (16 / 16)%N at 1. apply N.Div0.div_le_mono. exact H16. }
  cbn [Js.toHexFuel].
  replace (n / 16 =? 0)%N with false by (symmetry; apply N.eqb_neq; lia).
  replace (n / 16 / 16 =? 0)%N with false by (symmetry; apply N.eqb_neq; lia).
  destruct (n / 16 / 16 / 16 =? 0)%N; [cbn; lia |].
  etransitivity; [| apply toHexFuel_length]. cbn. lia.
Qed.

Lemma byte_hex_table :
  forallb (fun k =>
     match Js.padStart2 (Js.toHex (N.of_nat k)) with
     | String c1 (String c2 EmptyString) =>
         Js.isHexDigit c1 && Js.isHexDigit c2 &&
         (16 * Js.hexValue c1 + Js.hexValue c2 =? Z.of_nat k)%Z
     | _ => false
     end) (seq 0 256) = true.
Proof. vm_compute. reflexivity. Qed.

(** a component below 256 is printed as two hexadecimal digits that read
    back as the component *)
Lemma hexComponent_byte (d : list ascii) :
  (Js.parseDec d < 256)%N ->
  exists c1 c2, hexComponent d = String c1 (String c2 EmptyString) /\
                Js.isHexDigit c1 = true /\ Js.isHexDigit c2 = true /\
                (16 * Js.hexValue c1 + Js.hexValue c2)%Z = Z.of_N (Js.parseDec d).
Proof.
  intros Hn. unfold hexComponent. set (n := Js.parseDec d) in *. clearbody n.
  pose proof byte_hex_table as Htab. rewrite forallb_forall in Htab.
  specialize (Htab (N.to_nat n)). rewrite N2Nat.id in Htab.
  assert (Hin : In (N.to_nat n) (seq 0 256)) by (apply in_seq; lia).
  specialize (Htab Hin).
  destruct (Js.padStart2 (Js.toHex n)) as [| c1 [| c2 [| ? ?]]]; try discriminate.
  apply andb_true_iff in Htab. destruct Htab as [Hd Hv].
  apply andb_true_iff in Hd. destruct Hd as [Hd1 Hd2].
  apply Z.eqb_eq in Hv. exists c1, c2. repeat split; auto. lia.
Qed.

Lemma hexToRgb_too_long (rest : string) :
  (7 <= String.length rest)%nat -> hexToRgb (String "#" rest) = None.
Proof.
  intros Hlen. destruct (hexToRgb (String "#" rest)) as [c |] eqn:Heq; [| reflexivity].
  exfalso.
  destruct (proj1 (hexToRgb_some_iff (String "#" rest))) as [Hl _]; [eauto |].
  cbn [Js.removeFirst Ascii.eqb Bool.eqb] in Hl. rewrite string_length_list in Hl. lia.
Qed.

(** X5.  An [rgb(...)] or [rgba(...)] colour whose three components are below
    256 normalises to a string that [hexToRgb] reads back as exactly these
    components; when a component is 256 or more the normalised string is
    too long and [hexToRgb] rejects it. *)
Theorem normalizeColor_rgb_round_trip (color : string) (d1 d2 d3 : list ascii) :
  color <> EmptyString ->
  rgbMatch (list_ascii_of_string (Js.toLowerCase (Js.trim color))) = Some (d1, d2, d3) ->
  exists s, normalizeColor color = NString s /\
    (((Js.parseDec d1 < 256)%N /\ (Js.parseDec d2 < 256)%N /\ (Js.parseDec d3 < 256)%N ->
      hexToRgb s = Some (mkRgb (Z.of_N (Js.parseDec d1)) (Z.of_N (Js.parseDec d2))
                               (Z.of_N (Js.parseDec d3)))) /\
     ((256 <= Js.parseDec d1)%N \/ (256 <= Js.parseDec d2)%N \/ (256 <= Js.parseDec d3)%N ->
      hexToRgb s = None)).
Proof.
  intros Hne Hm. unfold normalizeColor.
  destruct color as [| a0 t0]; [contradiction |]. rewrite Hm.
  eexists. split; [reflexivity |]. split.
  - intros (H1 & H2 & H3).
    destruct (hexComponent_byte d1 H1) as (a1 & a2 & -> & Ha1 & Ha2 & <-).
    destruct (hexComponent_byte d2 H2) as (b1 & b2 & -> & Hb1 & Hb2 & <-).
    destruct (hexComponent_byte d3 H3) as (c1 & c2 & -> & Hc1 & Hc2 & <-).
    cbn [String.append]. unfold hexToRgb.
    cbn [Js.removeFirst Ascii.eqb Bool.eqb forallb].
    now rewrite Ha1, Ha2, Hb1, Hb2, Hc1, Hc2.
  - intros Hbig. apply hexToRgb_too_long.
    rewrite !string_length_append.
    destruct (hexComponent_length d1) as [L1 B1], (hexComponent_length d2) as [L2 B2],
             (hexComponent_length d3) as [L3 B3].
    destruct Hbig as [H | [H | H]];
      [specialize (B1 H) | specialize (B2 H) | specialize (B3 H)]; lia.
Qed.

Lemma normalizeColor_rgb_round_trip_witness :
  exists s, normalizeColor "rgba(255, 128, 0, 0.5)" = NString s /\
            hexToRgb s = Some (mkRgb 255 128 0).
Proof.
  destruct (normalizeColor_rgb_round_trip "rgba(255, 128, 0, 0.5)"
              (list_ascii_of_string "255") (list_ascii_of_string "128")
              (list_ascii_of_string "0")) as (s & Hs & Hok & _);
    [discriminate | reflexivity |].
  exists s. split; [exact Hs |].
  apply Hok. vm_compute. repeat split; reflexivity.
Defined.


(** ** Distances, luminance and lightness *)

Local Open Scope R_scope.

Lemma norm3_triangle (x1 y1 z1 x2 y2 z2 : R) :
  sqrt ((x1 + x2) ^ 2 + (y1 + y2) ^ 2 + (z1 + z2) ^ 2) <=
  sqrt (x1 ^ 2 + y1 ^ 2 + z1 ^ 2) + sqrt (x2 ^ 2 + y2 ^ 2 + z2 ^ 2).
Proof.
  set (u := x1 ^ 2 + y1 ^ 2 + z1 ^ 2). set (v := x2 ^ 2 + y2 ^ 2 + z2 ^ 2).
  assert (Hu : 0 <= u) by (unfold u; nra).
  assert (Hv : 0 <= v) by (unfold v; nra).
  pose proof (sqrt_pos u) as Hsu. pose proof (sqrt_pos v) as Hsv.
  assert (Hdot : x1 * x2 + y1 * y2 + z1 * z2 <= sqrt u * sqrt v).
  { rewrite <- sqrt_mult by assumption.
    destruct (Rle_dec (x1 * x2 + y1 * y2 + z1 * z2) 0) as [Hneg | Hpos].
    - pose proof (sqrt_pos (u * v)). lra.
    - rewrite <- (sqrt_square (x1 * x2 + y1 * y2 + z1 * z2)) by lra.
      apply sqrt_le_1_alt. unfold u, v.
      assert (0 <= (x1 * y2 - x2 * y1) ^ 2) by apply pow2_ge_0.
      assert (0 <= (x1 * z2 - x2 * z1) ^ 2) by apply pow2_ge_0.
      assert (0 <= (y1 * z2 - y2 * z1) ^ 2) by apply pow2_ge_0.
      nra. }
  rewrite <- (sqrt_square (sqrt u + sqrt v)) by lra.
  apply sqrt_le_1_alt.
  pose proof (sqrt_sqrt u Hu). pose proof (sqrt_sqrt v Hv).
  unfold u, v in *. nra.
Qed.

Lemma norm3_zero (x y z : R) :
  sqrt (x ^ 2 + y ^ 2 + z ^ 2) = 0 -> x = 0 /\ y = 0 /\ z = 0.
Proof.
  intros H. apply sqrt_eq_0 in H; [| nra].
  assert (0 <= x ^ 2) by apply pow2_ge_0.
  assert (0 <= y ^ 2) by apply pow2_ge_0.
  assert (0 <= z ^ 2) by apply pow2_ge_0.
  repeat split; nra.
Qed.

(** X6.  [deltaE76] is a metric on the colours that parse: a finite number,
    symmetric, zero exactly between equal triplets, and subject to the
    triangle inequality. *)
Theorem deltaE76_metric (hex1 hex2 hex3 : string) (c1 c2 c3 : Rgb) :
  hexToRgb hex1 = Some c1 -> hexToRgb hex2 = Some c2 -> hexToRgb hex3 = Some c3 ->
  exists d12 d23 d13,
    deltaE76 hex1 hex2 = Fin d12 /\ deltaE76 hex2 hex3 = Fin d23 /\
    deltaE76 hex1 hex3 = Fin d13 /\
    deltaE76 hex2 hex1 = Fin d12 /\
    0 <= d12 /\ (d12 = 0 <-> c1 = c2) /\
    d13 <= d12 + d23.
Proof.
  intros H1 H2 H3. unfold deltaE76; cbv zeta. rewrite H1, H2, H3. cbn [rgbToLab].
  do 3 eexists. split; [reflexivity |]. split; [reflexivity |]. split; [reflexivity |].
  split; [| split; [apply sqrt_pos | split]].
  - f_equal. f_equal. ring.
  - split.
    + intros Hz. apply norm3_zero in Hz. destruct Hz as (HL & Ha & Hb).
      apply labOfRgb_injective;
        [exact (hexToRgb_range _ _ H1) | exact (hexToRgb_range _ _ H2) |].
      destruct (labOfRgb c1) as [L1 a1 b1], (labOfRgb c2) as [L2 a2 b2].
      cbn [lab_L lab_a lab_b] in *. f_equal; lra.
    + intros Heq. subst c2.
      match goal with |- sqrt ?e = 0 => replace e with 0 by ring end.
      apply sqrt_0.
  - set (l1 := labOfRgb c1). set (l2 := labOfRgb c2). set (l3 := labOfRgb c3).
    pose proof (norm3_triangle (lab_L l2 - lab_L l1) (lab_a l2 - lab_a l1)
                  (lab_b l2 - lab_b l1) (lab_L l3 - lab_L l2) (lab_a l3 - lab_a l2)
                  (lab_b l3 - lab_b l2)) as Ht.
    replace (lab_L l2 - lab_L l1 + (lab_L l3 - lab_L l2)) with (lab_L l3 - lab_L l1)
      in Ht by ring.
    replace (lab_a l2 - lab_a l1 + (lab_a l3 - lab_a l2)) with (lab_a l3 - lab_a l1)
      in Ht by ring.
    replace (lab_b l2 - lab_b l1 + (lab_b l3 - lab_b l2)) with (lab_b l3 - lab_b l1)
      in Ht by ring.
    exact Ht.
Qed.

Lemma deltaE76_metric_witness :
  exists d12 d23 d13,
    deltaE76 "#000" "#ffffff" = Fin d12 /\ deltaE76 "#ffffff" "808080" = Fin d23 /\
    deltaE76 "#000" "808080" = Fin d13 /\
    deltaE76 "#ffffff" "#000" = Fin d12 /\
    0 <= d12 /\ (d12 = 0 <-> mkRgb 0 0 0 = mkRgb 255 255 255) /\
    d13 <= d12 + d23.
Proof.
  apply (deltaE76_metric "#000" "#ffffff" "808080" (mkRgb 0 0 0) (mkRgb 255 255 255)
           (mkRgb 128 128 128)); reflexivity.
Defined.

Lemma wcagGamma_le_1 (c : R) : 0 <= c <= 1 -> 0 <= wcagGamma c <= 1.
Proof.
  intros Hc. split; [apply wcagGamma_nonneg; lra |].
  unfold wcagGamma. destruct (Rle_dec c 0.03928); [lra |].
  rewrite <- (Rpower_1_l 2.4). apply Rle_Rpower_l; lra.
Qed.

Lemma channel_unit (z : Z) : (0 <= z <= 255)%Z -> 0 <= IZR z / 255 <= 1.
Proof.
  intros [H0 H1]. apply IZR_le in H0, H1. lra.
Qed.

Lemma getLuminance_range (hex : string) : 0 <= getLuminance hex <= 1.
Proof.
  unfold getLuminance.
  destruct (hexToRgb hex) as [rgb |] eqn:Hrgb; [| lra].
  destruct (hexToRgb_range _ _ Hrgb) as (Hr & Hg & Hb).
  pose proof (wcagGamma_le_1 _ (channel_unit _ Hr)).
  pose proof (wcagGamma_le_1 _ (channel_unit _ Hg)).
  pose proof (wcagGamma_le_1 _ (channel_unit _ Hb)).
  cbv zeta. lra.
Qed.

(** X7.  The relative luminance lies between 0 and 1 and the contrast ratio
    never exceeds 21, for all inputs; white on black reaches 21 exactly,
    and an input that does not parse counts as black. *)
Theorem contrast_ratio_at_most_21 (hex1 hex2 : string) :
  0 <= getLuminance hex1 <= 1 /\
  getContrastRatio hex1 hex2 <= 21 /\
  getContrastRatio "#ffffff" "#000000" = 21 /\
  (hexToRgb hex2 = None -> getContrastRatio hex1 hex2 = getContrastRatio hex1 "#000000").
Proof.
  pose proof (getLuminance_range hex1) as H1.
  pose proof (getLuminance_range hex2) as H2.
  assert (Hblack : getLuminance "#000000" = 0).
  { unfold getLuminance. change (hexToRgb "#000000") with (Some (mkRgb 0 0 0)).
    cbv zeta; cbn [rgb_r rgb_g rgb_b]. unfold wcagGamma.
    destruct (Rle_dec (0 / 255) 0.03928); lra. }
  split; [exact H1 |]. split; [| split].
  - unfold getContrastRatio; cbv zeta.
    set (l1 := getLuminance hex1) in *. set (l2 := getLuminance hex2) in *.
    assert (Hmax : Rmax l1 l2 <= 1) by (apply Rmax_lub; lra).
    assert (Hmin : 0 <= Rmin l1 l2) by (apply Rmin_glb; lra).
    apply (Rmult_le_reg_r (Rmin l1 l2 + 0.05)); [lra |].
    unfold Rdiv. rewrite Rmult_assoc, Rinv_l by lra. lra.
  - unfold getContrastRatio; cbv zeta. rewrite getLuminance_white, Hblack.
    rewrite Rmax_left, Rmin_right by lra. lra.
  - intros Hnone. unfold getContrastRatio; cbv zeta. rewrite Hblack.
    unfold getLuminance at 2 4. now rewrite Hnone.
Qed.

Lemma labF_bounds (t : R) :
  0 <= t <= 1.0000001 -> 16 / 116 <= labF t <= 1.00000004.
Proof.
  intros Ht. unfold labF; cbv zeta.
  destruct (Rgt_dec t 0.008856) as [Hbig | Hsmall]; [| lra].
  pose proof (Rpower_third_cube t ltac:(lra)) as Hcube.
  pose proof (Rpower_pos t (1 / 3)) as Hpos.
  set (w := Rpower t (1 / 3)) in *.
  split.
  - destruct (Rle_dec (16 / 116) w) as [| Hn]; [assumption |].
    exfalso. assert (w ^ 3 <= (16 / 116) ^ 3) by (apply pow_incr; lra). lra.
  - destruct (Rle_dec w 1.00000004) as [| Hn]; [assumption |].
    exfalso. assert (1.00000004 ^ 3 <= w ^ 3) by (apply pow_incr; lra). lra.
Qed.

Lemma labGamma_unit (c : R) : 0 <= c <= 1 -> 0 <= labGamma c <= 1.
Proof.
  intros Hc. unfold labGamma. destruct (Rgt_dec c 0.04045).
  - split; [left; apply Rpower_pos |].
    rewrite <- (Rpower_1_l 2.4). apply Rle_Rpower_l; lra.
  - lra.
Qed.

(** X8.  For every triplet with channels in 0..255 the lightness [L] computed by
    [rgbToLab] lies between 0 and 100.00001; it is 0 for black. *)
Theorem lab_lightness_range (rgb : Rgb) :
  (0 <= rgb_r rgb <= 255 /\ 0 <= rgb_g rgb <= 255 /\ 0 <= rgb_b rgb <= 255)%Z ->
  0 <= lab_L (labOfRgb rgb) <= 100.00001 /\
  lab_L (labOfRgb (mkRgb 0 0 0)) = 0.
Proof.
  intros (Hr & Hg & Hb). split; [| now rewrite labOfRgb_black].
  unfold labOfRgb; cbv zeta; cbn [lab_L].
  pose proof (labGamma_unit _ (channel_unit _ Hr)) as Gr.
  pose proof (labGamma_unit _ (channel_unit _ Hg)) as Gg.
  pose proof (labGamma_unit _ (channel_unit _ Hb)) as Gb.
  match goal with |- _ <= 116 * labF ?y - 16 <= _ =>
    assert (Hy : 0 <= y <= 1.0000001) by lra;
    pose proof (labF_bounds y Hy) end.
  lra.
Qed.

Lemma lab_lightness_range_witness :
  0 <= lab_L (labOfRgb (mkRgb 255 255 255)) <= 100.00001 /\
  lab_L (labOfRgb (mkRgb 0 0 0)) = 0.
Proof.
  apply (lab_lightness_range (mkRgb 255 255 255)). cbn. lia.
Defined.

(** X9.  What the two tests of [compareColors] have to do with each other: two
    strings that pass the exact test denote the same triplet, two strings
    that denote the same triplet are at distance 0 and so pass the
    similarity test, and a string that does not parse is similar to
    nothing. *)
Theorem color_tests_agree (projColor refColor : string) :
  (colorExact projColor refColor = true -> hexToRgb projColor = hexToRgb refColor) /\
  (hexToRgb projColor = hexToRgb refColor -> hexToRgb projColor <> None ->
   deltaE projColor refColor = Fin 0 /\ colorNear projColor refColor = true) /\
  (hexToRgb projColor = None \/ hexToRgb refColor = None ->
   deltaE projColor refColor = Infinity /\ colorNear projColor refColor = false).
Proof.
  split; [| split].
  - unfold colorExact. intros H. apply String.eqb_eq in H.
    rewrite <- (hexToRgb_toLowerCase projColor), H.
    apply hexToRgb_toLowerCase.
  - intros Heq Hsome.
    destruct (hexToRgb projColor) as [c |] eqn:Hp; [| contradiction].
    symmetry in Heq.
    assert (Hd : deltaE2000 projColor refColor = Fin 0).
    { unfold deltaE2000; cbv zeta. rewrite Hp, Heq. cbn [rgbToLab].
      unfold deltaE2000_lab. now rewrite deltaE2000_radicand_same, sqrt_0. }
    unfold colorNear, deltaE. rewrite Hd. split; [reflexivity |].
    unfold numLtb. destruct (Rlt_dec 0 5); [reflexivity | lra].
  - intros Hnone. unfold colorNear, deltaE, deltaE2000; cbv zeta.
    destruct Hnone as [-> | ->]; [| destruct (hexToRgb projColor)]; split; reflexivity.
Qed.

Lemma color_tests_agree_witness :
  colorExact "#FFF" "#fff" = true /\ hexToRgb "#FFF" = hexToRgb "#fff".
Proof.
  split; [reflexivity |].
  apply (proj1 (color_tests_agree "#FFF" "#fff")). reflexivity.
Defined.

Lemma contrast_ratio_at_most_21_witness :
  hexToRgb "none" = None /\
  getContrastRatio "#767676" "none" = getContrastRatio "#767676" "#000000".
Proof.
  split; [reflexivity |].
  apply (proj2 (proj2 (proj2 (contrast_ratio_at_most_21 "#767676" "none")))). reflexivity.
Defined.

Local Close Scope R_scope.


(** ** Entries of the matching results *)

Section MatcherResults.

Variables V D : Type.
Variable strictEq : V -> V -> bool.
Variable near : V -> V -> bool.
Variable dist : V -> V -> D.
Variable sameValue : V -> V -> bool.

Local Abbreviation step := (matchOne strictEq near dist sameValue).
Local Abbreviation run := (matchAll strictEq near dist sameValue).

Lemma matchOne_justified (refs : list V) (st : MatchState V D) (proj : V) :
  Justified strictEq near dist refs st -> Justified strictEq near dist refs (step refs st proj).
Proof.
  intros (He & Hs & Hx). unfold matchOne.
  destruct (find (fun r => strictEq proj r) refs) as [r |] eqn:Hex.
  - apply find_some in Hex.
    split; [| split]; cbn [st_exact st_similar st_extra]; [| exact Hs | exact Hx].
    intros p r0 H. apply in_app_iff in H.
    destruct H as [H | [H | []]]; [now apply He |].
    injection H as <- <-. exact Hex.
  - pose proof (find_none _ _ Hex) as Hnone. cbn beta in Hnone.
    destruct (find (fun ref => negb (setHas sameValue (st_matchedRef st) ref)
                                 && near proj ref) refs) as [r |] eqn:Hnear.
    + apply find_some in Hnear. destruct Hnear as [Hin Hn].
      apply andb_true_iff in Hn. destruct Hn as [_ Hn].
      split; [| split]; cbn [st_exact st_similar st_extra]; [exact He | | exact Hx].
      intros p r0 d H. apply in_app_iff in H.
      destruct H as [H | [H | []]]; [now apply Hs |].
      injection H as <- <- <-. auto.
    + split; [| split]; cbn [st_exact st_similar st_extra]; [exact He | exact Hs |].
      intros p H. apply in_app_iff in H.
      destruct H as [H | [H | []]]; [now apply Hx | subst p; exact Hnone].
Qed.

Lemma fold_matchOne_justified (refs projs : list V) (st : MatchState V D) :
  Justified strictEq near dist refs st -> Justified strictEq near dist refs (fold_left (step refs) projs st).
Proof.
  revert st. induction projs as [| p t IH]; intros st H; cbn [fold_left]; [exact H |].
  apply IH, matchOne_justified, H.
Qed.

Lemma matchAll_justified (refs projs : list V) : Justified strictEq near dist refs (run refs projs).
Proof.
  apply fold_matchOne_justified. repeat split; cbn; intros; contradiction.
Qed.

Lemma matchOne_placed (refs : list V) (st : MatchState V D) (proj : V) :
  Permutation (proj :: placedProjects st) (placedProjects (step refs st proj)).
Proof.
  unfold matchOne, placedProjects.
  destruct (find (fun r => strictEq proj r) refs) as [r |];
    [| destruct (find _ refs) as [r |]]; cbn [st_exact st_similar st_extra].
  - rewrite map_app. cbn [map fst]. rewrite <- app_assoc. cbn [app].
    apply Permutation_middle.
  - rewrite map_app. cbn [map fst]. rewrite <- !app_assoc. cbn [app].
    rewrite app_assoc. rewrite (app_assoc (map fst (st_exact st))).
    apply Permutation_middle.
  - rewrite !app_assoc. apply Permutation_cons_append.
Qed.

Lemma fold_matchOne_placed (refs projs : list V) (st : MatchState V D) :
  Permutation (projs ++ placedProjects st)
              (placedProjects (fold_left (step refs) projs st)).
Proof.
  revert st. induction projs as [| p t IH]; intros st; cbn [fold_left app];
    [apply Permutation_refl |].
  etransitivity; [| apply IH].
  etransitivity; [apply Permutation_middle |].
  apply Permutation_app_head, matchOne_placed.
Qed.

Lemma matchAll_placed (refs projs : list V) :
  Permutation projs (placedProjects (run refs projs)).
Proof.
  pose proof (fold_matchOne_placed refs projs matchInit) as H.
  unfold placedProjects at 1 in H. cbn in H. now rewrite app_nil_r in H.
Qed.

End MatcherResults.

Section MatcherIdentity.

Variables V D : Type.
Variable strictEq : V -> V -> bool.
Variable near : V -> V -> bool.
Variable dist : V -> V -> D.
Variable sameValue : V -> V -> bool.

Hypothesis sameValue_sym : forall x y, sameValue x y = sameValue y x.
Hypothesis sameValue_trans :
  forall x y z, sameValue x y = true -> sameValue y z = true -> sameValue x z = true.

Local Abbreviation step := (matchOne strictEq near dist sameValue).

(** when every project value has an exact match that is the same value for
    the set of claimed references, everything is matched exactly and every
    project value ends up claimed *)
Lemma fold_matchOne_all_exact (refs projs : list V) (st : MatchState V D) :
  (forall p, In p projs ->
     exists r, find (fun ref => strictEq p ref) refs = Some r /\ sameValue p r = true) ->
  let st' := fold_left (step refs) projs st in
  st_similar st' = st_similar st /\ st_extra st' = st_extra st /\
  List.length (st_exact st') = (List.length (st_exact st) + List.length projs)%nat /\
  (forall x, setHas sameValue (st_matchedRef st) x = true \/ In x projs ->
             setHas sameValue (st_matchedRef st') x = true).
Proof.
  revert st. induction projs as [| p t IH]; intros st Hall; cbn [fold_left].
  - split; [reflexivity |]. split; [reflexivity |]. split; [cbn; lia |].
    intros x [H | []]. exact H.
  - destruct (Hall p (or_introl eq_refl)) as (r & Hfind & Hsame).
    specialize (IH (step refs st p) (fun q Hq => Hall q (or_intror Hq))).
    cbv zeta in IH. destruct IH as (Hs & Hx & Hl & Hm).
    assert (Hstep : step refs st p =
              mkMatchState (st_exact st ++ [(p, r)]) (st_similar st) (st_extra st)
                           (setAdd sameValue (st_matchedRef st) r)).
    { unfold matchOne. now rewrite Hfind. }
    rewrite Hstep in *. cbn [st_exact st_similar st_extra st_matchedRef] in *.
    split; [exact Hs |]. split; [exact Hx |]. split.
    + rewrite Hl, length_app. cbn. lia.
    + intros x Hcase. apply Hm.
      rewrite (has_add _ sameValue sameValue_trans).
      destruct Hcase as [H | [H | H]].
      * left. rewrite H. reflexivity.
      * subst x. left. rewrite Hsame. apply orb_true_r.
      * right. exact H.
Qed.

End MatcherIdentity.

Lemma lengthOr1_nonempty {A : Type} (l : list A) :
  l <> [] -> lengthOr1 l = Z.of_nat (List.length l) /\ (0 < List.length l)%nat.
Proof. destruct l; [contradiction |]. intros _. cbn [lengthOr1 List.length]. split; lia. Qed.

Lemma scoreOf_all_exact (n : nat) (w : Q) :
  (0 < n)%nat -> scoreOf (inject_Z (Z.of_nat n)) (inject_Z 0) w (Z.of_nat n) = 100%Z.
Proof.
  intros Hn. unfold scoreOf, mathRound.
  assert (Hne : ~ inject_Z (Z.of_nat n) == 0).
  { intros H. unfold Qeq in H. cbn in H. lia. }
  assert (Heq : (inject_Z (Z.of_nat n) + inject_Z 0 * w) / inject_Z (Z.of_nat n) * 100 + (1 # 2)
                == 201 # 2).
  { field. exact Hne. }
  rewrite Heq. reflexivity.
Qed.

Lemma scoreOf_none (w : Q) (total : Z) :
  (1 <= total)%Z -> scoreOf (inject_Z 0) (inject_Z 0) w total = 0%Z.
Proof.
  intros Ht. unfold scoreOf, mathRound.
  assert (Hne : ~ inject_Z total == 0).
  { intros H. unfold Qeq in H. cbn in H. lia. }
  assert (Heq : (inject_Z 0 + inject_Z 0 * w) / inject_Z total * 100 + (1 # 2) == 1 # 2).
  { field. exact Hne. }
  rewrite Heq. reflexivity.
Qed.

(** X10.  Every entry of the result of [compareColors] is justified: an exact
    match pairs a project colour with a reference colour equal to it up to
    case; a similar match pairs a project colour that equals no reference
    colour up to case with a reference colour at a distance below 5, both
    of which parse, and records that distance as [toFixed(2)] prints it; an
    extra colour equals no reference colour up to case. *)
Theorem compareColors_entries_justified
    (projectColors : list (string * string)) (referenceColors : Colors) :
  let res := compareColors projectColors referenceColors in
  let refs := allRefColors referenceColors in
  (forall p r, In (p, r) (exact res) ->
     In r refs /\ Js.toLowerCase p = Js.toLowerCase r) /\
  (forall p r d, In (p, r, d) (similar res) ->
     In r refs /\
     (exists x, deltaE2000 p r = Fin x /\ (0 <= x < 5)%R /\ d = toFixed2 x) /\
     hexToRgb p <> None /\ hexToRgb r <> None /\
     forall r', In r' refs -> Js.toLowerCase p <> Js.toLowerCase r') /\
  (forall p, In p (extra res) ->
     forall r', In r' refs -> Js.toLowerCase p <> Js.toLowerCase r').
Proof.
  intros res refs.
  destruct (matchAll_justified _ _ colorExact colorNear colorDist String.eqb refs
              (filter truthy (map snd projectColors))) as (He & Hs & Hx).
  assert (Hneq : forall p r', colorExact p r' = false ->
                 Js.toLowerCase p <> Js.toLowerCase r').
  { intros p r' H. unfold colorExact in H. now apply String.eqb_neq. }
  split; [| split].
  - intros p r Hin. destruct (He p r Hin) as [Hr Heq].
    split; [exact Hr |]. unfold colorExact in Heq. now apply String.eqb_eq.
  - intros p r d Hin. destruct (Hs p r d Hin) as (Hr & Hnear & Hd & Hno).
    split; [exact Hr |].
    unfold colorNear, numLtb in Hnear. subst d. unfold colorDist, deltaE in *.
    destruct (deltaE2000 p r) as [x |] eqn:Hdist; [| discriminate].
    destruct (Rlt_dec x 5) as [Hlt | ]; [| discriminate].
    unfold deltaE2000 in Hdist; cbv zeta in Hdist.
    destruct (hexToRgb p) as [cp |], (hexToRgb r) as [cr |];
      cbn [rgbToLab] in Hdist; try discriminate.
    injection Hdist as <-.
    split; [eexists; split; [reflexivity | split; [split; [apply sqrt_pos | exact Hlt] |
                                                   reflexivity]] |].
    split; [discriminate |]. split; [discriminate |].
    intros r' Hr'. apply Hneq, Hno, Hr'.
  - intros p Hin r' Hr'. apply Hneq. exact (Hx p Hin r' Hr').
Qed.

(** X11.  Every entry of the result of [compareSpacing] is justified, in
    binary64 arithmetic: an exact match pairs two numbers that are [===],
    neither of them [NaN]; a close match pairs two finite numbers, the
    project value being [===] to no reference value, for which the rounded
    result of [Math.abs(proj - ref)] is at most 2, and it records that
    result; an extra value is [===] to no reference value. *)
Theorem compareSpacing_entries_justified (projScale refScale : list SNum) :
  let res := compareSpacing projScale refScale in
  (forall p r, In (p, r) (exact res) ->
     In r refScale /\ SFeqb p r = true /\ p <> S754_nan /\ r <> S754_nan) /\
  (forall p r d, In (p, r, d) (similar res) ->
     In r refScale /\
     snumIsFinite p = true /\ snumIsFinite r = true /\
     d = SFabs (SFsub 53 1024 p r) /\
     SFleb d (numOfZ 2) = true /\
     forall r', In r' refScale -> SFeqb p r' = false) /\
  (forall p, In p (extra res) ->
     forall r', In r' refScale -> SFeqb p r' = false).
Proof.
  intros res.
  destruct (matchAll_justified _ _ snumStrictEq snumNear snumDiff snumSameValue refScale
              projScale) as (He & Hs & Hx).
  split; [| split].
  - intros p r Hin. destruct (He p r Hin) as [Hr Heq]. split; [exact Hr |].
    unfold snumStrictEq in Heq. split; [exact Heq |].
    apply SFeqb_true_iff in Heq.
    split; intros ->; [| destruct p]; contradiction.
  - intros p r d Hin. destruct (Hs p r d Hin) as (Hr & Hnear & Hd & Hno).
    split; [exact Hr |].
    destruct (snumNear_finite p r Hnear) as [Hp Hrf].
    split; [exact Hp |]. split; [exact Hrf |]. split; [exact Hd |].
    split; [rewrite Hd; exact Hnear |]. exact Hno.
  - intros p Hin r' Hr'. exact (Hx p Hin r' Hr').
Qed.

(** X12.  No project value is lost or counted twice: the project values found in
    the three lists [exact], [similar] and [extra] are, together, exactly
    the project values that were compared, for colours and for spacing. *)
Theorem project_values_partitioned :
  (forall projectColors referenceColors,
     Permutation (filter truthy (map snd projectColors))
                 (resultProjects (compareColors projectColors referenceColors))) /\
  (forall projScale refScale,
     Permutation projScale (resultProjects (compareSpacing projScale refScale))).
Proof.
  split; intros.
  - exact (matchAll_placed _ _ colorExact colorNear colorDist String.eqb
             (allRefColors referenceColors) (filter truthy (map snd projectColors))).
  - exact (matchAll_placed _ _ snumStrictEq snumNear snumDiff snumSameValue
             refScale projScale).
Qed.

Lemma find_exists {A : Type} (f : A -> bool) (l : list A) (x : A) :
  In x l -> f x = true -> exists y, find f l = Some y.
Proof.
  intros Hin Hf. destruct (find f l) as [y |] eqn:H; [eauto |].
  pose proof (find_none _ _ H x Hin). congruence.
Qed.

Lemma missingOf_all_claimed {V D : Type} (sameValue : V -> V -> bool)
      (refs : list V) (st : MatchState V D) :
  (forall x, In x refs -> setHas sameValue (st_matchedRef st) x = true) ->
  missingOf sameValue refs st = [].
Proof.
  intros H. unfold missingOf.
  induction refs as [| r t IH]; [reflexivity |]. cbn [filter].
  rewrite (H r (or_introl eq_refl)). cbn. apply IH.
  intros x Hx. apply H. now right.
Qed.

(** X13.  A spacing scale of finite numbers compared with itself: every value is
    an exact match, nothing is close, missing or extra, and the score is
    100, or 0 when the scale is empty. *)
Theorem compareSpacing_same_scale (scale : list SNum) :
  forallb snumIsFinite scale = true ->
  let res := compareSpacing scale scale in
  List.length (exact res) = List.length scale /\
  similar res = [] /\ missing res = [] /\ extra res = [] /\
  score res = match scale with [] => 0%Z | _ => 100%Z end.
Proof.
  intros Hfin res.
  assert (Hall : forall p, In p scale ->
            exists r, find (fun ref => snumStrictEq p ref) scale = Some r /\
                      snumSameValue p r = true).
  { intros p Hp. rewrite forallb_forall in Hfin. specialize (Hfin p Hp).
    destruct (find_exists (fun ref => snumStrictEq p ref) scale p Hp) as [r Hr].
    { apply SFeqb_refl. intros ->. discriminate Hfin. }
    exists r. split; [exact Hr |].
    apply find_some in Hr. destruct Hr as [_ Hr].
    unfold snumStrictEq in Hr. unfold snumSameValue.
    destruct p, r; try exact Hr; reflexivity. }
  destruct (fold_matchOne_all_exact _ _ snumStrictEq snumNear snumDiff snumSameValue
              snumSameValue_trans scale scale matchInit Hall) as (Hs & Hx & Hl & Hm).
  fold (matchAll snumStrictEq snumNear snumDiff snumSameValue scale scale) in Hs, Hx, Hl, Hm.
  fold (spacingLoop scale scale) in Hs, Hx, Hl, Hm.
  cbn [matchInit st_exact st_similar st_extra List.length Nat.add] in Hs, Hx, Hl.
  subst res. unfold compareSpacing; cbv zeta; cbn [exact similar missing extra score].
  split; [exact Hl |]. split; [exact Hs |]. split; [| split; [exact Hx |]].
  - apply missingOf_all_claimed. intros x Hin. apply Hm. now right.
  - rewrite Hs. unfold lengthQ. rewrite Hl. cbn [List.length].
    destruct scale as [| v t] eqn:Hscale.
    + reflexivity.
    + rewrite <- Hscale.
      destruct (lengthOr1_nonempty scale) as [-> Hpos]; [congruence |].
      now apply scoreOf_all_exact.
Qed.

Lemma compareSpacing_same_scale_witness :
  let scale := [numOfZ 4; numOfZ 8; numOfDecimal 15 1] in
  let res := compareSpacing scale scale in
  List.length (exact res) = 3%nat /\
  similar res = [] /\ missing res = [] /\ extra res = [] /\ score res = 100%Z.
Proof.
  apply (compareSpacing_same_scale [numOfZ 4; numOfZ 8; numOfDecimal 15 1]). reflexivity.
Defined.

Lemma setHas_string_In (s : list string) (v : string) :
  setHas String.eqb s v = true <-> In v s.
Proof.
  unfold setHas. rewrite existsb_exists. split.
  - intros (x & Hx & Heq). apply String.eqb_eq in Heq. now subst.
  - intros H. exists v. split; [exact H | apply String.eqb_refl].
Qed.

Lemma fold_setAdd_spec (l acc : list string) :
  NoDup acc ->
  NoDup (fold_left (setAdd String.eqb) l acc) /\
  forall x, In x (fold_left (setAdd String.eqb) l acc) <-> In x acc \/ In x l.
Proof.
  revert acc. induction l as [| v t IH]; intros acc Hnd; cbn [fold_left].
  - split; [exact Hnd |]. intros x. cbn. tauto.
  - assert (Hstep : NoDup (setAdd String.eqb acc v) /\
                    forall x, In x (setAdd String.eqb acc v) <-> In x acc \/ x = v).
    { unfold setAdd. destruct (setHas String.eqb acc v) eqn:Hhas.
      - apply setHas_string_In in Hhas. split; [exact Hnd |].
        intros x. split; [tauto | intros [H | ->]; assumption].
      - assert (Hnot : ~ In v acc).
        { intros H. apply setHas_string_In in H. congruence. }
        split.
        + apply NoDup_app; [exact Hnd | repeat constructor; intros [] |].
          intros x Hx [<- | []]. contradiction.
        + intros x. rewrite in_app_iff. cbn. intuition. }
    destruct Hstep as [Hnd' Hin'].
    destruct (IH _ Hnd') as [H1 H2]. split; [exact H1 |].
    intros x. rewrite H2, Hin'. cbn. intuition.
Qed.

(** X14.  The reference colours that are compared are pairwise different and
    never empty, and they are exactly the non-empty values of the palette
    and of the four semantic lists; the missing list therefore never names
    a colour twice. *)
Theorem allRefColors_distinct (referenceColors : Colors)
                              (projectColors : list (string * string)) :
  NoDup (allRefColors referenceColors) /\
  (forall c, In c (allRefColors referenceColors) <->
     c <> EmptyString /\
     In c (palette referenceColors ++ backgrounds referenceColors ++
           text referenceColors ++ borders referenceColors ++
           accents referenceColors)) /\
  NoDup (missing (compareColors projectColors referenceColors)) /\
  incl (missing (compareColors projectColors referenceColors))
       (allRefColors referenceColors).
Proof.
  unfold allRefColors; cbv zeta. unfold dedupe.
  set (l := palette referenceColors ++ _).
  destruct (fold_setAdd_spec l [] (NoDup_nil _)) as [Hnd Hin].
  assert (Hnd' : NoDup (filter truthy (fold_left (setAdd String.eqb) l []))).
  { apply NoDup_filter. exact Hnd. }
  split; [exact Hnd' |]. split; [| split].
  - intros c. rewrite filter_In, Hin. split.
    + intros [[[] | H] Ht]. split; [| exact H]. intros ->. discriminate.
    + intros [Hne H]. split; [now right |]. destruct c; [contradiction | reflexivity].
  - unfold compareColors; cbv zeta; cbn [missing]. unfold missingOf.
    apply NoDup_filter. exact Hnd'.
  - unfold compareColors; cbv zeta; cbn [missing]. unfold missingOf.
    intros x Hx. apply filter_In in Hx. tauto.
Qed.

Lemma NoDup_map_injective {A B : Type} (f : A -> B) (l : list A) (x y : A) :
  NoDup (map f l) -> In x l -> In y l -> f x = f y -> x = y.
Proof.
  induction l as [| a t IH]; [contradiction |].
  cbn [map]. intros Hnd Hx Hy Heq. inversion Hnd as [| ? ? Hnotin Hnd']; subst.
  destruct Hx as [-> | Hx], Hy as [-> | Hy]; auto.
  - exfalso. apply Hnotin. rewrite Heq. now apply in_map.
  - exfalso. apply Hnotin. rewrite <- Heq. now apply in_map.
Qed.

(** X15.  A project whose colour values are exactly the reference colours, none
    of which differs from another only in case: every colour is an exact
    match, nothing is similar, missing or extra, and the score is 100, or 0
    when there is no reference colour. *)
Theorem compareColors_same_palette
    (projectColors : list (string * string)) (referenceColors : Colors) :
  filter truthy (map snd projectColors) = allRefColors referenceColors ->
  NoDup (map Js.toLowerCase (allRefColors referenceColors)) ->
  let res := compareColors projectColors referenceColors in
  List.length (exact res) = List.length (allRefColors referenceColors) /\
  similar res = [] /\ missing res = [] /\ extra res = [] /\
  score res = match allRefColors referenceColors with [] => 0%Z | _ => 100%Z end.
Proof.
  intros Hsame Hcase res. subst res. unfold compareColors; cbv zeta.
  rewrite Hsame. set (refs := allRefColors referenceColors) in *.
  assert (Hall : forall p, In p refs ->
            exists r, find (fun ref => colorExact p ref) refs = Some r /\
                      String.eqb p r = true).
  { intros p Hp.
    destruct (find_exists (fun ref => colorExact p ref) refs p Hp) as [r Hr].
    { unfold colorExact. apply String.eqb_refl. }
    exists r. split; [exact Hr |].
    apply find_some in Hr. destruct Hr as [Hin Hr].
    unfold colorExact in Hr. apply String.eqb_eq in Hr.
    apply String.eqb_eq. exact (NoDup_map_injective _ _ _ _ Hcase Hp Hin Hr). }
  destruct (fold_matchOne_all_exact _ _ colorExact colorNear colorDist String.eqb
              string_eqb_trans refs refs matchInit Hall) as (Hs & Hx & Hl & Hm).
  fold (matchAll colorExact colorNear colorDist String.eqb refs refs) in Hs, Hx, Hl, Hm.
  fold (colorLoop refs refs) in Hs, Hx, Hl, Hm.
  cbn [matchInit st_exact st_similar st_extra List.length Nat.add] in Hs, Hx, Hl.
  cbn [exact similar missing extra score].
  split; [exact Hl |]. split; [exact Hs |]. split; [| split; [exact Hx |]].
  - apply missingOf_all_claimed. intros x Hin. apply Hm. now right.
  - rewrite Hs. unfold lengthQ. rewrite Hl. cbn [List.length].
    destruct refs as [| v t] eqn:Hrefs.
    + reflexivity.
    + rewrite <- Hrefs.
      destruct (lengthOr1_nonempty refs) as [-> Hpos]; [congruence |].
      now apply scoreOf_all_exact.
Qed.

Lemma compareColors_same_palette_witness :
  let res := compareColors [("ink", "#000000"); ("paper", "#ffffff")]%string
                           (mkColors ["#000000"; "#ffffff"; "#000000"]%string [] [] [] []) in
  List.length (exact res) = 2%nat /\
  similar res = [] /\ missing res = [] /\ extra res = [] /\ score res = 100%Z.
Proof.
  apply (compareColors_same_palette [("ink", "#000000"); ("paper", "#ffffff")]%string
           (mkColors ["#000000"; "#ffffff"; "#000000"]%string [] [] [] [])).
  - reflexivity.
  - vm_compute. repeat constructor; cbn; intuition discriminate.
Defined.

Lemma fold_matchOne_no_refs {V D : Type} (strictEq near : V -> V -> bool)
      (dist : V -> V -> D) (sameValue : V -> V -> bool)
      (projs : list V) (st : MatchState V D) :
  fold_left (matchOne strictEq near dist sameValue []) projs st =
  mkMatchState (st_exact st) (st_similar st) (st_extra st ++ projs) (st_matchedRef st).
Proof.
  revert st. induction projs as [| p t IH]; intros st; cbn [fold_left].
  - rewrite app_nil_r. now destruct st.
  - rewrite IH. cbn. now rewrite <- app_assoc.
Qed.

Lemma filter_all {A : Type} (f : A -> bool) (l : list A) :
  (forall x, In x l -> f x = true) -> filter f l = l.
Proof.
  induction l as [| a t IH]; [reflexivity |]. intros H. cbn.
  rewrite (H a (or_introl eq_refl)). f_equal. apply IH. intros x Hx. apply H. now right.
Qed.

(** X16.  The two empty cases.  Without reference values nothing can match:
    every project value is extra and the score is 0.  Without project
    values every reference value is missing and the score is 0. *)
Theorem empty_side_scores_zero :
  (forall projectColors referenceColors,
     allRefColors referenceColors = [] ->
     compareColors projectColors referenceColors =
     mkCategoryResult [] [] [] (filter truthy (map snd projectColors)) 0) /\
  (forall referenceColors,
     compareColors [] referenceColors =
     mkCategoryResult [] [] (allRefColors referenceColors) [] 0) /\
  (forall projScale,
     compareSpacing projScale [] = mkCategoryResult [] [] [] projScale 0) /\
  (forall refScale,
     compareSpacing [] refScale = mkCategoryResult [] [] refScale [] 0).
Proof.
  split; [| split; [| split]].
  - intros pc rc Hempty. unfold compareColors; cbv zeta. rewrite Hempty.
    unfold colorLoop, matchAll. rewrite fold_matchOne_no_refs. reflexivity.
  - intros rc. unfold compareColors; cbv zeta. cbn [map filter].
    unfold colorLoop, matchAll. cbn [fold_left matchInit st_exact st_similar st_extra].
    unfold missingOf. cbn [st_matchedRef setHas existsb negb].
    rewrite filter_all by reflexivity.
    unfold lengthQ. cbn [List.length]. f_equal.
    apply scoreOf_none. destruct (allRefColors rc); cbn; lia.
  - intros ps. unfold compareSpacing; cbv zeta.
    unfold spacingLoop, matchAll. rewrite fold_matchOne_no_refs. reflexivity.
  - intros rs. unfold compareSpacing; cbv zeta.
    unfold spacingLoop, matchAll. cbn [fold_left matchInit st_exact st_similar st_extra].
    unfold missingOf. cbn [st_matchedRef setHas existsb negb].
    rewrite filter_all by reflexivity.
    unfold lengthQ. cbn [List.length]. f_equal.
    apply scoreOf_none. destruct rs; cbn; lia.
Qed.


(** ** The report *)

(** X17.  The overall score lies between the smallest and the largest of the four
    category scores. *)
Theorem overallScore_between (colors typography spacing borderRadius lo hi : Z) :
  (lo <= colors <= hi)%Z -> (lo <= typography <= hi)%Z ->
  (lo <= spacing <= hi)%Z -> (lo <= borderRadius <= hi)%Z ->
  (lo <= overallScore colors typography spacing borderRadius <= hi)%Z.
Proof.
  intros Hc Ht Hs Hb. unfold overallScore, mathRound.
  set (sum := (colors + typography + spacing + borderRadius)%Z).
  assert (Hlo : (inject_Z lo <= inject_Z sum / 4)%Q).
  { apply Qle_shift_div_l; [reflexivity |].
    change 4%Q with (inject_Z 4). rewrite <- inject_Z_mult, <- Zle_Qle. unfold sum. lia. }
  assert (Hhi : (inject_Z sum / 4 <= inject_Z hi)%Q).
  { apply Qle_shift_div_r; [reflexivity |].
    change 4%Q with (inject_Z 4). rewrite <- inject_Z_mult, <- Zle_Qle. unfold sum. lia. }
  split.
  - rewrite <- (Qfloor_Z lo). apply Qfloor_resp_le. lra.
  - pose proof (Qfloor_le (inject_Z sum / 4 + (1 # 2))) as Hfl.
    assert (Hlt : (inject_Z (Qfloor (inject_Z sum / 4 + (1 # 2))) < inject_Z (hi + 1))%Q).
    { rewrite inject_Z_plus. change (inject_Z 1) with 1%Q. lra. }
    rewrite <- Zlt_Qlt in Hlt. lia.
Qed.

Lemma overallScore_between_witness :
  (0 <= overallScore 100 50 33 0 <= 100)%Z.
Proof.
  apply (overallScore_between 100 50 33 0 0 100); lia.
Defined.

(** X18.  The recommendations are numbered 1, 2, 3, ... without gaps and come in
    the fixed order colours, fonts, spacing, radius, accessibility; a
    category gets one exactly when its status in the score table is not
    the pass mark, accessibility exactly when the audit has an error; so
    the list is empty exactly when the four scores are at least 80 and
    there is no contrast error. *)
Theorem recommendations_numbered_in_order
    (colors : CategoryResult string string)
    (typography : MatchedResult (string * string) string)
    (spacing : CategoryResult SNum SNum)
    (borderRadius : MatchedResult SNum SNum)
    (audit : option Audit) :
  let recs := recommendations colors typography spacing borderRadius audit in
  let kinds := map (fun r => recPriority (rec_kind r)) recs in
  map rec_number recs = seq 1 (List.length recs) /\
  StronglySorted lt kinds /\
  (In 0%nat kinds <-> statusOf (score colors) <> StatusPass) /\
  (In 1%nat kinds <-> statusOf (m_score typography) <> StatusPass) /\
  (In 2%nat kinds <-> statusOf (score spacing) <> StatusPass) /\
  (In 3%nat kinds <-> statusOf (m_score borderRadius) <> StatusPass) /\
  (In 4%nat kinds <-> (0 < errorCount audit)%nat) /\
  (recs = [] <->
   (80 <= score colors /\ 80 <= m_score typography /\ 80 <= score spacing /\
    80 <= m_score borderRadius)%Z /\ errorCount audit = 0%nat).
Proof.
  cbv zeta. unfold recommendations, statusOf, pushRec.
  destruct (Z.ltb_spec (score colors) 80) as [Hc | Hc];
  destruct (Z.ltb_spec (m_score typography) 80) as [Ht | Ht];
  destruct (Z.ltb_spec (score spacing) 80) as [Hs | Hs];
  destruct (Z.ltb_spec (m_score borderRadius) 80) as [Hb | Hb];
  destruct (Nat.ltb_spec 0 (errorCount audit)) as [He | He];
  repeat match goal with
         | |- context [(80 <=? ?x)%Z] =>
             destruct (Z.leb_spec 80 x); [| destruct (Z.leb_spec 50 x)]; try lia
         end;
  cbn [app map rec_number rec_kind recPriority List.length seq Nat.add];
  (split; [reflexivity |]);
  (split; [repeat constructor |]);
  repeat split; cbn [In]; try (intros; lia); try (intros; discriminate);
    try (intros [|]; discriminate || lia || tauto || contradiction);
    try (intros _; tauto); try tauto; try congruence;
    try (intros H; exfalso; intuition (lia || discriminate)).
Qed.


(** ** The accessibility audit *)

Lemma Rgeb_true (x y : R) : Rgeb x y = true <-> (x >= y)%R.
Proof. unfold Rgeb. destruct (Rge_dec x y); split; auto; discriminate. Qed.






Local Open Scope R_scope.

(** The printed ratio can sit on the other side of a threshold: the accent
    [#959595] on white has a contrast ratio just below 3, so it is warned
    about, and the entry carries the ratio [3.00]. *)
Lemma accent_959595_on_white_prints_3_00 :
  let a := auditAccessibility
             (mkColors [] ["#ffffff"%string] [] [] ["#959595"%string]) in
  let w := checkWCAG "#959595" "#ffffff" in
  2.995 <= getContrastRatio "#959595" "#ffffff" < 3 /\
  ratio w = "3.00"%string /\
  issues a = [mkIssue SevWarning AccentHardToSee (mkCombo "#959595" "#ffffff" w)].
Proof.
  cbv zeta.
  set (g := Rpower ((149 / 255 + 0.055) / 1.055) 2.4).
  assert (Hg : 0.3 < g < 0.30058).
  { assert (Hx : 0 < (149 / 255 + 0.055) / 1.055) by lra.
    pose proof (Rpower_2_4_pow5 _ Hx) as H5. fold g in H5.
    assert (Hpos : 0 < g) by (unfold g, Rpower; apply exp_pos).
    split; apply pow5_lt_inv; try lra; rewrite ?H5; lra. }
  assert (Hlum : getLuminance "#959595" = g).
  { unfold getLuminance. simpl hexToRgb. cbv zeta. cbn [rgb_r rgb_g rgb_b].
    unfold wcagGamma.
    destruct (Rle_dec (149 / 255) 0.03928) as [H | _]; [lra |].
    fold g. lra. }
  assert (Hr : 2.995 <= getContrastRatio "#959595" "#ffffff" < 3).
  { unfold getContrastRatio; cbv zeta.
    rewrite getLuminance_white, Hlum.
    rewrite Rmax_right, Rmin_left by lra.
    split.
    - apply (Rmult_le_reg_r (g + 0.05)); [lra |].
      unfold Rdiv. rewrite Rmult_assoc, Rinv_l by lra. lra.
    - apply (Rmult_lt_reg_r (g + 0.05)); [lra |].
      unfold Rdiv. rewrite Rmult_assoc, Rinv_l by lra. lra. }
  split; [exact Hr |].
  split.
  { cbn [checkWCAG ratio]. rewrite (toFixed2_cell _ 300); [reflexivity | lra | lia | lra]. }
  assert (HUI : AA_uiComponents (checkWCAG "#959595" "#ffffff") = false).
  { cbn [checkWCAG AA_uiComponents]. unfold Rgeb.
    destruct (Rge_dec (getContrastRatio "#959595" "#ffffff") 3); [lra | reflexivity]. }
  unfold auditAccessibility; cbv zeta.
  cbn [backgrounds text accents firstn fold_left].
  unfold auditAccent. cbn [truthy negb orb]. cbv zeta.
  rewrite HUI. reflexivity.
Qed.

Local Close Scope R_scope.

(** The audit looks at the first three backgrounds, the first three text
    colours and the first two accents only; the palette, the borders and
    every later entry have no influence on it. *)
Theorem auditAccessibility_ignores_rest (colors : Colors) :
  auditAccessibility colors =
  auditAccessibility
    (mkColors [] (firstn 3 (backgrounds colors)) (firstn 3 (text colors)) []
              (firstn 2 (accents colors))).
Proof.
  unfold auditAccessibility; cbv zeta. cbn [backgrounds text accents].
  rewrite !firstn_firstn. reflexivity.
Qed.

(** X20.  The verdicts of [checkWCAG] are nested: what passes AAA for normal text
    passes everything, AAA for large text is the same test as AA for normal
    text, and what passes it passes AA for large text and for UI
    components, which are one test.  Swapping foreground and background
    changes nothing. *)
Theorem checkWCAG_levels_nested (foreground background : string) :
  let w := checkWCAG foreground background in
  (AAA_normalText w = true -> AA_normalText w = true) /\
  AAA_largeText w = AA_normalText w /\
  (AA_normalText w = true -> AA_largeText w = true) /\
  AA_uiComponents w = AA_largeText w /\
  checkWCAG background foreground = w.
Proof.
  cbv zeta. unfold checkWCAG; cbv zeta;
    cbn [AAA_normalText AA_normalText AAA_largeText AA_largeText AA_uiComponents].
  set (x := getContrastRatio foreground background).
  split; [| split; [reflexivity | split; [| split; [reflexivity |]]]].
  - rewrite !Rgeb_true. lra.
  - rewrite !Rgeb_true. lra.
  - assert (Hsym : getContrastRatio background foreground = x).
    { unfold x, getContrastRatio; cbv zeta.
      now rewrite (Rmax_comm (getLuminance background)),
                  (Rmin_comm (getLuminance background)). }
    now rewrite Hsym.
Qed.

(** X21.  Every triplet that [hexToRgb] returns has its three channels between 0
    and 255. *)
Theorem hexToRgb_channels_are_bytes (hex : string) (rgb : Rgb) :
  hexToRgb hex = Some rgb ->
  (0 <= rgb_r rgb <= 255 /\ 0 <= rgb_g rgb <= 255 /\ 0 <= rgb_b rgb <= 255)%Z.
Proof. apply hexToRgb_range. Qed.

Lemma hexToRgb_channels_are_bytes_witness :
  hexToRgb "#fA0" = Some (mkRgb 255 170 0) /\
  (0 <= rgb_r (mkRgb 255 170 0) <= 255 /\ 0 <= rgb_g (mkRgb 255 170 0) <= 255 /\
   0 <= rgb_b (mkRgb 255 170 0) <= 255)%Z.
Proof.
  split; [reflexivity |].
  exact (hexToRgb_channels_are_bytes "#fA0" (mkRgb 255 170 0) eq_refl).
Defined.


(** ** Typography *)

Lemma prefix_refl (s : string) : prefix s s = true.
Proof.
  induction s as [| c t IH]; [reflexivity |]. cbn.
  destruct (ascii_dec c c); [exact IH | contradiction].
Qed.

Lemma includes_refl (s : string) : Js.includes s s = true.
Proof. destruct s; cbn [Js.includes]; now rewrite prefix_refl. Qed.

Lemma includes_empty (s : string) : Js.includes s EmptyString = true.
Proof. destruct s; reflexivity. Qed.

Lemma fontMatches_refl (s : string) : fontMatches s s = true.
Proof. unfold fontMatches. now rewrite includes_refl. Qed.

Lemma toLowerCase_truthy (s : string) : truthy (Js.toLowerCase s) = truthy s.
Proof. destruct s; reflexivity. Qed.

(** the loop of [compareTypography] over the project fonts *)
Lemma typography_fold_spec (refFonts projFonts : list string)
      (acc : list (string * string) * list string) :
  let step := fun (acc : list (string * string) * list string) (proj : string) =>
        match find (fontMatches proj) refFonts with
        | Some m => if truthy m then (fst acc ++ [(proj, m)], snd acc)
                    else (fst acc, snd acc ++ [proj])
        | None => (fst acc, snd acc ++ [proj])
        end in
  let res := fold_left step projFonts acc in
  (List.length (fst res) + List.length (snd res) =
   List.length projFonts + (List.length (fst acc) + List.length (snd acc)))%nat /\
  ((forall pm, In pm (fst acc) ->
      In (snd pm) refFonts /\ fontMatches (fst pm) (snd pm) = true /\ snd pm <> EmptyString) ->
   forall pm, In pm (fst res) ->
      In (snd pm) refFonts /\ fontMatches (fst pm) (snd pm) = true /\ snd pm <> EmptyString) /\
  ((forall p, In p projFonts ->
      exists m, find (fontMatches p) refFonts = Some m /\ truthy m = true) ->
   snd res = snd acc) /\
  ((forall p, In p projFonts ->
      exists m, find (fontMatches p) refFonts = Some m /\ truthy m = false) ->
   fst res = fst acc /\ snd res = snd acc ++ projFonts).
Proof.
  cbv zeta. revert acc. induction projFonts as [| p t IH]; intros acc; cbn [fold_left].
  - split; [cbn; lia |]. split; [auto |]. split; [auto |].
    intros _. split; [reflexivity | now rewrite app_nil_r].
  - match goal with |- context [fold_left ?f t ?a] => specialize (IH a) end.
    destruct IH as (Hl & Hj & Hall & Hnone).
    split; [| split; [| split]].
    + rewrite Hl. cbn [List.length].
      destruct (find (fontMatches p) refFonts) as [m |]; [destruct (truthy m) |];
        cbn [fst snd]; rewrite ?length_app; cbn; lia.
    + intros Hacc. apply Hj.
      destruct (find (fontMatches p) refFonts) as [m |] eqn:Hf;
        [destruct (truthy m) eqn:Ht |]; cbn [fst snd]; try exact Hacc.
      intros pm Hin. apply in_app_iff in Hin. destruct Hin as [Hin | [<- | []]];
        [now apply Hacc |].
      apply find_some in Hf. cbn [fst snd]. destruct Hf as [Hin Hm].
      repeat split; auto. intros ->. discriminate.
    + intros Hp.
      destruct (Hp p (or_introl eq_refl)) as (m & Hf & Ht).
      rewrite Hall by (intros q Hq; apply Hp; now right).
      now rewrite Hf, Ht.
    + intros Hp.
      destruct (Hp p (or_introl eq_refl)) as (m & Hf & Ht).
      destruct Hnone as [H1 H2]; [intros q Hq; apply Hp; now right |].
      rewrite H1, H2, Hf, Ht. cbn [fst snd]. split; [reflexivity |].
      now rewrite <- app_assoc.
Qed.

(** X22.  [compareTypography]: every project font is either matched or extra; a
    match names a non-empty reference font, in lower case, that contains
    the project font, is contained in it, or shares its first word; every
    missing font is a reference font in lower case. *)
Theorem compareTypography_entries_justified (projectFonts fontFamilies : list string) :
  let res := compareTypography projectFonts fontFamilies in
  (List.length (matched res) + List.length (m_extra res) = List.length projectFonts)%nat /\
  (forall p m, In (p, m) (matched res) ->
     In m (map Js.toLowerCase fontFamilies) /\ m <> EmptyString /\
     (Js.includes m p = true \/ Js.includes p m = true \/
      Js.firstWord m = Js.firstWord p)) /\
  incl (m_missing res) (map Js.toLowerCase fontFamilies).
Proof.
  cbv zeta. unfold compareTypography; cbv zeta; cbn [matched m_extra m_missing].
  destruct (typography_fold_spec (map Js.toLowerCase fontFamilies)
              (map Js.toLowerCase projectFonts) ([], [])) as (Hl & Hj & _ & _).
  cbv zeta in Hl, Hj. cbn [fst snd List.length] in Hl.
  split; [rewrite Hl, length_map; lia |]. split.
  - intros p m Hin. destruct (Hj (fun pm H => match H with end) (p, m) Hin) as (H1 & H2 & H3).
    cbn [fst snd] in *. split; [exact H1 |]. split; [exact H3 |].
    unfold fontMatches in H2.
    apply orb_true_iff in H2. destruct H2 as [H2 | H2].
    + apply orb_true_iff in H2. tauto.
    + right. right. now apply String.eqb_eq.
  - intros x Hx. apply filter_In in Hx. tauto.
Qed.

(** X23.  Two quirks of the font matching.  A font list compared with itself
    matches every font when no name is empty (score 100).  An empty
    family name at the head of the reference list is found first for
    every project font and then discarded, so nothing is matched at all
    and the score is 0. *)
Theorem compareTypography_same_and_empty_name (fonts projectFonts rest : list string) :
  (forallb truthy fonts = true ->
   let res := compareTypography fonts fonts in
   List.length (matched res) = List.length fonts /\ m_extra res = [] /\
   m_score res = match fonts with [] => 0%Z | _ => 100%Z end) /\
  (let res := compareTypography projectFonts (EmptyString :: rest) in
   matched res = [] /\ m_extra res = map Js.toLowerCase projectFonts /\ m_score res = 0%Z).
Proof.
  split.
  - intros Hne. cbv zeta.
    destruct fonts as [| f0 t0]; [repeat split; reflexivity |].
    set (fonts := f0 :: t0) in *.
    change (match fonts with [] => 0%Z | _ => 100%Z end) with 100%Z.
    unfold compareTypography; cbv zeta; cbn [matched m_extra m_score].
    set (lf := map Js.toLowerCase fonts).
    assert (Hlf : forall p, In p lf -> truthy p = true).
    { intros p Hp. unfold lf in Hp. apply in_map_iff in Hp. destruct Hp as (x & <- & Hx).
      rewrite toLowerCase_truthy. rewrite forallb_forall in Hne. now apply Hne. }
    destruct (typography_fold_spec lf lf ([], [])) as (Hl & _ & Hall & _).
    cbv zeta in Hl, Hall.
    match type of Hl with context [fold_left ?f lf ?a] => set (res := fold_left f lf a) in * end.
    assert (Hextra : snd res = []).
    { apply Hall. intros p Hp.
      destruct (find (fontMatches p) lf) as [m |] eqn:Hf.
      - exists m. split; [reflexivity |]. apply find_some in Hf. apply Hlf, Hf.
      - pose proof (find_none _ _ Hf p Hp) as Hno. rewrite fontMatches_refl in Hno.
        discriminate. }
    rewrite Hextra in Hl. cbn [fst snd List.length] in Hl.
    assert (Hlen : List.length (fst res) = List.length lf) by lia.
    split; [rewrite Hlen; unfold lf; now rewrite length_map |].
    split; [exact Hextra |].
    unfold lengthQ. rewrite Hlen.
    destruct (lengthOr1_nonempty lf) as [-> Hpos].
    { unfold lf, fonts. discriminate. }
    pose proof (scoreOf_all_exact (List.length lf) 0 Hpos) as Hs.
    unfold scoreOf, mathRound in *. etransitivity; [| exact Hs]. apply Qfloor_comp.
    apply Qplus_comp; [| reflexivity].
    assert (Hnz : ~ inject_Z (Z.of_nat (List.length lf)) == 0).
    { intros H. unfold Qeq in H. cbn in H. lia. }
    field. exact Hnz.
  - cbv zeta. unfold compareTypography; cbv zeta; cbn [matched m_extra m_score map].
    change (Js.toLowerCase EmptyString) with EmptyString.
    set (lf := EmptyString :: map Js.toLowerCase rest).
    destruct (typography_fold_spec lf (map Js.toLowerCase projectFonts) ([], []))
      as (_ & _ & _ & Hnone).
    cbv zeta in Hnone. cbn [fst snd app] in Hnone.
    destruct Hnone as [H1 H2].
    { intros p _. exists EmptyString. split; [| reflexivity].
      unfold lf. cbn [find]. unfold fontMatches.
      now rewrite includes_empty, orb_true_r. }
    rewrite H1, H2. repeat split. unfold lengthQ. cbn [List.length].
    unfold mathRound.
    assert (Heq : (inject_Z (Z.of_nat 0) / inject_Z (lengthOr1 lf) * 100 + (1 # 2) == 1 # 2)%Q).
    { assert (Hnz : ~ inject_Z (lengthOr1 lf) == 0).
      { intros H. unfold Qeq in H. unfold lf in H. cbn in H. lia. }
      field. exact Hnz. }
    change 0%Z with (Qfloor (1 # 2)). apply Qfloor_comp. exact Heq.
Qed.

Lemma compareTypography_same_and_empty_name_witness :
  forallb truthy ["Inter"; "Inter Tight"]%string = true /\
  let res := compareTypography ["Inter"; "Inter Tight"]%string ["Inter"; "Inter Tight"]%string in
  List.length (matched res) = 2%nat /\ m_extra res = [] /\ m_score res = 100%Z.
Proof.
  split; [reflexivity |].
  apply (proj1 (compareTypography_same_and_empty_name
                  ["Inter"; "Inter Tight"]%string [] [])).
  reflexivity.
Defined.


(** ** Spacing tokens and border radii *)

Lemma dropWhile_app_all (p : ascii -> bool) (l1 l2 : list ascii) :
  forallb p l1 = true -> Js.dropWhile p (l1 ++ l2) = Js.dropWhile p l2.
Proof.
  induction l1 as [| c t IH]; [reflexivity |]. cbn [forallb app Js.dropWhile].
  intros H. apply andb_true_iff in H. destruct H as [-> Ht]. now apply IH.
Qed.

Lemma takeWhile_app_all (p : ascii -> bool) (l1 l2 : list ascii) :
  forallb p l1 = true -> Js.takeWhile p (l1 ++ l2) = l1 ++ Js.takeWhile p l2.
Proof.
  induction l1 as [| c t IH]; [reflexivity |]. cbn [forallb app Js.takeWhile].
  intros H. apply andb_true_iff in H. destruct H as [-> Ht]. now rewrite IH.
Qed.

Lemma dropWhile_all (p : ascii -> bool) (l : list ascii) :
  forallb p l = true -> Js.dropWhile p l = [].
Proof.
  intros H. rewrite <- (app_nil_r l). now rewrite dropWhile_app_all.
Qed.

Lemma takeWhile_all (p : ascii -> bool) (l : list ascii) :
  forallb p l = true -> Js.takeWhile p l = l.
Proof.
  intros H. rewrite <- (app_nil_r l) at 1. rewrite takeWhile_app_all by exact H.
  cbn. apply app_nil_r.
Qed.

Lemma digits_are_digitOrDot (l : list ascii) :
  forallb Js.isDigit l = true -> forallb isDigitOrDot l = true.
Proof.
  rewrite !forallb_forall. intros H c Hc. unfold isDigitOrDot. now rewrite (H c Hc).
Qed.

Lemma takeWhile_no_digit (l : list ascii) :
  startsWithDigit l = false -> Js.takeWhile Js.isDigit l = [].
Proof. destruct l as [| c t]; [reflexivity |]. cbn. now intros ->. Qed.

Lemma takeWhile_digitOrDot_start (l : list ascii) :
  startsWithDigit l = false ->
  startsWithDigit (Js.takeWhile isDigitOrDot l) = false.
Proof.
  destruct l as [| c t]; [reflexivity |]. cbn. intros H.
  destruct (isDigitOrDot c); [exact H | reflexivity].
Qed.

(** when [parseValue] finds no number *)
Lemma parseValue_none_iff (s : string) :
  parseValue (TokString s) = None <->
  forallb (fun c => negb (isDigitOrDot c)) (list_ascii_of_string s) = true.
Proof.
  unfold parseValue, digitDotRun.
  induction (list_ascii_of_string s) as [| c t IH]; [cbn; tauto |].
  cbn [Js.dropWhile forallb].
  destruct (isDigitOrDot c) eqn:Hc; cbn [negb andb].
  - cbn [Js.takeWhile]. rewrite Hc. split; discriminate.
  - exact IH.
Qed.

(** X24.  [parseValue] gives [null] exactly for the strings that contain neither
    a digit nor a dot. *)
Theorem parseValue_null_iff (s : string) :
  parseValue (TokString s) = None <->
  forallb (fun c => negb (isDigitOrDot c)) (list_ascii_of_string s) = true.
Proof.
  exact (parseValue_none_iff s).
Qed.

(** X25.  [parseValue] reads the first number of a string, whatever stands in
    front of it and behind it, so a sign or a unit changes nothing; the
    value is the binary64 number of the decimal numeral made of the
    integer digits and the decimals.  A first dot that no digit precedes
    or follows gives [NaN]. *)
Theorem parseValue_reads_first_number (pre int frac post : list ascii) :
  forallb (fun c => negb (isDigitOrDot c)) pre = true ->
  forallb Js.isDigit int = true -> forallb Js.isDigit frac = true ->
  startsWithDigit post = false ->
  (int <> [] ->
   match post with "."%char :: _ => False | _ => True end ->
   parseValue (TokString (string_of_list_ascii (pre ++ int ++ post))) =
   Some (numOfDecimal (Js.parseDec int) 0)) /\
  (int <> [] \/ frac <> [] ->
   parseValue (TokString (string_of_list_ascii (pre ++ int ++ "."%char :: frac ++ post))) =
   Some (numOfDecimal
           (Js.parseDec int * Npos (pow10 (List.length frac)) + Js.parseDec frac)
           (List.length frac))) /\
  (parseValue (TokString (string_of_list_ascii (pre ++ "."%char :: post))) =
   Some S754_nan).
Proof.
  intros Hpre Hint Hfrac Hpost.
  assert (Hint' := digits_are_digitOrDot _ Hint).
  assert (Hfrac' := digits_are_digitOrDot _ Hfrac).
  unfold parseValue, digitDotRun.
  rewrite !list_ascii_of_string_of_list_ascii.
  split; [| split].
  - intros Hne Hdot.
    rewrite dropWhile_app_all by exact Hpre.
    destruct int as [| i0 it]; [contradiction |].
    cbn [app forallb] in *.
    apply andb_true_iff in Hint. destruct Hint as [Hi0 Hit].
    apply andb_true_iff in Hint'. destruct Hint' as [Hi0' Hit'].
    cbn [Js.dropWhile]. rewrite Hi0'. cbn [negb]. cbn [Js.takeWhile]. rewrite Hi0'.
    rewrite takeWhile_app_all by exact Hit'.
    f_equal. unfold parseFloatRun.
    cbn [Js.takeWhile Js.dropWhile]. rewrite Hi0.
    rewrite takeWhile_app_all by exact Hit.
    rewrite dropWhile_app_all by exact Hit.
    pose proof (takeWhile_digitOrDot_start post Hpost) as Hs.
    rewrite (takeWhile_no_digit _ Hs).
    assert (Hrest : match Js.dropWhile Js.isDigit (Js.takeWhile isDigitOrDot post) with
                    | "."%char :: t => Js.takeWhile Js.isDigit t
                    | _ => []
                    end = []).
    { destruct post as [| c t]; [reflexivity |].
      cbn [Js.takeWhile]. cbn [startsWithDigit] in Hpost.
      destruct (isDigitOrDot c) eqn:Hc; [| reflexivity].
      cbn [Js.dropWhile]. rewrite Hpost.
      unfold isDigitOrDot in Hc. rewrite Hpost in Hc. cbn in Hc.
      apply Ascii.eqb_eq in Hc. subst c. contradiction. }
    rewrite Hrest, app_nil_r. cbn [List.length pow10].
    change (Js.parseDec []) with 0%N. now rewrite N.mul_1_r, N.add_0_r.
  - intros Hne.
    rewrite dropWhile_app_all by exact Hpre.
    set (tail := "."%char :: frac ++ post).
    assert (Hrun : Js.takeWhile isDigitOrDot
                     (Js.dropWhile (fun c => negb (isDigitOrDot c)) (int ++ tail)) =
                   int ++ "."%char :: frac ++ Js.takeWhile isDigitOrDot post).
    { destruct int as [| i0 it].
      - cbn [app]. unfold tail.
        change (Js.dropWhile (fun c => negb (isDigitOrDot c)) ("."%char :: frac ++ post))
          with ("."%char :: frac ++ post).
        change (Js.takeWhile isDigitOrDot ("."%char :: frac ++ post))
          with ("."%char :: Js.takeWhile isDigitOrDot (frac ++ post)).
        now rewrite takeWhile_app_all.
      - cbn [app forallb] in *.
        apply andb_true_iff in Hint'. destruct Hint' as [Hi0' Hit'].
        cbn [Js.dropWhile]. rewrite Hi0'. cbn [negb]. cbn [Js.takeWhile]. rewrite Hi0'.
        rewrite takeWhile_app_all by exact Hit'. unfold tail.
        change (Js.takeWhile isDigitOrDot ("."%char :: frac ++ post))
          with ("."%char :: Js.takeWhile isDigitOrDot (frac ++ post)).
        now rewrite takeWhile_app_all. }
    rewrite Hrun.
    assert (Hnonempty : int ++ "."%char :: frac ++ Js.takeWhile isDigitOrDot post <> []).
    { destruct int; discriminate. }
    destruct (int ++ "."%char :: frac ++ Js.takeWhile isDigitOrDot post) as [| r0 rt] eqn:Hr;
      [contradiction |].
    rewrite <- Hr. f_equal. unfold parseFloatRun.
    rewrite takeWhile_app_all by exact Hint.
    rewrite dropWhile_app_all by exact Hint.
    change (Js.takeWhile Js.isDigit ("."%char :: frac ++ Js.takeWhile isDigitOrDot post))
      with (@nil ascii).
    change (Js.dropWhile Js.isDigit ("."%char :: frac ++ Js.takeWhile isDigitOrDot post))
      with ("."%char :: frac ++ Js.takeWhile isDigitOrDot post).
    rewrite app_nil_r.
    rewrite takeWhile_app_all by exact Hfrac.
    rewrite (takeWhile_no_digit _ (takeWhile_digitOrDot_start post Hpost)), app_nil_r.
    destruct int as [| i0 it]; [| reflexivity].
    destruct frac as [| f0 ft]; [| reflexivity].
    destruct Hne; contradiction.
  - rewrite dropWhile_app_all by exact Hpre.
    change (Js.dropWhile (fun c => negb (isDigitOrDot c)) ("."%char :: post))
      with ("."%char :: post).
    change (Js.takeWhile isDigitOrDot ("."%char :: post))
      with ("."%char :: Js.takeWhile isDigitOrDot post).
    f_equal. unfold parseFloatRun.
    change (Js.takeWhile Js.isDigit ("."%char :: Js.takeWhile isDigitOrDot post))
      with (@nil ascii).
    change (Js.dropWhile Js.isDigit ("."%char :: Js.takeWhile isDigitOrDot post))
      with ("."%char :: Js.takeWhile isDigitOrDot post).
    pose proof (takeWhile_digitOrDot_start post Hpost) as Hs.
    cbv beta iota zeta. now rewrite (takeWhile_no_digit _ Hs).
Qed.

Lemma parseValue_reads_first_number_witness :
  parseValue (TokString "-4.4rem") = Some (numOfDecimal 44 1) /\
  parseValue (TokString "16px") = Some (numOfDecimal 16 0).
Proof.
  destruct (parseValue_reads_first_number (list_ascii_of_string "-")
              (list_ascii_of_string "4") (list_ascii_of_string "4")
              (list_ascii_of_string "rem") eq_refl eq_refl eq_refl eq_refl)
    as (_ & Hdec & _).
  destruct (parseValue_reads_first_number [] (list_ascii_of_string "16") []
              (list_ascii_of_string "px") eq_refl eq_refl eq_refl eq_refl)
    as (Hint & _ & _).
  split.
  - apply Hdec. left. discriminate.
  - apply Hint; [discriminate | exact I].
Defined.

Lemma parseScale_app (l1 l2 : list SpacingToken) :
  parseScale (l1 ++ l2) = parseScale l1 ++ parseScale l2.
Proof.
  induction l1 as [| v t IH]; [reflexivity |]. cbn [app parseScale].
  destruct (parseValue v); cbn [app]; now rewrite IH.
Qed.

(** X26.  Entries of a spacing scale that contain neither a digit nor a dot are
    skipped: adding such an entry anywhere in the project scale or in the
    reference scale changes nothing in the result, the score included. *)
Theorem compareSpacingTokens_skips_unparseable
    (s : string) (p1 p2 r1 r2 : list SpacingToken) :
  forallb (fun c => negb (isDigitOrDot c)) (list_ascii_of_string s) = true ->
  compareSpacingTokens (p1 ++ TokString s :: p2) (r1 ++ r2) =
  compareSpacingTokens (p1 ++ p2) (r1 ++ r2) /\
  compareSpacingTokens (p1 ++ p2) (r1 ++ TokString s :: r2) =
  compareSpacingTokens (p1 ++ p2) (r1 ++ r2).
Proof.
  intros Hs. apply parseValue_none_iff in Hs.
  unfold compareSpacingTokens.
  rewrite !parseScale_app. cbn [parseScale]. rewrite Hs. split; reflexivity.
Qed.

Lemma compareSpacingTokens_skips_unparseable_witness :
  compareSpacingTokens [TokString "4px"; TokString "auto"; TokString "8px"]
                       [TokString "4px"] =
  compareSpacingTokens [TokString "4px"; TokString "8px"] [TokString "4px"].
Proof.
  apply (proj1 (compareSpacingTokens_skips_unparseable "auto"
                  [TokString "4px"] [TokString "8px"] [TokString "4px"] [] eq_refl)).
Defined.

Lemma filter_partition_perm {A : Type} (f : A -> bool) (l : list A) :
  Permutation l (filter f l ++ filter (fun x => negb (f x)) l).
Proof.
  induction l as [| a t IH]; [constructor |]. cbn [filter].
  destruct (f a); cbn [negb app].
  - now constructor.
  - etransitivity; [apply perm_skip, IH |]. apply Permutation_middle.
Qed.

(** X27.  [compareBorderRadius]: the project values are split between [matched]
    and [extra], a value being matched exactly when the reference holds
    the same value, each occurrence counting; a reference value is missing
    exactly when the project does not hold it.  [NaN] counts as a value
    here: it is matched when both sides hold it. *)
Theorem compareBorderRadius_partition (projValues refValues : list SNum) :
  let res := compareBorderRadius projValues refValues in
  let holds := fun (l : list SNum) (v : SNum) => existsb (snumSameValue v) l = true in
  Permutation projValues (matched res ++ m_extra res) /\
  (forall v, In v (matched res) <-> In v projValues /\ holds refValues v) /\
  (forall v, In v (m_extra res) <-> In v projValues /\ ~ holds refValues v) /\
  (forall v, In v (m_missing res) <-> In v refValues /\ ~ holds projValues v) /\
  (In S754_nan projValues -> In S754_nan refValues -> In S754_nan (matched res)).
Proof.
  cbv zeta. unfold compareBorderRadius; cbv zeta; cbn [matched m_extra m_missing].
  split; [apply filter_partition_perm |].
  split; [intros v; apply filter_In |].
  split; [intros v; rewrite filter_In, negb_true_iff, not_true_iff_false; tauto |].
  split; [intros v; rewrite filter_In, negb_true_iff, not_true_iff_false; tauto |].
  intros Hp Hr. apply filter_In. split; [exact Hp |].
  apply existsb_exists. exists S754_nan. split; [exact Hr | reflexivity].
Qed.

